(** * Pig game server: session state machine, match actor and match manager

    A shallow embedding of the Go packages [models], [game] and [server]
    of pig-golang, followed by the properties of the session state machine
    ([game.PigGame]), of the join handler of the match actor
    ([server.Match.handleRegister]) and of the matchmaking entry point
    ([server.MatchManager.FindOrCreateMatch]).

    Conventions of the embedding.
    - Go [int] is the 64-bit two's complement integer: a [Z] with the
      wrap-around of every addition written out ([int_add]).
    - A slice is a [list]; indexing with an [int] out of range is a run-time
      panic, modelled by [None] in the result of the function.
    - [time.Now()] is an input of each method of [PigGame] that reads the
      clock; the constructors and the server draw the clock readings, the
      identifiers of [uuid.New()] and the generators of [rand.NewSource]
      from a [World] that they thread.
    - The mutex of [PigGame] brackets every exported method (Lock, deferred
      Unlock); the methods are modelled as the sequential bodies they guard. *)

From stdpp Require Import base numbers option list strings gmap pretty.

Local Open Scope Z_scope.

(** ** Go integers *)

Definition int_min : Z := - 2 ^ 63.
Definition int_max : Z := 2 ^ 63 - 1.

Definition int_wrap (z : Z) : Z := (z + 2 ^ 63) `mod` 2 ^ 64 - 2 ^ 63.

Definition int_add (a b : Z) : Z := int_wrap (a + b).

(** Go's [%] truncates towards zero. *)
Definition int_rem (a b : Z) : Z := Z.rem a b.

Definition is_int (z : Z) : Prop := int_min ≤ z ≤ int_max.

(** [s[i]] for a slice [s] and an [int] index [i]; [None] is the
    index-out-of-range panic. *)
Definition index {A : Type} (s : list A) (i : Z) : option A :=
  if decide (0 ≤ i) then s !! Z.to_nat i else None.

(** [len(s)] *)
Definition len {A : Type} (s : list A) : Z := Z.of_nat (length s).

Definition time := Z.

(** ** math/rand

    [rand.Rand] is a library type.  A generator is the sequence of raw
    draws it will accept, and a cursor; [Intn n] reduces the raw draw
    modulo [n], as the library does, so that the result lies in [[0, n)]. *)
Module rand.

Record Rand := { src : nat → Z; pos : nat }.

Definition Intn (r : Rand) (n : Z) : Z * Rand :=
  (src r (pos r) `mod` n, {| src := src r; pos := S (pos r) |}).

End rand.

(** ** The outside world

    What the program draws from its environment: the identifiers that
    [uuid.New().String()] will return, the readings of the clock, and the
    sequence of draws that [rand.NewSource] makes of a seed. *)
Record World := {
  uuids : nat → string;
  uuid_next : nat;
  clock : nat → time;
  clock_next : nat;
  rand_source : Z → nat → Z;
}.

Definition uuid_New (w : World) : string * World :=
  (uuids w (uuid_next w),
   {| uuids := uuids w; uuid_next := S (uuid_next w); clock := clock w;
      clock_next := clock_next w; rand_source := rand_source w |}).

Definition time_Now (w : World) : time * World :=
  (clock w (clock_next w),
   {| uuids := uuids w; uuid_next := uuid_next w; clock := clock w;
      clock_next := S (clock_next w); rand_source := rand_source w |}).

(** [rand.New(rand.NewSource(seed))] *)
Definition rand_New (w : World) (seed : Z) : rand.Rand :=
  {| rand.src := rand_source w seed; rand.pos := 0 |}.

(** ** package models *)
Module models.

Record Player := {
  ID : string;
  Name : string;
  Score : Z;
  IsActive : bool;
}.

(** [Players] is a slice of pointers to players.  The objects it points to
    are pairwise distinct ([AddPlayer] refuses an object whose identifier
    is in the slice, and nothing is ever removed), so that a pointer to one
    of them is its position in the slice, and an assignment through the
    pointer is an update of the slice at that position.  [Winner] is such a
    pointer, or nil. *)
Record GameState := {
  GameID : string;
  Players : list Player;
  CurrentPlayer : Z;
  TurnScore : Z;
  LastRoll : Z;
  WinningScore : Z;
  Winner : option nat;
  IsGameOver : bool;
  CreatedAt : time;
  LastActivityAt : time;
}.

Definition NewPlayer (name : string) (w : World) : Player * World :=
  let '(id, w) := uuid_New w in
  ({| ID := id; Name := name; Score := 0; IsActive := true |}, w).

Definition NewGameState (winningScore : Z) (w : World) : GameState * World :=
  let '(id, w) := uuid_New w in
  let '(now1, w) := time_Now w in
  let '(now2, w) := time_Now w in
  ({| GameID := id; Players := []; CurrentPlayer := 0; TurnScore := 0;
      LastRoll := 0; WinningScore := winningScore; Winner := None;
      IsGameOver := false; CreatedAt := now1; LastActivityAt := now2 |}, w).

(** Field assignments. *)
Definition set_ID (v : string) (p : Player) : Player :=
  {| ID := v; Name := Name p; Score := Score p; IsActive := IsActive p |}.

Definition set_Score (v : Z) (p : Player) : Player :=
  {| ID := ID p; Name := Name p; Score := v; IsActive := IsActive p |}.

Definition set_IsActive (v : bool) (p : Player) : Player :=
  {| ID := ID p; Name := Name p; Score := Score p; IsActive := v |}.

Definition set_Players (v : list Player) (s : GameState) : GameState :=
  {| GameID := GameID s; Players := v; CurrentPlayer := CurrentPlayer s;
     TurnScore := TurnScore s; LastRoll := LastRoll s;
     WinningScore := WinningScore s; Winner := Winner s;
     IsGameOver := IsGameOver s; CreatedAt := CreatedAt s;
     LastActivityAt := LastActivityAt s |}.

Definition set_CurrentPlayer (v : Z) (s : GameState) : GameState :=
  {| GameID := GameID s; Players := Players s; CurrentPlayer := v;
     TurnScore := TurnScore s; LastRoll := LastRoll s;
     WinningScore := WinningScore s; Winner := Winner s;
     IsGameOver := IsGameOver s; CreatedAt := CreatedAt s;
     LastActivityAt := LastActivityAt s |}.

Definition set_TurnScore (v : Z) (s : GameState) : GameState :=
  {| GameID := GameID s; Players := Players s; CurrentPlayer := CurrentPlayer s;
     TurnScore := v; LastRoll := LastRoll s;
     WinningScore := WinningScore s; Winner := Winner s;
     IsGameOver := IsGameOver s; CreatedAt := CreatedAt s;
     LastActivityAt := LastActivityAt s |}.

Definition set_LastRoll (v : Z) (s : GameState) : GameState :=
  {| GameID := GameID s; Players := Players s; CurrentPlayer := CurrentPlayer s;
     TurnScore := TurnScore s; LastRoll := v;
     WinningScore := WinningScore s; Winner := Winner s;
     IsGameOver := IsGameOver s; CreatedAt := CreatedAt s;
     LastActivityAt := LastActivityAt s |}.

Definition set_Winner (v : option nat) (s : GameState) : GameState :=
  {| GameID := GameID s; Players := Players s; CurrentPlayer := CurrentPlayer s;
     TurnScore := TurnScore s; LastRoll := LastRoll s;
     WinningScore := WinningScore s; Winner := v;
     IsGameOver := IsGameOver s; CreatedAt := CreatedAt s;
     LastActivityAt := LastActivityAt s |}.

Definition set_IsGameOver (v : bool) (s : GameState) : GameState :=
  {| GameID := GameID s; Players := Players s; CurrentPlayer := CurrentPlayer s;
     TurnScore := TurnScore s; LastRoll := LastRoll s;
     WinningScore := WinningScore s; Winner := Winner s;
     IsGameOver := v; CreatedAt := CreatedAt s;
     LastActivityAt := LastActivityAt s |}.

Definition set_LastActivityAt (v : time) (s : GameState) : GameState :=
  {| GameID := GameID s; Players := Players s; CurrentPlayer := CurrentPlayer s;
     TurnScore := TurnScore s; LastRoll := LastRoll s;
     WinningScore := WinningScore s; Winner := Winner s;
     IsGameOver := IsGameOver s; CreatedAt := CreatedAt s;
     LastActivityAt := v |}.

(** [GameAction] and [MessageType] are strings. *)
Definition ActionRoll : string := "roll".
Definition ActionHold : string := "hold".
Definition ActionJoin : string := "join".
Definition ActionQuit : string := "quit".

Definition TypeGameUpdate : string := "game_update".
Definition TypeError : string := "error".
Definition TypeJoined : string := "joined".
Definition TypePlayerLeft : string := "player_left".
Definition TypeGameStart : string := "game_start".
Definition TypeGameOver : string := "game_over".

(** The fields of [Message] carry the prefix Msg: [Type] is reserved, and
    [GameState] and [PlayerID] name other things here.  [MsgGameState] is
    the snapshot the message points to, or nil; [MsgData] is the string
    map the join handler puts there, empty for nil. *)
Record Message := {
  MsgType : string;
  MsgAction : string;
  MsgPlayerID : string;
  MsgGameState : option GameState;
  MsgData : gmap string string;
  MsgError : string;
  MsgTimestamp : time;
}.

Definition NewMessage (msgType : string) (w : World) : Message * World :=
  let '(now, w) := time_Now w in
  ({| MsgType := msgType; MsgAction := ""; MsgPlayerID := "";
      MsgGameState := None; MsgData := ∅; MsgError := "";
      MsgTimestamp := now |}, w).

Definition set_MsgPlayerID (v : string) (m : Message) : Message :=
  {| MsgType := MsgType m; MsgAction := MsgAction m; MsgPlayerID := v;
     MsgGameState := MsgGameState m; MsgData := MsgData m;
     MsgError := MsgError m; MsgTimestamp := MsgTimestamp m |}.

Definition set_MsgGameState (v : option GameState) (m : Message) : Message :=
  {| MsgType := MsgType m; MsgAction := MsgAction m;
     MsgPlayerID := MsgPlayerID m; MsgGameState := v; MsgData := MsgData m;
     MsgError := MsgError m; MsgTimestamp := MsgTimestamp m |}.

Definition set_MsgData (v : gmap string string) (m : Message) : Message :=
  {| MsgType := MsgType m; MsgAction := MsgAction m;
     MsgPlayerID := MsgPlayerID m; MsgGameState := MsgGameState m;
     MsgData := v; MsgError := MsgError m; MsgTimestamp := MsgTimestamp m |}.

(** [PlayerAction]: what a connection asks for. *)
Record PlayerAction := {
  PlayerID : string;
  Action : string;
}.

Definition set_MsgType (v : string) (m : Message) : Message :=
  {| MsgType := v; MsgAction := MsgAction m; MsgPlayerID := MsgPlayerID m;
     MsgGameState := MsgGameState m; MsgData := MsgData m;
     MsgError := MsgError m; MsgTimestamp := MsgTimestamp m |}.

Definition set_MsgAction (v : string) (m : Message) : Message :=
  {| MsgType := MsgType m; MsgAction := v; MsgPlayerID := MsgPlayerID m;
     MsgGameState := MsgGameState m; MsgData := MsgData m;
     MsgError := MsgError m; MsgTimestamp := MsgTimestamp m |}.

Definition set_MsgError (v : string) (m : Message) : Message :=
  {| MsgType := MsgType m; MsgAction := MsgAction m;
     MsgPlayerID := MsgPlayerID m; MsgGameState := MsgGameState m;
     MsgData := MsgData m; MsgError := v; MsgTimestamp := MsgTimestamp m |}.


End models.

(** ** package game *)
Module game.

Import models.

Inductive error :=
  | ErrGameNotStarted
  | ErrGameOver
  | ErrNotPlayerTurn
  | ErrInvalidPlayer
  | ErrGameFull
  | ErrNotEnoughPlayers
  | ErrPlayerAlreadyInGame.

(** [err.Error()] *)
Definition Error (e : error) : string :=
  match e with
  | ErrGameNotStarted => "game has not started yet"
  | ErrGameOver => "game is already over"
  | ErrNotPlayerTurn => "it is not this player's turn"
  | ErrInvalidPlayer => "invalid player"
  | ErrGameFull => "game is full"
  | ErrNotEnoughPlayers => "not enough players to start"
  | ErrPlayerAlreadyInGame => "player already in game"
  end.

Record PigGame := { state : GameState; rng : rand.Rand }.

Definition set_state (s : GameState) (g : PigGame) : PigGame :=
  {| state := s; rng := rng g |}.

Definition NewPigGame (winningScore : Z) (w : World) : PigGame * World :=
  let winningScore := if decide (winningScore ≤ 0) then 100 else winningScore in
  let '(s, w) := NewGameState winningScore w in
  let '(seed, w) := time_Now w in
  ({| state := s; rng := rand_New w seed |}, w).

(** The result of a method that returns [error]: [None] is nil. *)
Definition AddPlayer (g : PigGame) (player : Player) (now : time)
  : option error * PigGame :=
  let s := state g in
  if IsGameOver s then (Some ErrGameOver, g)
  else if decide (4 ≤ len (Players s)) then (Some ErrGameFull, g)
  else if decide (Exists (λ p, ID p = ID player) (Players s))
       then (Some ErrPlayerAlreadyInGame, g)
  else (None,
        set_state (set_LastActivityAt now
                     (set_Players (Players s ++ [player]) s)) g).

(** One iteration of the scan of [nextTurn] and the iterations after it.
    [k] counts the iterations left, [i] is the loop variable.  The boolean
    of the result tells that the function returned from inside the loop. *)
Fixpoint nextTurn_loop (k : nat) (i startIdx : Z) (s : GameState)
  : option (bool * GameState) :=
  match k with
  | O => Some (false, s)
  | S k' =>
    let s1 :=
      set_CurrentPlayer
        (int_rem (int_add (CurrentPlayer s) 1) (len (Players s))) s in
    match index (Players s1) (CurrentPlayer s1) with
    | None => None
    | Some p =>
      if IsActive p then Some (false, s1)
      else if decide (CurrentPlayer s1 = startIdx ∧ i = len (Players s1) - 1)
      then Some (true, set_IsGameOver true s1)
      else nextTurn_loop k' (i + 1) startIdx s1
    end
  end.

Definition nextTurn (s : GameState) : option GameState :=
  if decide (len (Players s) = 0) then Some s
  else
    match nextTurn_loop (length (Players s)) 0 (CurrentPlayer s) s with
    | None => None
    | Some (true, s') => Some s'
    | Some (false, s') => Some (set_LastRoll 0 s')
    end.

(** [activeCount] after the counting loop of [RemovePlayer]; the counter
    is bounded by the length of the slice and cannot wrap. *)
Definition activeCount (ps : list Player) : Z :=
  foldl (λ c p, if IsActive p then c + 1 else c) 0 ps.

(** The pointer assigned to [Winner] by the scan of [RemovePlayer]: the
    first active player, if there is one. *)
Definition firstActive (ps : list Player) : option nat :=
  fst <$> list_find (λ p, IsActive p = true) ps.

Definition RemovePlayer (g : PigGame) (playerID : string) (now : time)
  : option (option error * PigGame) :=
  let s := state g in
  match list_find (λ p, ID p = playerID) (Players s) with
  | None => Some (Some ErrInvalidPlayer, g)
  | Some (i, player) =>
    let s := set_Players (<[i := set_IsActive false player]> (Players s)) s in
    let s :=
      if decide (activeCount (Players s) ≤ 1 ∧ 1 < len (Players s)) then
        let s := set_IsGameOver true s in
        match firstActive (Players s) with
        | Some w => set_Winner (Some w) s
        | None => s
        end
      else s in
    s ← (if decide (Z.of_nat i = CurrentPlayer s) then nextTurn s else Some s);
    Some (None, set_state (set_LastActivityAt now s) g)
  end.

Definition CanStart (g : PigGame) : bool :=
  bool_decide (2 ≤ len (Players (state g))).

Definition Start (g : PigGame) (now : time) : option error * PigGame :=
  let s := state g in
  if decide (len (Players s) < 2) then (Some ErrNotEnoughPlayers, g)
  else if IsGameOver s then (Some ErrGameOver, g)
  else (None, set_state (set_LastActivityAt now s) g).

Definition Roll (g : PigGame) (playerID : string) (now : time)
  : option ((Z * option error) * PigGame) :=
  let s := state g in
  if IsGameOver s then Some ((0, Some ErrGameOver), g)
  else if decide (len (Players s) < 2) then Some ((0, Some ErrGameNotStarted), g)
  else
    currentPlayer ← index (Players s) (CurrentPlayer s);
    if decide (ID currentPlayer ≠ playerID)
    then Some ((0, Some ErrNotPlayerTurn), g)
    else if negb (IsActive currentPlayer)
    then Some ((0, Some ErrInvalidPlayer), g)
    else
      let '(d, r) := rand.Intn (rng g) 6 in
      let roll := int_add d 1 in
      let s := set_LastActivityAt now (set_LastRoll roll s) in
      s ← (if decide (roll = 1) then nextTurn (set_TurnScore 0 s)
           else Some (set_TurnScore (int_add (TurnScore s) roll) s));
      Some ((roll, None), {| state := s; rng := r |}).

Definition Hold (g : PigGame) (playerID : string) (now : time)
  : option (option error * PigGame) :=
  let s := state g in
  if IsGameOver s then Some (Some ErrGameOver, g)
  else if decide (len (Players s) < 2) then Some (Some ErrGameNotStarted, g)
  else
    currentPlayer ← index (Players s) (CurrentPlayer s);
    if decide (ID currentPlayer ≠ playerID)
    then Some (Some ErrNotPlayerTurn, g)
    else if negb (IsActive currentPlayer)
    then Some (Some ErrInvalidPlayer, g)
    else
      let cur := Z.to_nat (CurrentPlayer s) in
      let currentPlayer :=
        set_Score (int_add (Score currentPlayer) (TurnScore s)) currentPlayer in
      let s :=
        set_LastActivityAt now
          (set_Players (<[cur := currentPlayer]> (Players s)) s) in
      if decide (WinningScore s ≤ Score currentPlayer) then
        Some (None,
              set_state (set_TurnScore 0
                           (set_Winner (Some cur) (set_IsGameOver true s))) g)
      else
        s ← nextTurn (set_TurnScore 0 s);
        Some (None, set_state s g).

(** The deep copy [GetState] makes, a value here. *)
Definition GetState (g : PigGame) : GameState := state g.

Definition IsGameOver (g : PigGame) : bool := models.IsGameOver (state g).

Definition GetWinner (g : PigGame) : option nat := models.Winner (state g).

Definition GetPlayerCount (g : PigGame) : Z := len (Players (state g)).

Definition GetActivePlayerCount (g : PigGame) : Z :=
  activeCount (Players (state g)).

(** The pointer [GetCurrentPlayer] returns: nil without players. *)
Definition GetCurrentPlayer (g : PigGame) : option (option nat) :=
  if decide (len (Players (state g)) = 0) then Some None
  else
    _ ← index (Players (state g)) (CurrentPlayer (state g));
    Some (Some (Z.to_nat (CurrentPlayer (state g)))).


End game.

(** ** package server

    [Match] objects live on a heap, a list addressed by position: the
    manager holds pointers to them, and each is mutated through its own
    actor.  A [Match] owns its game and its broadcast channel, which are
    held by value; a channel is the queue of the messages sent on it and
    not yet received, and a send that would block on a full buffer is not
    told apart from one that goes through.  A handler returns, next to the
    new state, what it did to the outside: the messages it sent on the
    channels of connections, the lines it logged, the goroutines it
    started. *)
Module server.

(** [Send] is the identity of the channel of the connection. *)
Record PlayerConnection := {
  PlayerID : string;
  PlayerName : string;
  GameID : string;
  Send : nat;
}.

Record Match := {
  ID : string;
  Game : game.PigGame;
  Players : gmap string PlayerConnection;
  MinPlayers : Z;
  MaxPlayers : Z;
  IsStarted : bool;
  Broadcast : list models.Message;
  CreatedAt : time;
  LastActivityAt : time;
}.

Definition loc := nat.

Record MatchManager := {
  matches : gmap string loc;
  waitingRoom : option loc;
}.

Inductive effect :=
  | SendTo (conn : PlayerConnection) (msg : models.Message)
  | Log (line : string)
  | GoRun (m : loc).

Definition set_Game (v : game.PigGame) (m : Match) : Match :=
  {| ID := ID m; Game := v; Players := Players m; MinPlayers := MinPlayers m;
     MaxPlayers := MaxPlayers m; IsStarted := IsStarted m;
     Broadcast := Broadcast m; CreatedAt := CreatedAt m;
     LastActivityAt := LastActivityAt m |}.

Definition set_Players (v : gmap string PlayerConnection) (m : Match) : Match :=
  {| ID := ID m; Game := Game m; Players := v; MinPlayers := MinPlayers m;
     MaxPlayers := MaxPlayers m; IsStarted := IsStarted m;
     Broadcast := Broadcast m; CreatedAt := CreatedAt m;
     LastActivityAt := LastActivityAt m |}.

Definition set_IsStarted (v : bool) (m : Match) : Match :=
  {| ID := ID m; Game := Game m; Players := Players m;
     MinPlayers := MinPlayers m; MaxPlayers := MaxPlayers m; IsStarted := v;
     Broadcast := Broadcast m; CreatedAt := CreatedAt m;
     LastActivityAt := LastActivityAt m |}.

Definition set_Broadcast (v : list models.Message) (m : Match) : Match :=
  {| ID := ID m; Game := Game m; Players := Players m;
     MinPlayers := MinPlayers m; MaxPlayers := MaxPlayers m;
     IsStarted := IsStarted m; Broadcast := v; CreatedAt := CreatedAt m;
     LastActivityAt := LastActivityAt m |}.

Definition set_LastActivityAt (v : time) (m : Match) : Match :=
  {| ID := ID m; Game := Game m; Players := Players m;
     MinPlayers := MinPlayers m; MaxPlayers := MaxPlayers m;
     IsStarted := IsStarted m; Broadcast := Broadcast m;
     CreatedAt := CreatedAt m; LastActivityAt := v |}.

Definition NewMatchManager : MatchManager :=
  {| matches := ∅; waitingRoom := None |}.

Definition NewMatch (gameID : string) (winningScore : Z) (w : World)
  : Match * World :=
  let '(g, w) := game.NewPigGame winningScore w in
  let '(now1, w) := time_Now w in
  let '(now2, w) := time_Now w in
  ({| ID := gameID; Game := g; Players := ∅; MinPlayers := 2;
      MaxPlayers := 4; IsStarted := false; Broadcast := [];
      CreatedAt := now1; LastActivityAt := now2 |}, w).

(** The state of the server a manager method works on: the heap of
    matches, the manager, the world. *)
Definition FindOrCreateMatch (h : list Match) (mm : MatchManager)
    (winningScore : Z) (w : World)
  : option (loc * list Match * MatchManager * list effect * World) :=
  let create :=
    let '(state, w) := models.NewGameState winningScore w in
    let '(match_, w) := NewMatch (models.GameID state) winningScore w in
    let l := length h in
    Some (l, h ++ [match_],
          {| matches := <[ID match_ := l]> (matches mm);
             waitingRoom := Some l |},
          [GoRun l; Log ("Created new waiting room match: " +:+ ID match_)],
          w) in
  match waitingRoom mm with
  | Some l =>
    room ← h !! l;
    let playerCount := Z.of_nat (size (Players room)) in
    let isStarted := IsStarted room in
    if negb isStarted && bool_decide (playerCount < MaxPlayers room)
    then Some (l, h, mm, [], w)
    else create
  | None => create
  end.

(** [handleRegister], run by the actor of [m] on a join event. *)
Definition handleRegister (m : Match) (conn : PlayerConnection) (w : World)
  : Match * list effect * World :=
  let m := set_Players (<[PlayerID conn := conn]> (Players m)) m in
  let '(now, w) := time_Now w in
  let m := set_LastActivityAt now m in
  let '(player, w) := models.NewPlayer (PlayerName conn) w in
  let player := models.set_ID (PlayerID conn) player in
  let '(now, w1) := time_Now w in
  match game.AddPlayer (Game m) player now with
  | (Some err, _) =>
    (set_Players (delete (PlayerID conn) (Players m)) m,
     [Log ("Error adding player to game: " +:+ game.Error err)], w)
  | (None, g) =>
    let w := w1 in
    let m := set_Game g m in
    let log1 :=
      Log ("Player " +:+ models.Name player +:+ " (" +:+ models.ID player
           +:+ ") registered to match " +:+ ID m) in
    let '(joinedMsg, w) := models.NewMessage models.TypeJoined w in
    let joinedMsg :=
      models.set_MsgGameState (Some (game.GetState (Game m)))
        (models.set_MsgPlayerID (PlayerID conn) joinedMsg) in
    let '(updateMsg, w) := models.NewMessage models.TypeGameUpdate w in
    let updateMsg :=
      models.set_MsgData
        (<["player_name" := models.Name player]>
           (<["event" := "player_joined"]> ∅))
        (models.set_MsgGameState (Some (game.GetState (Game m))) updateMsg) in
    let m := set_Broadcast (Broadcast m ++ [updateMsg]) m in
    let effs := [log1; SendTo conn joinedMsg] in
    if game.CanStart (Game m) && negb (IsStarted m) then
      let m := set_IsStarted true m in
      let '(now, w2) := time_Now w in
      match game.Start (Game m) now with
      | (Some err, _) =>
        (m, effs ++ [Log ("Error starting game: " +:+ game.Error err)], w)
      | (None, g) =>
        let w := w2 in
        let m := set_Game g m in
        let '(startMsg, w) := models.NewMessage models.TypeGameStart w in
        let startMsg :=
          models.set_MsgGameState (Some (game.GetState (Game m))) startMsg in
        let m := set_Broadcast (Broadcast m ++ [startMsg]) m in
        (m,
         effs ++ [Log ("Game " +:+ ID m +:+ " started with "
                       +:+ pretty (game.GetPlayerCount (Game m))
                       +:+ " players")],
         w)
      end
    else (m, effs, w)
  end.

Definition GetPlayerCount (m : Match) : Z := Z.of_nat (size (Players m)).

Definition IsFull (m : Match) : bool :=
  bool_decide (MaxPlayers m ≤ Z.of_nat (size (Players m))).

(** [%v] of a pointer to a player, as [log.Printf] prints it. *)
Definition fmt_player (ps : list models.Player) (p : option nat) : string :=
  match p ≫= (ps !!.) with
  | Some p =>
    "&{" +:+ models.ID p +:+ " " +:+ models.Name p +:+ " "
    +:+ pretty (models.Score p) +:+ " "
    +:+ (if models.IsActive p then "true" else "false") +:+ "}"
  | None => "<nil>"
  end.

(** [handleUnregister], run by the actor of [m] on a leave event.  The
    third component of the result lists the channels the handler closed;
    whether a channel was closed before is not kept track of.  [None] is a
    panic of [RemovePlayer]. *)
Definition handleUnregister (m : Match) (conn : PlayerConnection) (w : World)
  : option (Match * list effect * list nat * World) :=
  match Players m !! PlayerID conn with
  | None => Some (m, [], [], w)
  | Some _ =>
    let m := set_Players (delete (PlayerID conn) (Players m)) m in
    let '(now, w) := time_Now w in
    let m := set_LastActivityAt now m in
    let '(now, w1) := time_Now w in
    r ← game.RemovePlayer (Game m) (PlayerID conn) now;
    let '(m, effs, w) :=
      match r with
      | (Some err, _) =>
        (m, [Log ("Error removing player from game: " +:+ game.Error err)], w)
      | (None, g) => (set_Game g m, [], w1)
      end in
    let effs :=
      effs ++ [Log ("Player " +:+ PlayerID conn +:+ " unregistered from match "
                    +:+ ID m)] in
    let '(leftMsg, w) := models.NewMessage models.TypePlayerLeft w in
    let leftMsg :=
      models.set_MsgGameState (Some (game.GetState (Game m)))
        (models.set_MsgPlayerID (PlayerID conn) leftMsg) in
    let m := set_Broadcast (Broadcast m ++ [leftMsg]) m in
    if game.IsGameOver (Game m) then
      let '(gameOverMsg, w) := models.NewMessage models.TypeGameOver w in
      let gameOverMsg :=
        models.set_MsgGameState (Some (game.GetState (Game m))) gameOverMsg in
      let m := set_Broadcast (Broadcast m ++ [gameOverMsg]) m in
      Some (m, effs, [Send conn], w)
    else Some (m, effs, [Send conn], w)
  end.

(** [handlePlayerAction], run by the actor of [m] on an action.  The
    values of the data map of the reply are held as strings, the number
    rolled by its decimal writing.  [None] is a panic of [Roll] or
    [Hold]. *)
Definition handlePlayerAction (m : Match) (action : models.PlayerAction)
    (w : World) : option (Match * list effect * World) :=
  let '(now, w) := time_Now w in
  let m := set_LastActivityAt now m in
  let '(responseMsg, w) := models.NewMessage models.TypeGameUpdate w in
  let responseMsg :=
    models.set_MsgAction (models.Action action)
      (models.set_MsgPlayerID (models.PlayerID action) responseMsg) in
  let '(now, w1) := time_Now w in
  outcome ←
    (if decide (models.Action action = models.ActionRoll) then
       '(roll, rollErr, g) ← game.Roll (Game m) (models.PlayerID action) now;
       match rollErr with
       | Some err => Some (Some (Some err, responseMsg, g, w))
       | None =>
         Some (Some (None,
                     models.set_MsgData
                       (<["action" := "roll"]> (<["roll" := pretty roll]> ∅))
                       responseMsg, g, w1))
       end
     else if decide (models.Action action = models.ActionHold) then
       '(err, g) ← game.Hold (Game m) (models.PlayerID action) now;
       match err with
       | Some err => Some (Some (Some err, responseMsg, g, w))
       | None =>
         Some (Some (None,
                     models.set_MsgData (<["action" := "hold"]> ∅) responseMsg,
                     g, w1))
       end
     else Some None);
  match outcome with
  | None => Some (m, [Log ("Unknown action: " +:+ models.Action action)], w)
  | Some (Some err, _, _, w) =>
    let '(errorMsg, w) := models.NewMessage models.TypeError w in
    let errorMsg :=
      models.set_MsgPlayerID (models.PlayerID action)
        (models.set_MsgError (game.Error err) errorMsg) in
    match Players m !! models.PlayerID action with
    | Some conn => Some (m, [SendTo conn errorMsg], w)
    | None => Some (m, [], w)
    end
  | Some (None, responseMsg, g, w) =>
    let m := set_Game g m in
    let responseMsg :=
      models.set_MsgGameState (Some (game.GetState (Game m))) responseMsg in
    if game.IsGameOver (Game m) then
      let responseMsg := models.set_MsgType models.TypeGameOver responseMsg in
      Some (set_Broadcast (Broadcast m ++ [responseMsg]) m,
            [Log ("Game " +:+ ID m +:+ " is over. Winner: "
                  +:+ fmt_player (models.Players (game.state (Game m)))
                        (game.GetWinner (Game m)))],
            w)
    else Some (set_Broadcast (Broadcast m ++ [responseMsg]) m, [], w)
  end.

(** [CreateMatch]: the new match is registered, and is not made the
    waiting room. *)
Definition CreateMatch (h : list Match) (mm : MatchManager)
    (winningScore : Z) (w : World)
  : loc * list Match * MatchManager * list effect * World :=
  let '(state, w) := models.NewGameState winningScore w in
  let '(match_, w) := NewMatch (models.GameID state) winningScore w in
  let l := length h in
  (l, h ++ [match_],
   {| matches := <[ID match_ := l]> (matches mm);
      waitingRoom := waitingRoom mm |},
   [GoRun l; Log ("Created new match: " +:+ ID match_)], w).

(** [GetMatch]: the match and whether it exists, as an option. *)
Definition GetMatch (mm : MatchManager) (gameID : string) : option loc :=
  matches mm !! gameID.

(** [mm.waitingRoom != nil && mm.waitingRoom.ID == gameID]; [None] when
    the pointer dangles, which no Go pointer does. *)
Definition isWaitingRoom (h : list Match) (mm : MatchManager)
    (gameID : string) : option bool :=
  match waitingRoom mm with
  | None => Some false
  | Some l => room ← h !! l; Some (bool_decide (ID room = gameID))
  end.

(** The two assignments [RemoveMatch] and [CleanupInactiveMatches] make to
    drop the entry of [gameID]. *)
Definition dropMatch (h : list Match) (mm : MatchManager) (gameID : string)
  : option MatchManager :=
  wr ← isWaitingRoom h mm gameID;
  Some {| matches := delete gameID (matches mm);
          waitingRoom := if wr : bool then None else waitingRoom mm |}.

Definition RemoveMatch (h : list Match) (mm : MatchManager) (gameID : string)
  : option (MatchManager * list effect) :=
  mm ← dropMatch h mm gameID;
  Some (mm, [Log ("Removed match: " +:+ gameID)]).

(** [t.Sub(u)]: the difference as a duration, which saturates. *)
Definition time_Sub (t u : time) : Z :=
  Z.max int_min (Z.min int_max (t - u)).

(** The test of [CleanupInactiveMatches] on one match. *)
Definition inactive (now : time) (timeout : Z) (match_ : Match) : bool :=
  let lastActivity := LastActivityAt match_ in
  let playerCount := Z.of_nat (size (Players match_)) in
  let isGameOver := game.IsGameOver (Game match_) in
  bool_decide (timeout < time_Sub now lastActivity)
  || (isGameOver && bool_decide (playerCount = 0)).

(** The body of the loop of [CleanupInactiveMatches], on one entry of the
    map. *)
Definition cleanupEntry (h : list Match) (now : time) (timeout : Z)
    (acc : option (MatchManager * list effect)) (entry : string * loc)
  : option (MatchManager * list effect) :=
  let '(gameID, l) := entry in
  '(mm, effs) ← acc;
  match_ ← h !! l;
  if inactive now timeout match_ then
    mm ← dropMatch h mm gameID;
    Some (mm, effs ++ [Log ("Cleaned up inactive match: " +:+ gameID)])
  else Some (mm, effs).

(** [CleanupInactiveMatches].  The loop ranges over the entries the map
    has when it starts, here in the order of [map_to_list]; an entry is
    looked at once, and only its own key is deleted. *)
Definition CleanupInactiveMatches (h : list Match) (mm : MatchManager)
    (timeout : Z) (w : World)
  : option (MatchManager * list effect * World) :=
  let '(now, w) := time_Now w in
  r ← foldl (cleanupEntry h now timeout) (Some (mm, []))
        (map_to_list (matches mm));
  Some (r.1, r.2, w).


End server.

(** * Vocabulary of the properties *)
Module game_spec.

Import models game.

(** The participant at index [i] exists and is active. *)
Definition active (ps : list Player) (i : Z) : Prop :=
  ∃ p, index ps i = Some p ∧ IsActive p = true.

(** [cur'] is the first active participant met when scanning cyclically
    forward from the participant after [cur]; the scan may wrap around to
    [cur] itself. *)
Definition next_active (ps : list Player) (cur cur' : Z) : Prop :=
  ∃ k, 1 ≤ k ≤ len ps ∧ cur' = (cur + k) `mod` len ps ∧ active ps cur' ∧
       ∀ j, 1 ≤ j < k → ¬ active ps ((cur + j) `mod` len ps).

(** The operations of a session, as a client issues them. *)
Inductive op :=
  | OpAddPlayer (player : Player)
  | OpStart
  | OpRoll (playerID : string)
  | OpHold (playerID : string)
  | OpRemovePlayer (playerID : string).

(** The session after one operation, whatever it returned; [None] when the
    operation panics. *)
Definition apply_op (g : PigGame) (o : op) (now : time) : option PigGame :=
  match o with
  | OpAddPlayer player => Some (snd (AddPlayer g player now))
  | OpStart => Some (snd (Start g now))
  | OpRoll playerID => snd <$> Roll g playerID now
  | OpHold playerID => snd <$> Hold g playerID now
  | OpRemovePlayer playerID => snd <$> RemovePlayer g playerID now
  end.

Fixpoint run (ops : list (op * time)) (g : PigGame) : option PigGame :=
  match ops with
  | [] => Some g
  | (o, now) :: ops' => g' ← apply_op g o now; run ops' g'
  end.

(** The sessions reachable from a fresh one. *)
Inductive reachable : PigGame → Prop :=
  | reachable_new winningScore w :
      reachable (NewPigGame winningScore w).1
  | reachable_step g o now g' :
      reachable g → apply_op g o now = Some g' → reachable g'.

(** The number of participants whose active flag is set. *)
Definition active_count (ps : list Player) : nat :=
  length (filter (λ p, IsActive p = true) ps).

(** The state of [RemovePlayer] after the departure of the player at index
    [i] has been recorded and the end of the game checked, before the turn
    is looked at. *)
Definition departed (s : GameState) (i : nat) (player : Player) : GameState :=
  let s := set_Players (<[i := set_IsActive false player]> (Players s)) s in
  if decide (activeCount (Players s) ≤ 1 ∧ 1 < len (Players s)) then
    let s := set_IsGameOver true s in
    match firstActive (Players s) with
    | Some w => set_Winner (Some w) s
    | None => s
    end
  else s.

(** Sample participants and sessions. *)
Definition player (name id : string) : Player :=
  {| ID := id; Name := name; Score := 0; IsActive := true |}.

Definition alice : Player := player "Alice" "a".
Definition bob : Player := player "Bob" "b".
Definition carol : Player := player "Carol" "c".

(** [n] times the letter x: identifiers that never repeat. *)
Fixpoint xs (n : nat) : string :=
  match n with O => "" | S n => "x" +:+ xs n end.

(** A world whose generators draw the forfeit face first and a 5 next. *)
Definition w0 : World :=
  {| uuids := xs; uuid_next := 0; clock := Z.of_nat; clock_next := 0;
     rand_source := λ seed n, 6 * seed + 4 * Z.of_nat n |}.

Definition fresh (winningScore : Z) : PigGame := (NewPigGame winningScore w0).1.

Definition two_players : PigGame :=
  (AddPlayer (AddPlayer (fresh 20) alice 1).2 bob 2).2.

(** Alice holds the turn with 20 points pending, the target being 20. *)
Definition about_to_win : PigGame :=
  set_state (set_TurnScore 20 (state two_players)) two_players.

(** The session with its last-activity timestamp set to [now]. *)
Definition touch (now : time) (g : PigGame) : PigGame :=
  set_state (set_LastActivityAt now (state g)) g.

(** The session [two_players] after Alice has left: Bob has won. *)
Definition abandoned : PigGame :=
  match RemovePlayer two_players "a" 3 with
  | Some (_, g) => g
  | None => two_players
  end.

(** Three participants, target 5, played out: Alice rolls the forfeit
    face and leaves; Bob rolls a 5 and holds, which ends the game in his
    favour; Carol is the other participant still active. *)
Definition bob_wins : list (op * time) :=
  [(OpAddPlayer alice, 1); (OpAddPlayer bob, 2); (OpAddPlayer carol, 3);
   (OpRoll "a", 4); (OpRemovePlayer "a", 5); (OpRoll "b", 6); (OpHold "b", 7)].

Definition bob_won : PigGame := default (fresh 5) (run bob_wins (fresh 5)).

(** The invariant of the sessions in play. *)
Definition inv (s : GameState) : Prop :=
  len (Players s) ≤ 4 ∧
  (Winner s ≠ None → models.IsGameOver s = true) ∧
  (models.IsGameOver s = true → Winner s = None →
   ∀ j, ¬ active (Players s) j).

(** Alice joins a fresh session and leaves it. *)
Definition alice_deserts : list (op * time) :=
  [(OpAddPlayer alice, 1); (OpRemovePlayer "a", 2)].

Definition deserted : PigGame :=
  default (fresh 100) (run alice_deserts (fresh 100)).

(** ** Vocabulary of the invariants of a play *)

(** [p'] is the participant [p] later on: same identifier and name, and
    not active again once departed. *)
Definition same_person (p p' : Player) : Prop :=
  ID p' = ID p ∧ Name p' = Name p ∧ (IsActive p' = true → IsActive p = true).

(** The participants [ps'] are the participants [ps], each the same person
    at the same place, followed by at most one newcomer. *)
Definition grown (ps ps' : list Player) : Prop :=
  ∃ new, ps' = take (length ps) ps' ++ new ∧ (length new ≤ 1)%nat ∧
         Forall2 same_person ps (take (length ps) ps').

(** The turn index addresses a participant, or is zero without any. *)
Definition turn_valid (s : GameState) : Prop :=
  0 ≤ CurrentPlayer s < Z.max 1 (len (Players s)).

(** The operation lets only active participants in. *)
Definition joins_active (o : op) : Prop :=
  match o with
  | OpAddPlayer player => IsActive player = true
  | _ => True
  end.

(** The sessions reachable from a fresh one when every participant is
    active as it joins, which is how the server makes them. *)
Inductive in_play : PigGame → Prop :=
  | in_play_new winningScore w :
      in_play (NewPigGame winningScore w).1
  | in_play_step g o now g' :
      in_play g → joins_active o → apply_op g o now = Some g' → in_play g'.

(** In a session of three Alice rolls the forfeit face and Bob a 5. *)
Definition bob_rolls : list (op * time) :=
  [(OpAddPlayer alice, 1); (OpAddPlayer bob, 2); (OpAddPlayer carol, 3);
   (OpRoll "a", 4); (OpRoll "b", 5)].


(** The session [about_to_win] after Alice has held. *)
Definition alice_won : PigGame :=
  default about_to_win (apply_op about_to_win (OpHold "a") 3).

Definition bob_rolled : PigGame :=
  default (fresh 20) (run bob_rolls (fresh 20)).

(** Bob leaves with the points pending. *)
Definition bob_leaves : option error * PigGame :=
  default (None, bob_rolled) (RemovePlayer bob_rolled "b" 6).

Definition bob_left : PigGame := bob_leaves.2.


(** What every session in play satisfies: the identifiers of the
    participants are pairwise distinct, there are at most four of them, and
    the turn index is valid. *)
Definition safe (s : GameState) : Prop :=
  NoDup (ID <$> Players s) ∧ len (Players s) ≤ 4 ∧ turn_valid s.


(** While the session is not over and has participants, the participant
    who holds the turn is active. *)
Definition holder_active (s : GameState) : Prop :=
  models.IsGameOver s = false → Players s ≠ [] →
  active (Players s) (CurrentPlayer s).


(** The target is positive, and while the session is not over no
    participant has reached it. *)
Definition below_target (s : GameState) : Prop :=
  0 < WinningScore s ∧
  (models.IsGameOver s = false →
   Forall (λ p, Score p < WinningScore s) (Players s)).


(** The operation lets in only participants who are active and have no
    points, as the join handler of the server makes them. *)
Definition joins_fresh (o : op) : Prop :=
  match o with
  | OpAddPlayer player => IsActive player = true ∧ Score player = 0
  | _ => True
  end.


End game_spec.

(** * Vocabulary of the properties of the server *)
Module server_spec.

Import server.

(** The game refuses the participant of [conn]: it is over or full, or
    has a participant of that identifier already. *)
Definition refused (m : Match) (conn : PlayerConnection) : Prop :=
  let s := game.state (Game m) in
  models.IsGameOver s = true ∨
  4 ≤ len (models.Players s) ∨
  Exists (λ p, models.ID p = PlayerID conn) (models.Players s).

(** The handler sent [conn] a message of type error. *)
Definition error_sent (effs : list effect) (conn : PlayerConnection) : Prop :=
  ∃ msg, SendTo conn msg ∈ effs ∧ models.MsgType msg = models.TypeError.

(** [room], at [l], is the open session, is not started, and has fewer
    connections than its capacity. *)
Definition open (h : list Match) (mm : MatchManager) (l : loc) (room : Match)
  : Prop :=
  waitingRoom mm = Some l ∧ h !! l = Some room ∧
  IsStarted room = false ∧
  Z.of_nat (size (Players room)) < MaxPlayers room.

(** [room], at [l], is the open session, and has started or is full. *)
Definition closed (h : list Match) (mm : MatchManager) (l : loc) (room : Match)
  : Prop :=
  waitingRoom mm = Some l ∧ h !! l = Some room ∧
  (IsStarted room = true ∨ MaxPlayers room ≤ Z.of_nat (size (Players room))).

(** The manager after it has made [room], at [l], the open session. *)
Definition opened (mm : MatchManager) (l : loc) (room : Match) : MatchManager :=
  {| matches := <[ID room := l]> (matches mm); waitingRoom := Some l |}.

(** The identifier was drawn from the world before. *)
Definition issued (w : World) (id : string) : Prop :=
  ∃ k, (k < uuid_next w)%nat ∧ uuids w k = id.

(** Sample connections; [conn_a2] is a second connection with the
    identifier of Alice. *)
Definition conn_a : PlayerConnection :=
  {| PlayerID := "a"; PlayerName := "Alice"; GameID := ""; Send := 0 |}.
Definition conn_b : PlayerConnection :=
  {| PlayerID := "b"; PlayerName := "Bob"; GameID := ""; Send := 1 |}.
Definition conn_a2 : PlayerConnection :=
  {| PlayerID := "a"; PlayerName := "Alice"; GameID := ""; Send := 2 |}.
Definition conn_c : PlayerConnection :=
  {| PlayerID := "c"; PlayerName := "Carol"; GameID := ""; Send := 3 |}.
Definition conn_d : PlayerConnection :=
  {| PlayerID := "d"; PlayerName := "Dave"; GameID := ""; Send := 4 |}.
Definition conn_e : PlayerConnection :=
  {| PlayerID := "e"; PlayerName := "Eve"; GameID := ""; Send := 5 |}.

(** The connections [conns] join the match [m], one after the other. *)
Definition joins (conns : list PlayerConnection) (m : Match) (w : World)
  : Match * World :=
  foldl (λ '(m, w) conn, let '(m, _, w) := handleRegister m conn w in (m, w))
        (m, w) conns.

(** A match in the sample world that Alice and Bob have joined, and the
    same match after Carol and Dave have joined too: it is full. *)
Definition lobby : Match * World :=
  let '(m, w) := NewMatch "m" 20 game_spec.w0 in joins [conn_a; conn_b] m w.

Definition full_lobby : Match * World :=
  joins [conn_c; conn_d] lobby.1 lobby.2.

(** The sample server: the first call of [FindOrCreateMatch] creates a
    match, which Alice and Bob join, and which starts. *)
Definition first_match
  : option (loc * list Match * MatchManager * list effect * World) :=
  FindOrCreateMatch [] NewMatchManager 20 game_spec.w0.

Definition started : Match * World :=
  match first_match with
  | Some (_, [m], _, _, w) => joins [conn_a; conn_b] m w
  | _ => lobby
  end.

Definition started_mm : MatchManager :=
  opened NewMatchManager 0%nat started.1.

(** ** Vocabulary of the invariants of a match *)

(** A match just created in the sample world. *)
Definition empty_lobby : Match * World := NewMatch "m" 20 game_spec.w0.

(** The events the actor of a match handles; [Deliver] is the receipt of
    the message at the head of the broadcast queue, which the loop passes
    on to the connections. *)
Inductive event :=
  | Join (conn : PlayerConnection)
  | Leave (conn : PlayerConnection)
  | Act (action : models.PlayerAction)
  | Deliver.

(** The match after the actor has handled the event; [None] when the
    handler panics. *)
Definition handle (m : Match) (ev : event) (w : World)
  : option (Match * World) :=
  match ev with
  | Join conn => let '(m, _, w) := handleRegister m conn w in Some (m, w)
  | Leave conn => '(m, _, _, w) ← handleUnregister m conn w; Some (m, w)
  | Act action => '(m, _, w) ← handlePlayerAction m action w; Some (m, w)
  | Deliver => Some (set_Broadcast (tail (Broadcast m)) m, w)
  end.

(** The matches an actor can find itself with. *)
Inductive match_reachable : Match → Prop :=
  | match_reachable_new gameID winningScore w :
      match_reachable (NewMatch gameID winningScore w).1
  | match_reachable_step m ev w m' w' :
      match_reachable m → handle m ev w = Some (m', w') →
      match_reachable m'.

(** The participants of the game of the match. *)
Definition participants (m : Match) : list models.Player :=
  models.Players (game.state (Game m)).

(** Every connection is registered under its identifier, and belongs to a
    participant of the game who is active. *)
Definition connections_play (m : Match) : Prop :=
  ∀ id c, Players m !! id = Some c →
    PlayerID c = id ∧
    ∃ (j : nat) p, participants m !! j = Some p ∧ models.ID p = id ∧
                   models.IsActive p = true.

(** The invariant of the matches. *)
Definition match_inv (m : Match) : Prop :=
  MaxPlayers m = 4 ∧
  game_spec.in_play (Game m) ∧
  connections_play m ∧
  IsStarted m = bool_decide (2 ≤ len (participants m)).

(** The participant the join handler makes of a connection. *)
Definition player_of (conn : PlayerConnection) : models.Player :=
  {| models.ID := PlayerID conn; models.Name := PlayerName conn;
     models.Score := 0; models.IsActive := true |}.


(** The game refuses every action of the participant with this error. *)
Definition rejects (g : game.PigGame) (playerID : string) (err : game.error)
  : Prop :=
  ∀ now, game.Roll g playerID now = Some ((0, Some err), g) ∧
         game.Hold g playerID now = Some (Some err, g).

(** The verb of the action is one the actor knows. *)
Definition known (action : models.PlayerAction) : Prop :=
  models.Action action = models.ActionRoll ∨
  models.Action action = models.ActionHold.


(** Sample actions on the sample match, where Alice holds the turn: Bob
    rolls out of turn, Alice holds. *)
Definition roll_b : models.PlayerAction :=
  {| models.PlayerID := "b"; models.Action := models.ActionRoll |}.

Definition hold_a : models.PlayerAction :=
  {| models.PlayerID := "a"; models.Action := models.ActionHold |}.

Definition alice_holds : option game.error * game.PigGame :=
  default (None, Game lobby.1)
    (game.Hold (Game lobby.1) "a" (clock lobby.2 (S (S (clock_next lobby.2))))).


(** The game accepts the action at the time [now] and is [g'] afterwards;
    [data] is what the reply tells of the action. *)
Definition accepts (g : game.PigGame) (action : models.PlayerAction)
    (now : time) (g' : game.PigGame) (data : gmap string string) : Prop :=
  (models.Action action = models.ActionRoll ∧
   ∃ roll,
     game.Roll g (models.PlayerID action) now = Some ((roll, None), g') ∧
     data = <["action" := "roll"]> (<["roll" := pretty roll]> ∅)) ∨
  (models.Action action = models.ActionHold ∧
   game.Hold g (models.PlayerID action) now = Some (None, g') ∧
   data = <["action" := "hold"]> ∅).


(** Bob leaves the sample match: what [RemovePlayer] answers to the leave
    handler, and what the handler returns. *)
Definition bob_quits : option game.error * game.PigGame :=
  default (None, Game lobby.1)
    (game.RemovePlayer (Game lobby.1) "b" (clock lobby.2 (S (clock_next lobby.2)))).

Definition bob_gone : Match * list effect * list nat * World :=
  default (lobby.1, [], [], lobby.2) (handleUnregister lobby.1 conn_b lobby.2).


(** ** Vocabulary of the properties of the manager *)

(** The matches the manager points to are on the heap. *)
Definition on_heap (h : list Match) (mm : MatchManager) : Prop :=
  (∀ id l, matches mm !! id = Some l → is_Some (h !! l)) ∧
  (∀ l, waitingRoom mm = Some l → is_Some (h !! l)).

(** One of the entries registers under [id] a match the cleanup finds
    inactive. *)
Definition stale (h : list Match) (now : time) (timeout : Z)
    (entries : list (string * loc)) (id : string) : Prop :=
  ∃ l room, (id, l) ∈ entries ∧ h !! l = Some room ∧
            inactive now timeout room = true.

(** The match the manager registers under [id] is one the cleanup finds
    inactive. *)
Definition expired (h : list Match) (mm : MatchManager) (now : time)
    (timeout : Z) (id : string) : Prop :=
  ∃ l room, matches mm !! id = Some l ∧ h !! l = Some room ∧
            inactive now timeout room = true.


(** One step of the server: a method of the manager, or the actor of a
    match on the heap handling an event. *)
Inductive server_step (h : list Match) (mm : MatchManager)
  : list Match → MatchManager → Prop :=
  | step_FindOrCreateMatch winningScore w l h' mm' effs w' :
      FindOrCreateMatch h mm winningScore w = Some (l, h', mm', effs, w') →
      server_step h mm h' mm'
  | step_CreateMatch winningScore w l h' mm' effs w' :
      CreateMatch h mm winningScore w = (l, h', mm', effs, w') →
      server_step h mm h' mm'
  | step_RemoveMatch gameID mm' effs :
      RemoveMatch h mm gameID = Some (mm', effs) →
      server_step h mm h mm'
  | step_CleanupInactiveMatches timeout w mm' effs w' :
      CleanupInactiveMatches h mm timeout w = Some (mm', effs, w') →
      server_step h mm h mm'
  | step_actor l m ev w m' w' :
      h !! l = Some m → handle m ev w = Some (m', w') →
      server_step h mm (<[l := m']> h) mm.

(** The heaps and managers of a server that starts with the empty
    manager. *)
Inductive server_reachable : list Match → MatchManager → Prop :=
  | server_start : server_reachable [] NewMatchManager
  | server_next h mm h' mm' :
      server_reachable h mm → server_step h mm h' mm' →
      server_reachable h' mm'.

(** Every match on the heap is one an actor can find itself with, every
    registered match is on the heap under its own identifier, and the
    waiting room is on the heap. *)
Definition well_registered (h : list Match) (mm : MatchManager) : Prop :=
  Forall match_reachable h ∧
  (∀ id l, matches mm !! id = Some l →
           ∃ room, h !! l = Some room ∧ ID room = id) ∧
  (∀ l, waitingRoom mm = Some l → is_Some (h !! l)).

(** The sample server after one call of [CreateMatch]. *)
Definition created : loc * list Match * MatchManager * list effect * World :=
  CreateMatch [] NewMatchManager 20 game_spec.w0.


(** [m'] is the match [m] after its actor has handled some events. *)
Inductive match_later (m : Match) : Match → Prop :=
  | match_later_now : match_later m m
  | match_later_step m1 ev w m2 w2 :
      match_later m m1 → handle m1 ev w = Some (m2, w2) →
      match_later m m2.

(** The game has a participant of this identifier, who has left. *)
Definition has_left (m : Match) (id : string) : Prop :=
  ∃ (j : nat) p, participants m !! j = Some p ∧ models.ID p = id ∧
                 models.IsActive p = false.


End server_spec.

(** * Properties of the session state machine *)
Module game_props.

Import models game game_spec.

(** ** Go integers and slices *)

Lemma int_add_exact a b : is_int (a + b) → int_add a b = a + b.
Proof.
  unfold is_int, int_add, int_wrap, int_min, int_max. intros H.
  rewrite Z.mod_small; lia.
Qed.

Lemma index_Some {A} (s : list A) i x :
  index s i = Some x ↔ 0 ≤ i ∧ s !! Z.to_nat i = Some x.
Proof. unfold index. case_decide; [tauto|]. split; [done|lia]. Qed.

Lemma index_lt {A} (s : list A) i x : index s i = Some x → 0 ≤ i < len s.
Proof.
  intros [? H%lookup_lt_Some]%index_Some. unfold len. lia.
Qed.

Lemma index_of_nat {A} (s : list A) (i : nat) : index s (Z.of_nat i) = s !! i.
Proof. unfold index. case_decide; [by rewrite Nat2Z.id | lia]. Qed.

Lemma index_is_Some {A} (s : list A) i : 0 ≤ i < len s → is_Some (index s i).
Proof.
  intros H. unfold index, len in *. case_decide; [|lia].
  apply lookup_lt_is_Some. lia.
Qed.

(** ** The turn-advance scan *)

Lemma set_CurrentPlayer_same s : set_CurrentPlayer (CurrentPlayer s) s = s.
Proof. by destruct s. Qed.

Lemma scan_step (start i n : Z) :
  0 < n → n ≤ int_max → 0 ≤ start → 0 ≤ i →
  int_rem (int_add ((start + i) `mod` n) 1) n = (start + (i + 1)) `mod` n.
Proof.
  intros Hn Hmax Hs Hi.
  pose proof (Z.mod_pos_bound (start + i) n Hn) as Hb.
  rewrite int_add_exact by (unfold is_int, int_min, int_max in *; lia).
  unfold int_rem. rewrite Z.rem_mod_nonneg by lia.
  rewrite Zplus_mod_idemp_l. f_equal. lia.
Qed.

Lemma nextTurn_loop_S k i startIdx s :
  nextTurn_loop (S k) i startIdx s =
  let c := int_rem (int_add (CurrentPlayer s) 1) (len (Players s)) in
  match index (Players s) c with
  | None => None
  | Some p =>
    if IsActive p then Some (false, set_CurrentPlayer c s)
    else if decide (c = startIdx ∧ i = len (Players s) - 1)
    then Some (true, set_IsGameOver true (set_CurrentPlayer c s))
    else nextTurn_loop k (i + 1) startIdx (set_CurrentPlayer c s)
  end.
Proof. reflexivity. Qed.

Lemma nextTurn_loop_spec k : ∀ i s start,
  let ps := Players s in
  Z.of_nat (S k) + i = len ps → 0 ≤ i → 0 ≤ start < len ps →
  len ps ≤ int_max →
  CurrentPlayer s = (start + i) `mod` len ps →
  (∀ j, 1 ≤ j ≤ i → ¬ active ps ((start + j) `mod` len ps)) →
  (∃ c, nextTurn_loop (S k) i start s = Some (false, set_CurrentPlayer c s) ∧
        next_active ps start c) ∨
  (nextTurn_loop (S k) i start s
     = Some (true, set_IsGameOver true (set_CurrentPlayer start s)) ∧
   ∀ j, ¬ active ps j).
Proof.
  induction k as [|k IH]; intros i s start ps Hk Hi Hstart Hmax Hcur Hin.
  - (* last iteration: the scan is back at [startIdx] *)
    assert (i = len ps - 1) as Hi' by lia.
    rewrite nextTurn_loop_S. cbv zeta. fold ps. rewrite Hcur, scan_step by lia.
    assert ((start + (i + 1)) `mod` len ps = start) as Hwrap.
    { replace (start + (i + 1)) with (start + 1 * len ps) by lia.
      rewrite Z_mod_plus_full. apply Z.mod_small. lia. }
    rewrite Hwrap.
    destruct (index_is_Some ps start Hstart) as [p Hp]. rewrite Hp.
    destruct (IsActive p) eqn:Hact.
    + left. exists start. split; [done|].
      exists (len ps). split; [lia|]. split.
      { replace (start + len ps) with (start + 1 * len ps) by lia.
        rewrite Z_mod_plus_full. symmetry. apply Z.mod_small. lia. }
      split; [by exists p|]. intros j Hj. apply Hin. lia.
    + right. rewrite decide_True by (split; [done|lia]). split; [done|].
      intros j [q [Hq Hq']].
      pose proof (index_lt _ _ _ Hq) as Hj.
      destruct (decide (j = start)) as [->|Hne]; [congruence|].
      apply (Hin ((j - start) `mod` len ps)).
      * pose proof (Z.mod_pos_bound (j - start) (len ps)).
        assert ((j - start) `mod` len ps ≠ 0); [|lia].
        intros H0. apply Z.mod_divide in H0; [|lia].
        destruct H0 as [m Hm]. assert (-1 < m < 1) by nia. nia.
      * rewrite Zplus_mod_idemp_r. replace (start + (j - start)) with j by lia.
        rewrite Z.mod_small by lia. by exists q.
  - (* an iteration before the last *)
    rewrite nextTurn_loop_S. cbv zeta. fold ps. rewrite Hcur, scan_step by lia.
    set (c := (start + (i + 1)) `mod` len ps).
    assert (0 ≤ c < len ps) as Hc by (apply Z.mod_pos_bound; lia).
    destruct (index_is_Some ps c Hc) as [p Hp]. rewrite Hp.
    destruct (IsActive p) eqn:Hact.
    + left. exists c. split; [done|].
      exists (i + 1). split; [lia|]. split; [done|].
      split; [by exists p|]. intros j Hj. apply Hin. lia.
    + rewrite decide_False by lia.
      destruct (IH (i + 1) (set_CurrentPlayer c s) start) as [[c' [E N]]|[E N]];
        cbn [Players CurrentPlayer set_CurrentPlayer]; fold ps;
        try done; try lia.
      * intros j Hj. destruct (decide (j = i + 1)) as [->|].
        -- fold c. intros [q [Hq Hq']]. congruence.
        -- apply Hin. lia.
      * left. exists c'. by rewrite E.
      * right. by rewrite E.
Qed.

(** [nextTurn] from a valid turn index: either the turn moves to the next
    active participant and the last roll is cleared, or nobody is active
    and the session is forced over, everything else unchanged. *)
Lemma nextTurn_spec s :
  0 ≤ CurrentPlayer s < len (Players s) → len (Players s) ≤ int_max →
  (∃ c, nextTurn s = Some (set_LastRoll 0 (set_CurrentPlayer c s)) ∧
        next_active (Players s) (CurrentPlayer s) c) ∨
  (nextTurn s = Some (set_IsGameOver true s) ∧ ∀ j, ¬ active (Players s) j).
Proof.
  intros Hcur Hmax. unfold nextTurn.
  rewrite decide_False by lia.
  assert (∃ k, length (Players s) = S k) as [k Hk].
  { unfold len in Hcur. destruct (length (Players s)); [lia|eauto]. }
  rewrite Hk.
  destruct (nextTurn_loop_spec k 0 s (CurrentPlayer s)) as [[c [E N]]|[E N]];
    [ unfold len; lia | lia | done | done
    | rewrite Z.add_0_r, Z.mod_small; lia | intros j Hj; lia | | ].
  - left. exists c. by rewrite E.
  - right. by rewrite E, set_CurrentPlayer_same.
Qed.

(** ** Roll *)

Lemma Intn_range r n : 0 < n → 0 ≤ (rand.Intn r n).1 < n.
Proof. intros Hn. cbn. by apply Z.mod_pos_bound. Qed.

Lemma active_here ps i p :
  index ps i = Some p → IsActive p = true → active ps i.
Proof. intros. by exists p. Qed.

(** The scan of [nextTurn] cannot come back empty-handed when somebody is
    active. *)
Lemma nextTurn_active s j :
  0 ≤ CurrentPlayer s < len (Players s) → len (Players s) ≤ int_max →
  active (Players s) j →
  ∃ c, nextTurn s = Some (set_LastRoll 0 (set_CurrentPlayer c s)) ∧
       next_active (Players s) (CurrentPlayer s) c.
Proof.
  intros Hcur Hmax Hj.
  destruct (nextTurn_spec s Hcur Hmax) as [?|[_ Hnone]]; [done|].
  by destruct (Hnone j).
Qed.

(** C1. In a session with at least two participants that is not over and
    whose current-turn participant [p] is active, [Roll] for [p] returns
    the drawn die value [v], between 1 and 6.  When [v] is the forfeit face
    1, the turn accumulator becomes zero and the turn moves to the next
    active participant; otherwise [v] is added to the accumulator, which
    grows by exactly [v] unless the sum leaves the range of [int], and the
    current-turn index stays. *)
Theorem Roll_current_active (g : PigGame) (p : Player) (now : time) :
  let s := state g in
  len (Players s) ≤ int_max →
  2 ≤ len (Players s) →
  models.IsGameOver s = false →
  index (Players s) (CurrentPlayer s) = Some p →
  IsActive p = true →
  ∃ v g',
    Roll g (ID p) now = Some ((v, None), g') ∧
    v = (rand.Intn (rng g) 6).1 + 1 ∧
    1 ≤ v ≤ 6 ∧
    Players (state g') = Players s ∧
    (v = 1 →
       TurnScore (state g') = 0 ∧
       next_active (Players s) (CurrentPlayer s) (CurrentPlayer (state g'))) ∧
    (v ≠ 1 →
       TurnScore (state g') = int_add (TurnScore s) v ∧
       (is_int (TurnScore s + v) → TurnScore (state g') = TurnScore s + v) ∧
       CurrentPlayer (state g') = CurrentPlayer s).
Proof.
  intros s Hlen H2 Hover Hp Hact.
  pose proof (Intn_range (rng g) 6 ltac:(lia)) as Hd.
  pose proof (index_lt _ _ _ Hp) as Hcur.
  unfold Roll. fold s. rewrite Hover, decide_False by lia.
  rewrite Hp. cbn [mbind option_bind].
  rewrite decide_False by (intros H; by apply H).
  rewrite Hact. cbn [negb].
  destruct (rand.Intn (rng g) 6) as [d r] eqn:Hdraw. cbn [fst] in Hd.
  assert (int_add d 1 = d + 1) as Hroll.
  { apply int_add_exact. unfold is_int, int_min, int_max. lia. }
  rewrite Hroll.
  destruct (decide (d + 1 = 1)) as [H1|H1].
  - set (s1 := set_TurnScore 0 _).
    destruct (nextTurn_active s1 (CurrentPlayer s)) as [c [E N]];
      [done | done | by eapply active_here |].
    rewrite E. cbn [mbind option_bind].
    eexists _, _. split; [done|]. cbn. repeat split; try lia; try done.
  - cbn [mbind option_bind].
    eexists _, _. split; [done|]. cbn. repeat split; try lia; try done.
    apply int_add_exact.
Qed.

Lemma Roll_current_active_witness :
  ∃ v g',
    Roll two_players "a" 3 = Some ((v, None), g') ∧
    v = (rand.Intn (rng two_players) 6).1 + 1 ∧
    1 ≤ v ≤ 6 ∧
    Players (state g') = Players (state two_players) ∧
    (v = 1 →
       TurnScore (state g') = 0 ∧
       next_active (Players (state two_players))
         (CurrentPlayer (state two_players)) (CurrentPlayer (state g'))) ∧
    (v ≠ 1 →
       TurnScore (state g') = int_add (TurnScore (state two_players)) v ∧
       (is_int (TurnScore (state two_players) + v) →
        TurnScore (state g') = TurnScore (state two_players) + v) ∧
       CurrentPlayer (state g') = CurrentPlayer (state two_players)).
Proof.
  apply (Roll_current_active two_players alice 3).
  - by lazy.
  - by lazy.
  - reflexivity.
  - reflexivity.
  - reflexivity.
Defined.

(** ** RemovePlayer *)

Lemma RemovePlayer_unfold g playerID now :
  RemovePlayer g playerID now =
  match list_find (λ p, ID p = playerID) (Players (state g)) with
  | None => Some (Some ErrInvalidPlayer, g)
  | Some (i, player) =>
    let d := departed (state g) i player in
    s ← (if decide (Z.of_nat i = CurrentPlayer d) then nextTurn d else Some d);
    Some (None, set_state (set_LastActivityAt now s) g)
  end.
Proof.
  unfold RemovePlayer, departed.
  destruct (list_find _ _) as [[i player]|]; [|done].
  cbv zeta. by repeat case_decide.
Qed.

Lemma departed_Players s i player :
  Players (departed s i player) = <[i := set_IsActive false player]> (Players s).
Proof.
  unfold departed. cbv zeta. case_decide; [|done].
  by destruct (firstActive _).
Qed.

Lemma departed_CurrentPlayer s i player :
  CurrentPlayer (departed s i player) = CurrentPlayer s.
Proof.
  unfold departed. cbv zeta. case_decide; [|done].
  by destruct (firstActive _).
Qed.

Lemma departed_len s i player :
  len (Players (departed s i player)) = len (Players s).
Proof. rewrite departed_Players. unfold len. by rewrite length_insert. Qed.

Lemma departed_over s i player :
  models.IsGameOver s = true → models.IsGameOver (departed s i player) = true.
Proof.
  intros H. unfold departed. cbv zeta. case_decide; [|done].
  by destruct (firstActive _).
Qed.

(** The three ways [RemovePlayer] ends when the participant is found: the
    turn was somebody else's; the turn moves on to the next active
    participant; nobody is active any more. *)
Lemma RemovePlayer_found g playerID now i player :
  len (Players (state g)) ≤ int_max →
  list_find (λ p, ID p = playerID) (Players (state g)) = Some (i, player) →
  let d := departed (state g) i player in
  (Z.of_nat i ≠ CurrentPlayer (state g) ∧
   RemovePlayer g playerID now
     = Some (None, set_state (set_LastActivityAt now d) g)) ∨
  (Z.of_nat i = CurrentPlayer (state g) ∧
   ∃ c, next_active (Players d) (CurrentPlayer (state g)) c ∧
     RemovePlayer g playerID now
       = Some (None, set_state (set_LastActivityAt now
                       (set_LastRoll 0 (set_CurrentPlayer c d))) g)) ∨
  (Z.of_nat i = CurrentPlayer (state g) ∧
   (∀ j, ¬ active (Players d) j) ∧
   RemovePlayer g playerID now
     = Some (None, set_state (set_LastActivityAt now
                     (set_IsGameOver true d)) g)).
Proof.
  intros Hmax Hfind d. rewrite RemovePlayer_unfold, Hfind. cbv zeta. fold d.
  pose proof (departed_CurrentPlayer (state g) i player) as Hc. fold d in Hc.
  pose proof (departed_len (state g) i player) as Hl. fold d in Hl.
  rewrite Hc. case_decide as Hi; [|by left]. right.
  apply list_find_Some in Hfind as (Hlk%lookup_lt_Some & _).
  destruct (nextTurn_spec d) as [[c [E N]]|[E N]].
  - rewrite Hc, Hl, <- Hi. unfold len. lia.
  - by rewrite Hl.
  - left. split; [done|]. exists c. rewrite Hc in N. by rewrite E.
  - right. by rewrite E.
Qed.

Lemma RemovePlayer_absent g playerID now :
  Forall (λ p, ID p ≠ playerID) (Players (state g)) →
  RemovePlayer g playerID now = Some (Some ErrInvalidPlayer, g).
Proof.
  intros H. rewrite RemovePlayer_unfold.
  by rewrite (proj2 (list_find_None (λ p, ID p = playerID) _) H).
Qed.

(** ** A session that is over stays over *)

Lemma apply_op_over g o now :
  len (Players (state g)) ≤ int_max →
  models.IsGameOver (state g) = true →
  ∃ g', apply_op g o now = Some g' ∧
        models.IsGameOver (state g') = true ∧
        len (Players (state g')) = len (Players (state g)).
Proof.
  intros Hmax Hover. destruct o as [player| |playerID|playerID|playerID]; cbn.
  - exists g. unfold AddPlayer. by rewrite Hover.
  - exists g. unfold Start. rewrite Hover. by case_decide.
  - exists g. unfold Roll. by rewrite Hover.
  - exists g. unfold Hold. by rewrite Hover.
  - destruct (list_find (λ p, ID p = playerID) (Players (state g)))
      as [[i player]|] eqn:Hfind.
    + pose proof (departed_over (state g) i player Hover) as Hd.
      pose proof (departed_len (state g) i player) as Hl.
      destruct (RemovePlayer_found g playerID now i player Hmax Hfind)
        as [[_ ->]|[[_ [c [_ ->]]]|[_ [_ ->]]]]; eexists; done.
    + rewrite RemovePlayer_unfold, Hfind. by exists g.
Qed.

Lemma run_over ops : ∀ g,
  len (Players (state g)) ≤ int_max →
  models.IsGameOver (state g) = true →
  ∃ g', run ops g = Some g' ∧ models.IsGameOver (state g') = true.
Proof.
  induction ops as [|[o now] ops IH]; intros g Hmax Hover; [by exists g|].
  destruct (apply_op_over g o now Hmax Hover) as (g1 & E & Hover1 & Hl).
  cbn. rewrite E. cbn. apply IH; [lia|done].
Qed.

(** ** Hold *)

(** C2. In a started session (two participants or more) that is not over
    and whose current-turn participant [p] is active, [Hold] for [p] adds
    the turn accumulator to the total of [p], exactly unless the sum leaves
    the range of [int], and zeroes the accumulator.  When the new total
    reaches the target score the session is over with [p] as winner, the
    turn index stays, and after any further operations every [Roll] and
    [Hold], by anybody, fails with [ErrGameOver] and changes nothing;
    otherwise the session is not over and the turn moves to the next active
    participant. *)
Theorem Hold_current_active (g : PigGame) (p : Player) (now : time) :
  let s := state g in
  let total := int_add (Score p) (TurnScore s) in
  len (Players s) ≤ int_max →
  2 ≤ len (Players s) →
  models.IsGameOver s = false →
  index (Players s) (CurrentPlayer s) = Some p →
  IsActive p = true →
  ∃ g',
    Hold g (ID p) now = Some (None, g') ∧
    (is_int (Score p + TurnScore s) → total = Score p + TurnScore s) ∧
    Players (state g')
      = <[Z.to_nat (CurrentPlayer s) := set_Score total p]> (Players s) ∧
    TurnScore (state g') = 0 ∧
    (WinningScore s ≤ total →
       models.IsGameOver (state g') = true ∧
       Winner (state g') = Some (Z.to_nat (CurrentPlayer s)) ∧
       CurrentPlayer (state g') = CurrentPlayer s ∧
       ∀ ops, ∃ g'',
         run ops g' = Some g'' ∧
         ∀ playerID t,
           Roll g'' playerID t = Some ((0, Some ErrGameOver), g'') ∧
           Hold g'' playerID t = Some (Some ErrGameOver, g'')) ∧
    (total < WinningScore s →
       models.IsGameOver (state g') = false ∧
       Winner (state g') = Winner s ∧
       next_active (Players (state g')) (CurrentPlayer s)
         (CurrentPlayer (state g'))).
Proof.
  intros s total Hlen H2 Hover Hp Hact.
  pose proof (index_lt _ _ _ Hp) as Hcur.
  unfold Hold. fold s. rewrite Hover, decide_False by lia.
  rewrite Hp. cbn [mbind option_bind].
  rewrite decide_False by (intros H; by apply H).
  rewrite Hact. cbn [negb]. cbv zeta. fold total.
  cbn [WinningScore Score set_Score set_LastActivityAt set_Players].
  set (p' := set_Score total p).
  set (ps' := <[Z.to_nat (CurrentPlayer s) := p']> (Players s)).
  assert (len ps' = len (Players s)) as Hlen'.
  { unfold ps', len. by rewrite length_insert. }
  case_decide as Hwin.
  - eexists. split; [done|]. split; [apply int_add_exact|].
    cbn. repeat split; try done; try lia.
    intros ops.
    match goal with |- ∃ g'', run ops ?g1 = _ ∧ _ =>
      destruct (run_over ops g1) as (g'' & E & Hover'') end.
    { cbn. fold ps'. lia. }
    { done. }
    exists g''. split; [done|]. intros playerID t.
    unfold Roll, Hold. by rewrite Hover''.
  - set (s1 := set_TurnScore 0 _).
    assert (index ps' (CurrentPlayer s) = Some p') as Hp'.
    { apply index_Some. split; [lia|]. apply list_lookup_insert_eq.
      apply index_Some in Hp as [_ Hp]. by apply lookup_lt_Some in Hp. }
    destruct (nextTurn_active s1 (CurrentPlayer s)) as [c [E N]].
    { cbn. fold ps'. lia. }
    { cbn. fold ps'. lia. }
    { cbn. fold ps'. by eapply active_here. }
    rewrite E. cbn [mbind option_bind].
    eexists. split; [done|]. split; [apply int_add_exact|].
    cbn. fold ps'. repeat split; try done; lia.
Qed.

Lemma Hold_current_active_witness :
  ∃ g',
    Hold about_to_win "a" 3 = Some (None, g') ∧
    Players (state g') = [set_Score 20 alice; bob] ∧
    models.IsGameOver (state g') = true ∧
    Winner (state g') = Some 0%nat ∧
    Roll g' "b" 4 = Some ((0, Some ErrGameOver), g').
Proof.
  destruct (Hold_current_active about_to_win alice 3)
    as (g' & E & _ & Hps & _ & Hwin & _).
  - by lazy.
  - by lazy.
  - reflexivity.
  - reflexivity.
  - reflexivity.
  - destruct Hwin as (Hover & Hw & _ & Hlater); [by lazy|].
    destruct (Hlater []) as (g'' & Hrun & Hfail).
    injection Hrun as <-.
    exists g'. repeat split; [exact E | exact Hps | exact Hover | exact Hw |].
    apply Hfail.
Defined.

(** ** Counting the active participants *)

Lemma activeCount_foldl ps : ∀ c,
  foldl (λ c p, if IsActive p then c + 1 else c) c ps
  = c + Z.of_nat (active_count ps).
Proof.
  unfold active_count.
  induction ps as [|p ps IH]; intros c; cbn [foldl]; [cbn; lia|].
  rewrite IH. rewrite filter_cons. destruct (IsActive p) eqn:Hp.
  - rewrite decide_True by done. cbn [length]. lia.
  - rewrite decide_False by congruence. lia.
Qed.

Lemma activeCount_count ps : activeCount ps = Z.of_nat (active_count ps).
Proof. unfold activeCount. by rewrite activeCount_foldl. Qed.

Lemma active_nat ps (j : nat) :
  active ps (Z.of_nat j) ↔ ∃ q, ps !! j = Some q ∧ IsActive q = true.
Proof. unfold active. by setoid_rewrite index_of_nat. Qed.

Lemma active_count_cons p ps :
  active_count (p :: ps)
  = ((if IsActive p then 1 else 0) + active_count ps)%nat.
Proof.
  unfold active_count. rewrite filter_cons. destruct (IsActive p).
  - by rewrite decide_True.
  - by rewrite decide_False.
Qed.

Lemma active_count_pos ps (j : nat) :
  active ps (Z.of_nat j) → (1 ≤ active_count ps)%nat.
Proof.
  rewrite active_nat. intros (q & Hq & Hact). revert j Hq.
  induction ps as [|p ps IH]; intros [|j] Hq; try done;
    rewrite active_count_cons.
  - injection Hq as ->. rewrite Hact. lia.
  - specialize (IH j Hq). lia.
Qed.

Lemma active_S p ps (j : nat) :
  active (p :: ps) (Z.of_nat (S j)) ↔ active ps (Z.of_nat j).
Proof. by rewrite !active_nat. Qed.

(** With at most one active participant, two active indices coincide. *)
Lemma active_count_unique ps : ∀ j1 j2 : nat,
  (active_count ps ≤ 1)%nat →
  active ps (Z.of_nat j1) → active ps (Z.of_nat j2) → j1 = j2.
Proof.
  induction ps as [|p ps IH]; intros j1 j2 Hle H1 H2.
  { apply active_nat in H1 as (? & ? & _). done. }
  rewrite active_count_cons in Hle.
  destruct j1 as [|j1], j2 as [|j2]; [done| | |].
  - apply active_nat in H1 as (q & [= ->] & Hq). rewrite Hq in Hle.
    apply active_S, active_count_pos in H2. lia.
  - apply active_nat in H2 as (q & [= ->] & Hq). rewrite Hq in Hle.
    apply active_S, active_count_pos in H1. lia.
  - f_equal. apply IH; [lia | by apply active_S in H1 | by apply active_S in H2].
Qed.

Lemma firstActive_Some ps w :
  firstActive ps = Some w → active ps (Z.of_nat w).
Proof.
  unfold firstActive.
  destruct (list_find _ ps) as [[i q]|] eqn:Hfind; [|done].
  intros [= <-]. apply list_find_Some in Hfind as (? & ? & _).
  apply active_nat. by exists q.
Qed.

Lemma firstActive_None ps j : firstActive ps = None → ¬ active ps j.
Proof.
  unfold firstActive.
  destruct (list_find _ ps) as [[i q]|] eqn:Hfind; [done|]. intros _.
  apply list_find_None in Hfind. intros (q & Hq & Hact).
  apply index_Some in Hq as [_ Hq].
  by apply (Forall_lookup_1 _ _ _ _ Hfind Hq).
Qed.

(** The end-of-game check of [RemovePlayer]: with at most one participant
    still active among two or more, the session is over; the participant
    still active, if any, is the winner, and the winner is left alone
    otherwise. *)
Lemma departed_ends s i player :
  let d := departed s i player in
  (active_count (Players d) ≤ 1)%nat → 2 ≤ len (Players d) →
  models.IsGameOver d = true ∧
  (∀ w : nat, active (Players d) (Z.of_nat w) → Winner d = Some w) ∧
  ((∀ j, ¬ active (Players d) j) → Winner d = Winner s).
Proof.
  intros d. pose proof (departed_Players s i player) as HP. fold d in HP.
  rewrite HP. clear HP.
  intros Hcount Hlen. unfold d, departed. cbv zeta.
  cbn [Players set_Players]. rewrite activeCount_count.
  rewrite decide_True by lia.
  set (ps' := <[i:=set_IsActive false player]> (Players s)) in *.
  cbn [Players set_Players set_IsGameOver].
  destruct (firstActive ps') as [w|] eqn:Hw; cbn; (split; [done|]); split.
  - intros w' Hw'. f_equal.
    eapply active_count_unique; eauto using firstActive_Some.
  - intros Hnone. destruct (Hnone _ (firstActive_Some _ _ Hw)).
  - intros w' Hw'. by destruct (firstActive_None ps' (Z.of_nat w') Hw).
  - done.
Qed.

(** What [RemovePlayer] does for a participant that is there. *)
Lemma RemovePlayer_present (g : PigGame) (playerID : string) (now : time)
    (i : nat) (p : Player) :
  let s := state g in
  len (Players s) ≤ int_max →
  Players s !! i = Some p → ID p = playerID →
  (∀ (j : nat) q, Players s !! j = Some q → (j < i)%nat → ID q ≠ playerID) →
  ∃ g',
    RemovePlayer g playerID now = Some (None, g') ∧
    let s' := state g' in
    Players s' = <[i := set_IsActive false p]> (Players s) ∧
    (Z.of_nat i = CurrentPlayer s →
       next_active (Players s') (CurrentPlayer s) (CurrentPlayer s') ∨
       ((∀ j, ¬ active (Players s') j) ∧
        models.IsGameOver s' = true ∧
        CurrentPlayer s' = CurrentPlayer s)) ∧
    (Z.of_nat i ≠ CurrentPlayer s → CurrentPlayer s' = CurrentPlayer s) ∧
    ((active_count (Players s') ≤ 1)%nat → 2 ≤ len (Players s') →
       models.IsGameOver s' = true ∧
       (∀ w : nat, active (Players s') (Z.of_nat w) → Winner s' = Some w) ∧
       ((∀ j, ¬ active (Players s') j) → Winner s' = Winner s)).
Proof.
  intros s Hmax Hi Hid Hfirst.
  assert (list_find (λ p, ID p = playerID) (Players s) = Some (i, p)) as Hfind.
  { apply list_find_Some. eauto. }
  pose proof (departed_Players s i p) as HP.
  pose proof (departed_CurrentPlayer s i p) as HC.
  pose proof (departed_ends s i p) as HE.
  destruct (RemovePlayer_found g playerID now i p Hmax Hfind)
    as [[Hne ->]|[[Heq [c [N ->]]]|[Heq [N ->]]]];
    eexists; (split; [done|]); cbn;
    rewrite <- ?HP; (split; [done|]).
  - split; [done|]. split; [done|]. apply HE.
  - split; [by left|]. split; [done|]. apply HE.
  - split; [by right|]. split; [done|]. intros ? ?.
    split; [done|]. by apply HE.
Qed.

(** C3. [RemovePlayer] fails with [ErrInvalidPlayer] and changes nothing
    when no participant has the identifier.  Otherwise it succeeds and
    clears the active flag of the first participant [p] that has it; when
    [p] held the turn, the turn advances (to the next active participant,
    or, nobody being active, the session is forced over and the index
    stays), and the index stays when [p] did not hold the turn; and when at
    most one participant is active afterwards among two or more, the
    session is over, with the participant still active as winner, the
    winner being left as it was when there is none. *)
Theorem RemovePlayer_spec (g : PigGame) (playerID : string) (now : time) :
  let s := state g in
  len (Players s) ≤ int_max →
  (Forall (λ p, ID p ≠ playerID) (Players s) →
   RemovePlayer g playerID now = Some (Some ErrInvalidPlayer, g)) ∧
  (∀ (i : nat) p,
     Players s !! i = Some p → ID p = playerID →
     (∀ (j : nat) q, Players s !! j = Some q → (j < i)%nat → ID q ≠ playerID) →
     ∃ g',
       RemovePlayer g playerID now = Some (None, g') ∧
       let s' := state g' in
       Players s' = <[i := set_IsActive false p]> (Players s) ∧
       (Z.of_nat i = CurrentPlayer s →
          next_active (Players s') (CurrentPlayer s) (CurrentPlayer s') ∨
          ((∀ j, ¬ active (Players s') j) ∧
           models.IsGameOver s' = true ∧
           CurrentPlayer s' = CurrentPlayer s)) ∧
       (Z.of_nat i ≠ CurrentPlayer s → CurrentPlayer s' = CurrentPlayer s) ∧
       ((active_count (Players s') ≤ 1)%nat → 2 ≤ len (Players s') →
          models.IsGameOver s' = true ∧
          (∀ w : nat, active (Players s') (Z.of_nat w) → Winner s' = Some w) ∧
          ((∀ j, ¬ active (Players s') j) → Winner s' = Winner s))).
Proof.
  intros s Hmax. split; [apply RemovePlayer_absent|].
  intros i p. by apply RemovePlayer_present.
Qed.

Lemma RemovePlayer_spec_witness :
  ∃ g',
    RemovePlayer two_players "a" 3 = Some (None, g') ∧
    Players (state g') = [set_IsActive false alice; bob] ∧
    models.IsGameOver (state g') = true ∧
    Winner (state g') = Some 1%nat.
Proof.
  destruct (RemovePlayer_spec two_players "a" 3) as [_ Hfound]; [by lazy|].
  destruct (Hfound 0%nat alice) as (g' & E & Hps & _ & _ & Hend).
  - reflexivity.
  - reflexivity.
  - intros j q _ Hj. inversion Hj.
  - exists g'. split; [exact E|]. split; [exact Hps|].
    destruct Hend as (Hover & Hw & _).
    + rewrite Hps. cbn. apply le_n.
    + rewrite Hps. by lazy.
    + split; [exact Hover|]. apply Hw. rewrite Hps.
      exists bob. split; reflexivity.
Defined.

(** ** The unit tests of the package, replayed *)

Example TestNewPigGameDefaultScore w :
  WinningScore (state (NewPigGame 0 w).1) = 100.
Proof. reflexivity. Qed.

Example TestAddPlayerDuplicate :
  (AddPlayer (AddPlayer (fresh 100) alice 1).2 alice 2).1
  = Some ErrPlayerAlreadyInGame.
Proof. reflexivity. Qed.

Example TestAddPlayerToFullGame :
  let g := (AddPlayer two_players carol 3).2 in
  let g := (AddPlayer g (player "Dave" "d") 4).2 in
  (AddPlayer g (player "Extra" "e") 5).1 = Some ErrGameFull.
Proof. reflexivity. Qed.

Example TestCanStart :
  CanStart (fresh 100) = false ∧
  CanStart (AddPlayer (fresh 100) alice 1).2 = false ∧
  CanStart two_players = true.
Proof. by repeat split. Qed.

Example TestStart :
  (Start (fresh 100) 1).1 = Some ErrNotEnoughPlayers ∧
  (Start two_players 3).1 = None.
Proof. by split. Qed.

Example TestRollNotYourTurn :
  Roll two_players "b" 3 = Some ((0, Some ErrNotPlayerTurn), two_players).
Proof. reflexivity. Qed.

Example TestRollBeforeGameStart :
  let g := (AddPlayer (fresh 100) alice 1).2 in
  Roll g "a" 2 = Some ((0, Some ErrGameNotStarted), g).
Proof. reflexivity. Qed.

Example TestHoldNotYourTurn :
  Hold two_players "b" 3 = Some (Some ErrNotPlayerTurn, two_players).
Proof. reflexivity. Qed.

Example TestRemovePlayerInvalidPlayer :
  let g := (AddPlayer (fresh 100) alice 1).2 in
  RemovePlayer g "invalid-id" 2 = Some (Some ErrInvalidPlayer, g).
Proof. reflexivity. Qed.

Example TestRemovePlayerEndsGame :
  IsGameOver abandoned = true ∧ GetWinner abandoned = Some 1%nat.
Proof. by split. Qed.

Example TestGetActivePlayerCount :
  let g := (AddPlayer two_players carol 3).2 in
  GetActivePlayerCount g = 3 ∧
  (snd <$> RemovePlayer g "a" 4) ≫= (λ g, Some (GetActivePlayerCount g))
  = Some 2.
Proof. by split. Qed.

Example TestTurnProgression :
  let g := (AddPlayer two_players carol 3).2 in
  CurrentPlayer (state g) = 0 ∧
  CurrentPlayer <$> nextTurn (set_LastRoll 1 (state g)) = Some 1.
Proof. by split. Qed.

(** The scenario of the specification, with the draws of the sample world:
    Alice forfeits, Bob rolls a 5 and holds; at target 5 Bob has won, and
    a roll by either is refused. *)
Example scenario :
  IsGameOver bob_won = true ∧
  GetWinner bob_won = Some 1%nat ∧
  Score <$> Players (state bob_won) = [0; 5; 0] ∧
  Roll bob_won "b" 8 = Some ((0, Some ErrGameOver), bob_won) ∧
  Hold bob_won "c" 8 = Some (Some ErrGameOver, bob_won).
Proof. by repeat split. Qed.

(** ** Failures change nothing *)

(** C6. Whenever [AddPlayer], [Start], [Roll], [Hold] or [RemovePlayer]
    returns an error, the session after the call is the session before it:
    participants, turn index, accumulator, over flag, winner, timestamps and
    generator alike. *)
Theorem failure_leaves_state (g : PigGame) :
  (∀ player now e g', AddPlayer g player now = (Some e, g') → g' = g) ∧
  (∀ now e g', Start g now = (Some e, g') → g' = g) ∧
  (∀ playerID now v e g',
     Roll g playerID now = Some ((v, Some e), g') → g' = g) ∧
  (∀ playerID now e g', Hold g playerID now = Some (Some e, g') → g' = g) ∧
  (∀ playerID now e g',
     RemovePlayer g playerID now = Some (Some e, g') → g' = g).
Proof.
  repeat split.
  - intros player now e g'. unfold AddPlayer.
    destruct (models.IsGameOver (state g)); [congruence|].
    repeat case_decide; congruence.
  - intros now e g'. unfold Start. case_decide; [congruence|].
    destruct (models.IsGameOver (state g)); congruence.
  - intros playerID now v e g'. unfold Roll.
    destruct (models.IsGameOver (state g)); [congruence|].
    case_decide; [congruence|].
    destruct (index _ _) as [p|]; [cbn [mbind option_bind]|done].
    case_decide; [congruence|].
    destruct (IsActive p); cbn [negb]; [|congruence].
    destruct (rand.Intn _ _) as [d r].
    case_decide; [|cbn; congruence].
    destruct (nextTurn _); cbn; congruence.
  - intros playerID now e g'. unfold Hold.
    destruct (models.IsGameOver (state g)); [congruence|].
    case_decide; [congruence|].
    destruct (index _ _) as [p|]; [cbn [mbind option_bind]|done].
    case_decide; [congruence|].
    destruct (IsActive p); cbn [negb]; [|congruence].
    cbv zeta. case_decide; [congruence|].
    destruct (nextTurn _); cbn; congruence.
  - intros playerID now e g'. rewrite RemovePlayer_unfold.
    destruct (list_find _ _) as [[i player]|]; [|congruence].
    cbv zeta. case_decide; [|cbn; congruence].
    destruct (nextTurn _); cbn; congruence.
Qed.

(** ** Start *)

(** C7, as the code has it.  [Start] fails exactly when the session has
    fewer than two participants ([ErrNotEnoughPlayers]) or is already over
    ([ErrGameOver]); otherwise it succeeds and changes the last-activity
    timestamp only, and so does every call after a successful one. *)
Theorem Start_spec (g : PigGame) (now : time) :
  let s := state g in
  ((Start g now).1 ≠ None ↔
     len (Players s) < 2 ∨ models.IsGameOver s = true) ∧
  (len (Players s) < 2 → Start g now = (Some ErrNotEnoughPlayers, g)) ∧
  (2 ≤ len (Players s) → models.IsGameOver s = true →
     Start g now = (Some ErrGameOver, g)) ∧
  (2 ≤ len (Players s) → models.IsGameOver s = false →
     Start g now = (None, touch now g) ∧
     ∀ now', Start (touch now g) now' = (None, touch now' g)).
Proof.
  intros s. unfold Start, touch. fold s. cbn [state set_state].
  cbn [Players models.IsGameOver set_LastActivityAt].
  destruct (decide (len (Players s) < 2)) as [Hlt|Hge];
    destruct (models.IsGameOver s) eqn:Hover; cbn [fst];
    repeat split; try done; try lia; try congruence; try tauto.
Qed.

Lemma Start_spec_witness :
  Start two_players 3 = (None, touch 3 two_players) ∧
  Start (touch 3 two_players) 4 = (None, touch 4 two_players).
Proof.
  destruct (Start_spec two_players 3) as (_ & _ & _ & Hok).
  destruct Hok as [H1 H2]; [by lazy | reflexivity |].
  split; [exact H1 | exact (H2 4)].
Defined.

(** The claim of C7 as stated fails: with two participants in a session
    that is over, [Start] fails. *)
Lemma Start_fails_when_over :
  2 ≤ len (Players (state abandoned)) ∧
  Start abandoned 4 = (Some ErrGameOver, abandoned) ∧
  ¬ ((Start abandoned 4).1 ≠ None ↔ len (Players (state abandoned)) < 2).
Proof.
  split; [by lazy|]. split; [reflexivity|].
  intros [H _]. assert (len (Players (state abandoned)) < 2) as Hlt.
  { apply H. discriminate. }
  revert Hlt. by lazy.
Qed.

Lemma failure_leaves_state_witness :
  ∃ e g', Roll two_players "b" 3 = Some ((0, Some e), g') ∧ g' = two_players.
Proof.
  destruct (failure_leaves_state two_players) as (_ & _ & HRoll & _).
  exists ErrNotPlayerTurn, two_players. split; [reflexivity|].
  apply (HRoll "b" 3 0 ErrNotPlayerTurn). reflexivity.
Defined.

(** ** Departure of the winner *)

(** C10. [RemovePlayer] does not look at the over flag.  In a session that
    is over with winner [w], whose identifier no other participant has,
    [RemovePlayer] for [w] succeeds and clears the active flag of [w]; and
    when exactly one participant is active afterwards, among two or more,
    the winner reference is that participant, who is not [w]. *)
Theorem RemovePlayer_reassigns_winner
    (g : PigGame) (w : nat) (pw : Player) (now : time) :
  let s := state g in
  len (Players s) ≤ int_max →
  models.IsGameOver s = true →
  Winner s = Some w →
  Players s !! w = Some pw →
  (∀ (j : nat) q, Players s !! j = Some q → ID q = ID pw → j = w) →
  ∃ g',
    RemovePlayer g (ID pw) now = Some (None, g') ∧
    let s' := state g' in
    models.IsGameOver s' = true ∧
    Players s' = <[w := set_IsActive false pw]> (Players s) ∧
    ∀ j : nat,
      active_count (Players s') = 1%nat → 2 ≤ len (Players s') →
      active (Players s') (Z.of_nat j) →
      Winner s' = Some j ∧ j ≠ w.
Proof.
  intros s Hmax Hover Hw Hpw Huniq.
  destruct (RemovePlayer_present g (ID pw) now w pw)
    as (g' & E & Hps & _ & _ & Hend); [done|done|done| |].
  { intros j q Hq Hlt Hid. specialize (Huniq j q Hq Hid). lia. }
  exists g'. split; [done|]. cbv zeta in *. split; [|split; [done|]].
  - destruct (apply_op_over g (OpRemovePlayer (ID pw)) now Hmax Hover)
      as (g1 & E1 & Hover1 & _).
    cbn in E1. rewrite E in E1. cbn in E1. by injection E1 as <-.
  - intros j Hone Hlen Hj.
    destruct Hend as (_ & Hwin & _); [lia|done|].
    split; [by apply Hwin|]. intros ->.
    apply active_nat in Hj as (q & Hq & Hact). rewrite Hps in Hq.
    rewrite list_lookup_insert_eq in Hq by (by eapply lookup_lt_Some).
    injection Hq as <-. done.
Qed.

Lemma RemovePlayer_reassigns_winner_witness :
  ∃ g',
    RemovePlayer bob_won "b" 9 = Some (None, g') ∧
    Winner (state bob_won) = Some 1%nat ∧
    Winner (state g') = Some 2%nat.
Proof.
  destruct (RemovePlayer_reassigns_winner bob_won 1 (set_Score 5 bob) 9)
    as (g' & E & _ & Hps & Hre).
  - by lazy.
  - reflexivity.
  - reflexivity.
  - reflexivity.
  - assert (Players (state bob_won)
            = [set_IsActive false alice; set_Score 5 bob; carol]) as HP
      by reflexivity.
    intros j q Hq Hid. rewrite HP in Hq.
    destruct j as [|[|[|j]]]; try reflexivity; cbn in Hq.
    + injection Hq as <-. discriminate Hid.
    + injection Hq as <-. discriminate Hid.
    + discriminate Hq.
  - exists g'. split; [exact E|]. split; [reflexivity|].
    apply (Hre 2%nat).
    + rewrite Hps. reflexivity.
    + rewrite Hps. by lazy.
    + rewrite Hps. exists carol. split; reflexivity.
Defined.

(** ** Winner and over flag along a play *)

(** The invariant: at most four participants; a winner only in a session
    that is over; a session that is over without a winner has no active
    participant. *)
Lemma inv_fields s s' :
  Players s' = Players s → Winner s' = Winner s →
  models.IsGameOver s' = models.IsGameOver s →
  inv s → inv s'.
Proof. unfold inv. by intros -> -> ->. Qed.

Lemma nextTurn_inv s s' :
  0 ≤ CurrentPlayer s < len (Players s) →
  inv s → nextTurn s = Some s' → inv s'.
Proof.
  intros Hcur Hinv E.
  assert (len (Players s) ≤ int_max) as Hmax.
  { destruct Hinv as [H4 _]. unfold int_max. lia. }
  destruct (nextTurn_spec s Hcur Hmax) as [[c [E' _]]|[E' Hnone]];
    rewrite E' in E; injection E as <-.
  - by apply (inv_fields s).
  - destruct Hinv as (H4 & Hw & _). by repeat split.
Qed.

Lemma active_deactivate ps i player j :
  active (<[i := set_IsActive false player]> ps) j → active ps j.
Proof.
  intros (q & Hq & Hact). apply index_Some in Hq as [Hj Hq].
  destruct (decide (i = Z.to_nat j)) as [->|Hne].
  - pose proof (lookup_lt_Some _ _ _ Hq) as Hlt. rewrite length_insert in Hlt.
    rewrite list_lookup_insert_eq in Hq by done. injection Hq as <-. done.
  - rewrite list_lookup_insert_ne in Hq by done.
    exists q. split; [|done]. by apply index_Some.
Qed.

Lemma departed_inv s i player : inv s → inv (departed s i player).
Proof.
  intros (H4 & Hw & Hnone). unfold inv.
  rewrite departed_len. split; [done|].
  unfold departed. cbv zeta. case_decide as Hfire.
  - cbn [Players set_Players set_IsGameOver].
    destruct (firstActive _) as [w|] eqn:Hfirst; cbn; (split; [done|]).
    + done.
    + intros _ _ j. by apply firstActive_None.
  - cbn. split; [done|]. intros Hover Hwin j Hj.
    apply (Hnone Hover Hwin j). by eapply active_deactivate.
Qed.

Lemma AddPlayer_inv g player now :
  inv (state g) → inv (state (AddPlayer g player now).2).
Proof.
  intros Hinv. unfold AddPlayer.
  destruct (models.IsGameOver (state g)) eqn:Hover; [done|].
  case_decide as Hfull; [done|]. case_decide; [done|].
  destruct Hinv as (H4 & Hw & _). cbn. unfold inv. cbn.
  rewrite Hover. split.
  - unfold len in *. rewrite length_app. cbn. lia.
  - split; [|done]. intros Hsome%Hw. congruence.
Qed.

Lemma Roll_inv g playerID now r g' :
  inv (state g) → Roll g playerID now = Some (r, g') → inv (state g').
Proof.
  intros Hinv. unfold Roll.
  destruct (models.IsGameOver (state g)); [by intros [= _ <-]|].
  case_decide; [by intros [= _ <-]|].
  destruct (index _ _) as [p|] eqn:Hp; [cbn [mbind option_bind]|done].
  apply index_lt in Hp.
  case_decide; [by intros [= _ <-]|].
  destruct (IsActive p); cbn [negb]; [|by intros [= _ <-]].
  destruct (rand.Intn _ _) as [d rg].
  case_decide.
  - destruct (nextTurn _) as [s1|] eqn:E; [|done]. cbn.
    intros [= _ <-]. cbn. eapply nextTurn_inv; [| |exact E]; [done|].
    by apply (inv_fields (state g)).
  - cbn. intros [= _ <-]. cbn. by apply (inv_fields (state g)).
Qed.

Lemma Hold_inv g playerID now r g' :
  inv (state g) → Hold g playerID now = Some (r, g') → inv (state g').
Proof.
  intros Hinv. unfold Hold.
  destruct (models.IsGameOver (state g)) eqn:Hover; [by intros [= _ <-]|].
  case_decide; [by intros [= _ <-]|].
  destruct (index _ _) as [p|] eqn:Hp; [cbn [mbind option_bind]|done].
  apply index_lt in Hp.
  case_decide; [by intros [= _ <-]|].
  destruct (IsActive p); cbn [negb]; [|by intros [= _ <-]].
  cbv zeta. destruct Hinv as (H4 & Hw & _).
  assert (∀ q, len (<[Z.to_nat (CurrentPlayer (state g)) := q]>
                      (Players (state g))) = len (Players (state g))) as Hlen.
  { intros q. unfold len. by rewrite length_insert. }
  case_decide.
  - intros [= _ <-]. unfold inv. cbn. by rewrite Hlen.
  - destruct (nextTurn _) as [s1|] eqn:E; [|done]. cbn.
    intros [= _ <-]. cbn. eapply nextTurn_inv; [| |exact E].
    + cbn. by rewrite Hlen.
    + unfold inv. cbn. rewrite Hlen, Hover.
      split; [done|]. split; [|done]. intros Hsome%Hw. congruence.
Qed.

Lemma RemovePlayer_inv g playerID now r g' :
  inv (state g) → RemovePlayer g playerID now = Some (r, g') → inv (state g').
Proof.
  intros Hinv. rewrite RemovePlayer_unfold.
  destruct (list_find _ _) as [[i player]|] eqn:Hfind; [|by intros [= _ <-]].
  cbv zeta. pose proof (departed_inv (state g) i player Hinv) as Hd.
  apply list_find_Some in Hfind as (Hlt%lookup_lt_Some & _).
  case_decide as Hi.
  - destruct (nextTurn _) as [s1|] eqn:E; [|done]. cbn.
    intros [= _ <-]. cbn. apply (inv_fields s1); try done.
    eapply nextTurn_inv; [|exact Hd|exact E].
    rewrite <- Hi, departed_len. unfold len. lia.
  - cbn. intros [= _ <-]. cbn. by apply (inv_fields (departed (state g) i player)).
Qed.

Lemma apply_op_inv g o now g' :
  inv (state g) → apply_op g o now = Some g' → inv (state g').
Proof.
  intros Hinv. destruct o as [player| |playerID|playerID|playerID]; cbn.
  - intros [= <-]. by apply AddPlayer_inv.
  - intros [= <-]. unfold Start. case_decide; [done|].
    destruct (models.IsGameOver (state g)); [done|].
    cbn. by apply (inv_fields (state g)).
  - destruct (Roll g playerID now) as [[r g1]|] eqn:E; [|done].
    cbn. intros [= <-]. by eapply Roll_inv.
  - destruct (Hold g playerID now) as [[r g1]|] eqn:E; [|done].
    cbn. intros [= <-]. by eapply Hold_inv.
  - destruct (RemovePlayer g playerID now) as [[r g1]|] eqn:E; [|done].
    cbn. intros [= <-]. by eapply RemovePlayer_inv.
Qed.

Lemma reachable_inv g : reachable g → inv (state g).
Proof.
  induction 1 as [winningScore w|g o now g' _ IH Hstep].
  - unfold inv. cbn. by repeat split.
  - by eapply apply_op_inv.
Qed.

(** C5, as the code has it.  In every session reachable from a fresh one
    by [AddPlayer], [Start], [Roll], [Hold] and [RemovePlayer], a winner is
    recorded only when the session is over, and a session that is over has
    a winner unless none of its participants is active. *)
Theorem winner_over (g : PigGame) :
  reachable g →
  (Winner (state g) ≠ None → models.IsGameOver (state g) = true) ∧
  (models.IsGameOver (state g) = true →
   (∃ j, active (Players (state g)) j) → Winner (state g) ≠ None).
Proof.
  intros (_ & Hw & Hnone)%reachable_inv. split; [done|].
  intros Hover [j Hj] Hwin. by apply (Hnone Hover Hwin j).
Qed.

Lemma run_reachable ops : ∀ g g', reachable g → run ops g = Some g' → reachable g'.
Proof.
  induction ops as [|[o now] ops IH]; intros g g' Hg; cbn.
  - by intros [= <-].
  - destruct (apply_op g o now) as [g1|] eqn:E; [|done]. cbn.
    apply IH. by eapply reachable_step.
Qed.

(** A play that does not panic ends in the session [default] extracts. *)
Lemma run_default ops g :
  match run ops g with Some _ => True | None => False end →
  run ops g = Some (default g (run ops g)).
Proof. destruct (run ops g); [done|intros []]. Qed.

Lemma bob_won_reachable : reachable bob_won.
Proof.
  apply (run_reachable bob_wins (fresh 5)); [apply reachable_new|].
  apply run_default. exact I.
Qed.

Lemma winner_over_witness :
  models.IsGameOver (state bob_won) = true ∧ Winner (state bob_won) ≠ None.
Proof.
  destruct (winner_over bob_won bob_won_reachable) as [_ H].
  split; [reflexivity|]. apply H; [reflexivity|].
  exists 2. exists carol. split; reflexivity.
Defined.

(** The claim of C5 as stated fails: the only participant of a session
    leaves, and the session is over without a winner. *)
Lemma over_without_winner :
  reachable deserted ∧
  models.IsGameOver (state deserted) = true ∧
  Winner (state deserted) = None ∧
  ¬ (∀ g, reachable g →
       (Winner (state g) ≠ None ↔ models.IsGameOver (state g) = true)).
Proof.
  assert (reachable deserted) as Hr.
  { apply (run_reachable alice_deserts (fresh 100)); [apply reachable_new|].
    apply run_default. exact I. }
  split; [done|]. split; [reflexivity|]. split; [reflexivity|].
  intros H. destruct (H deserted Hr) as [_ Hw]. by apply Hw.
Qed.

End game_props.

(** * Properties of the match actor and of the match manager *)
Module server_props.

Import server server_spec.

(** ** The join handler *)

Lemma AddPlayer_refused g player now :
  (models.IsGameOver (game.state g) = true ∨
   4 ≤ len (models.Players (game.state g)) ∨
   Exists (λ p, models.ID p = models.ID player) (models.Players (game.state g))) →
  ∃ err, game.AddPlayer g player now = (Some err, g).
Proof.
  intros H. unfold game.AddPlayer.
  destruct (models.IsGameOver (game.state g)); [by eexists|].
  case_decide; [by eexists|]. case_decide; [by eexists|].
  destruct H as [?|[?|?]]; done.
Qed.

(** What the join handler does when the game refuses the participant of
    the connection (a participant of that identifier is there already, or
    the game is full, or over): it logs the error and does nothing else to
    the outside; no message is sent on the channel of any connection and
    none is queued for broadcast.  The game, and with it the list of
    participants, is unchanged; no connection is registered under the
    identifier of the joining one; the connections registered under other
    identifiers are unchanged. *)
Lemma handleRegister_refused (m : Match) (conn : PlayerConnection) (w : World) :
  refused m conn →
  ∃ err,
    let '(m', effs, w') := handleRegister m conn w in
    effs = [Log ("Error adding player to game: " +:+ game.Error err)] ∧
    (∀ c msg, SendTo c msg ∉ effs) ∧
    Game m' = Game m ∧
    Broadcast m' = Broadcast m ∧
    IsStarted m' = IsStarted m ∧
    Players m' !! PlayerID conn = None ∧
    ∀ id, id ≠ PlayerID conn → Players m' !! id = Players m !! id.
Proof.
  intros Href. unfold handleRegister. cbn.
  match goal with |- context [game.AddPlayer ?g ?p ?t] =>
    destruct (AddPlayer_refused g p t Href) as [err ->] end.
  exists err. cbn. split; [done|]. split.
  { intros c msg Hin. apply list_elem_of_singleton in Hin. done. }
  repeat split.
  - by rewrite lookup_delete_eq.
  - intros id Hid. by rewrite lookup_delete_ne, lookup_insert_ne.
Qed.

Lemma lobby_participants :
  models.Players (game.state (Game lobby.1)) = [game_spec.alice; game_spec.bob].
Proof. reflexivity. Qed.

Lemma lobby_refuses : refused lobby.1 conn_a2.
Proof.
  unfold refused. cbv zeta. rewrite lobby_participants.
  right. right. apply Exists_cons_hd. reflexivity.
Qed.

Lemma lobby_refusal :
  (handleRegister lobby.1 conn_a2 lobby.2).1.2
  = [Log "Error adding player to game: player already in game"].
Proof. reflexivity. Qed.

Lemma full_lobby_refuses : refused full_lobby.1 conn_e.
Proof. right. left. by lazy. Qed.

Lemma full_lobby_refusal :
  (handleRegister full_lobby.1 conn_e full_lobby.2).1.2
  = [Log "Error adding player to game: game is full"].
Proof. reflexivity. Qed.

(** C9 fails on the code.  A fifth connection joins a full match: the game
    refuses the participant, and the handler logs the error and sends the
    connection nothing.  A second connection with the identifier of Alice
    joins the match she is in: it is sent nothing either, and the
    connection of Alice is no longer registered afterwards. *)
Lemma join_refused_silently :
  (refused full_lobby.1 conn_e ∧
   let '(m', effs, _) := handleRegister full_lobby.1 conn_e full_lobby.2 in
   effs = [Log "Error adding player to game: game is full"] ∧
   ¬ error_sent effs conn_e ∧
   Game m' = Game full_lobby.1) ∧
  (refused lobby.1 conn_a2 ∧
   let '(m', effs, _) := handleRegister lobby.1 conn_a2 lobby.2 in
   effs = [Log "Error adding player to game: player already in game"] ∧
   ¬ error_sent effs conn_a2 ∧
   Players lobby.1 !! "a" = Some conn_a ∧
   Players m' !! "a" = None).
Proof.
  split.
  - split; [exact full_lobby_refuses|].
    pose proof full_lobby_refusal as Heffs.
    destruct (handleRegister_refused _ conn_e full_lobby.2 full_lobby_refuses)
      as [err H].
    destruct (handleRegister full_lobby.1 conn_e full_lobby.2) as [[m' effs] w'].
    cbn in Heffs. subst effs. destruct H as (_ & Hsent & Hgame & _).
    split; [done|]. split; [|done]. intros (msg & Hin & _). by eapply Hsent.
  - split; [exact lobby_refuses|].
    pose proof lobby_refusal as Heffs.
    destruct (handleRegister_refused _ conn_a2 lobby.2 lobby_refuses)
      as [err H].
    destruct (handleRegister lobby.1 conn_a2 lobby.2) as [[m' effs] w'].
    cbn in Heffs. subst effs. destruct H as (_ & Hsent & _ & _ & _ & Hgone & _).
    split; [done|]. split; [|split; [reflexivity|exact Hgone]].
    intros (msg & Hin & _). by eapply Hsent.
Qed.

(** ** Matchmaking *)

(** The branch of [FindOrCreateMatch] that creates a match. *)
Lemma FindOrCreateMatch_create h mm winningScore w :
  waitingRoom mm = None ∨ (∃ l room, closed h mm l room) →
  ∃ room w',
    FindOrCreateMatch h mm winningScore w
      = Some (length h, h ++ [room], opened mm (length h) room,
              [GoRun (length h);
               Log ("Created new waiting room match: " +:+ ID room)], w') ∧
    ID room = uuids w (uuid_next w) ∧
    IsStarted room = false ∧ Players room = ∅ ∧ MaxPlayers room = 4 ∧
    uuids w' = uuids w ∧ (uuid_next w < uuid_next w')%nat.
Proof.
  intros Hcase. unfold FindOrCreateMatch. cbv zeta.
  destruct (models.NewGameState winningScore w) as [st w1] eqn:E1.
  destruct (NewMatch (models.GameID st) winningScore w1) as [m w2] eqn:E2.
  exists m, w2. split.
  - destruct Hcase as [->|(l & room & -> & -> & Hclosed)]; [done|].
    cbn [mbind option_bind].
    destruct Hclosed as [->|Hfull]; [done|].
    rewrite bool_decide_eq_false_2 by lia. by rewrite andb_false_r.
  - unfold models.NewGameState in E1. cbn in E1. injection E1 as <- <-.
    unfold NewMatch, game.NewPigGame, models.NewGameState in E2. cbn in E2.
    injection E2 as <- <-. cbn. repeat split; lia.
Qed.

(** The branch that returns the open session. *)
Lemma FindOrCreateMatch_open h mm winningScore w l room :
  open h mm l room →
  FindOrCreateMatch h mm winningScore w = Some (l, h, mm, [], w).
Proof.
  intros (Hl & Hroom & Hstarted & Hsize). unfold FindOrCreateMatch.
  rewrite Hl, Hroom. cbn. rewrite Hstarted. cbn.
  by rewrite bool_decide_eq_true_2.
Qed.

(** C8. [FindOrCreateMatch] returns the open session when there is one,
    not started and with fewer connections than its capacity, and changes
    nothing.  Otherwise (no open session; or it has started, or is full) it
    creates a match on the heap, registers it under its identifier, makes
    it the open session, starts its actor and returns it.  Two calls in a
    row return the same match, hence the same identifier.  A call made
    once the open session has started or filled returns another match,
    whose identifier is another one, identifiers being drawn without
    repetition. *)
Theorem FindOrCreateMatch_spec
    (h : list Match) (mm : MatchManager) (winningScore : Z) (w : World) :
  (∀ l room, open h mm l room →
     FindOrCreateMatch h mm winningScore w = Some (l, h, mm, [], w)) ∧
  (waitingRoom mm = None ∨ (∃ l room, closed h mm l room) →
     ∃ room effs w',
       FindOrCreateMatch h mm winningScore w
         = Some (length h, h ++ [room], opened mm (length h) room, effs, w') ∧
       GoRun (length h) ∈ effs ∧
       ID room = uuids w (uuid_next w) ∧
       IsStarted room = false ∧ Players room = ∅) ∧
  (∀ l1 h1 mm1 effs1 w1,
     FindOrCreateMatch h mm winningScore w = Some (l1, h1, mm1, effs1, w1) →
     ∀ winningScore',
       FindOrCreateMatch h1 mm1 winningScore' w1 = Some (l1, h1, mm1, [], w1)) ∧
  (∀ l room,
     closed h mm l room → issued w (ID room) → Inj (=) (=) (uuids w) →
     ∃ l' h' mm' effs w' room',
       FindOrCreateMatch h mm winningScore w = Some (l', h', mm', effs, w') ∧
       l' ≠ l ∧ waitingRoom mm' = Some l' ∧
       h' !! l = Some room ∧ h' !! l' = Some room' ∧ ID room' ≠ ID room).
Proof.
  split; [|split; [|split]].
  - intros l room. apply FindOrCreateMatch_open.
  - intros Hcase.
    destruct (FindOrCreateMatch_create h mm winningScore w Hcase)
      as (room & w' & E & Hid & Hst & Hps & _).
    eexists room, _, w'. split; [exact E|]. repeat split; try done.
    apply list_elem_of_here.
  - intros l1 h1 mm1 effs1 w1 E winningScore'.
    assert ((∃ room, open h mm l1 room ∧ h1 = h ∧ mm1 = mm ∧ w1 = w) ∨
            (waitingRoom mm = None ∨ (∃ l room, closed h mm l room)))
      as [(room & Hopen & -> & -> & ->)|Hcase].
    { unfold FindOrCreateMatch in E.
      destruct (waitingRoom mm) as [l|] eqn:Hl; [|by right; left].
      destruct (h !! l) as [room|] eqn:Hroom; [cbn in E|done].
      destruct (IsStarted room) eqn:Hst; cbn in E.
      { right. right. exists l, room. split; [done|]. split; [done|]. by left. }
      case_bool_decide as Hsize; cbn in E.
      - left. injection E as <- <- <- <- <-. by exists room.
      - right. right. exists l, room. split; [done|]. split; [done|].
        right. lia. }
    + by eapply FindOrCreateMatch_open.
    + destruct (FindOrCreateMatch_create h mm winningScore w Hcase)
        as (room & w' & E' & _ & Hst & Hps & Hmax & _).
      rewrite E' in E. injection E as <- <- <- <- <-.
      apply (FindOrCreateMatch_open _ _ _ _ _ room).
      split; [done|]. split; [|split; [done|]].
      * rewrite lookup_app_r by lia. by rewrite Nat.sub_diag.
      * rewrite Hps, Hmax, map_size_empty. lia.
  - intros l room Hclosed (k & Hk & Hissued) Hinj.
    destruct (FindOrCreateMatch_create h mm winningScore w)
      as (room' & w' & E & Hid & _); [right; by exists l, room|].
    destruct Hclosed as (_ & Hroom & _).
    pose proof (lookup_lt_Some _ _ _ Hroom) as Hlt.
    eexists _, _, _, _, _, room'. split; [exact E|].
    split; [lia|]. split; [done|]. split; [by apply lookup_app_l_Some|].
    split.
    + rewrite lookup_app_r by lia. by rewrite Nat.sub_diag.
    + rewrite Hid, <- Hissued. intros Heq%Hinj. lia.
Qed.

Lemma xs_inj : Inj (=) (=) game_spec.xs.
Proof.
  intros a. induction a as [|a IH]; intros [|b] Heq; try done.
  f_equal. apply IH. by injection Heq.
Qed.

Lemma FindOrCreateMatch_spec_witness :
  ∃ l' h' mm' effs w' room',
    FindOrCreateMatch [started.1] started_mm 20 started.2
      = Some (l', h', mm', effs, w') ∧
    l' ≠ 0%nat ∧ waitingRoom mm' = Some l' ∧
    h' !! 0%nat = Some started.1 ∧ h' !! l' = Some room' ∧
    ID room' ≠ ID started.1.
Proof.
  destruct (FindOrCreateMatch_spec [started.1] started_mm 20 started.2)
    as (_ & _ & _ & H).
  apply (H 0%nat started.1).
  - split; [reflexivity|]. split; [reflexivity|]. left. reflexivity.
  - exists 0%nat. split; [|reflexivity]. apply Nat.ltb_lt. reflexivity.
  - exact xs_inj.
Defined.

End server_props.

(** * Further properties of the session state machine *)
Module game_more.

Import models game game_spec game_props.

(** A computation that evaluates to a result has one, which [default]
    extracts. *)
Lemma evaluates {A} (o : option A) :
  match o with Some _ => True | None => False end → ∃ x, o = Some x.
Proof. destruct o as [x|]; [by exists x|intros []]. Qed.

Lemma evaluates_default {A} (o : option A) (d : A) :
  match o with Some _ => True | None => False end → o = Some (default d o).
Proof. destruct o; [done|intros []]. Qed.

(** ** What no operation touches *)

Lemma nextTurn_loop_frame k : ∀ i startIdx s b s',
  nextTurn_loop k i startIdx s = Some (b, s') →
  Players s' = Players s ∧ Winner s' = Winner s ∧
  TurnScore s' = TurnScore s ∧ WinningScore s' = WinningScore s ∧
  LastActivityAt s' = LastActivityAt s ∧
  (models.IsGameOver s = true → models.IsGameOver s' = true) ∧
  (b = false → models.IsGameOver s' = models.IsGameOver s).
Proof.
  induction k as [|k IH]; intros i startIdx s b s'.
  { cbn. by intros [= <- <-]. }
  rewrite nextTurn_loop_S. cbv zeta.
  destruct (index _ _) as [p|]; [|done].
  destruct (IsActive p); [by intros [= <- <-]|].
  case_decide; [by intros [= <- <-]|].
  intros E. by apply IH in E.
Qed.

Lemma nextTurn_frame s s' :
  nextTurn s = Some s' →
  Players s' = Players s ∧ Winner s' = Winner s ∧
  TurnScore s' = TurnScore s ∧ WinningScore s' = WinningScore s ∧
  LastActivityAt s' = LastActivityAt s ∧
  (models.IsGameOver s = true → models.IsGameOver s' = true).
Proof.
  unfold nextTurn. case_decide; [by intros [= <-]|].
  destruct (nextTurn_loop _ _ _ _) as [[[] s1]|] eqn:E; [| |done];
    intros [= <-];
    apply nextTurn_loop_frame in E as (? & ? & ? & ? & ? & ? & ?);
    cbn; by repeat split.
Qed.

(** What an operation that returns does to the participants, the over
    flag and the target score. *)
(** The case of an operation that leaves participants, over flag and
    target as they are. *)
Ltac unchanged :=
  cbn; split; [intros; congruence|]; split; [done|]; by left.

Lemma apply_op_effect g o now g' :
  apply_op g o now = Some g' →
  let s := state g in
  let s' := state g' in
  (models.IsGameOver s = true → models.IsGameOver s' = true) ∧
  WinningScore s' = WinningScore s ∧
  (Players s' = Players s ∨
   (∃ player, o = OpAddPlayer player ∧ Players s' = Players s ++ [player] ∧
              models.IsGameOver s = false ∧ len (Players s) < 4 ∧
              Forall (λ p, ID p ≠ ID player) (Players s)) ∨
   (∃ playerID p,
      o = OpHold playerID ∧ index (Players s) (CurrentPlayer s) = Some p ∧
      ID p = playerID ∧ IsActive p = true ∧
      Players s'
        = <[Z.to_nat (CurrentPlayer s) :=
              set_Score (int_add (Score p) (TurnScore s)) p]> (Players s)) ∨
   (∃ playerID i p,
      o = OpRemovePlayer playerID ∧ Players s !! i = Some p ∧
      ID p = playerID ∧
      Players s' = <[i := set_IsActive false p]> (Players s))).
Proof.
  intros E s s'. subst s s'.
  destruct o as [player| |playerID|playerID|playerID]; cbn in E.
  - injection E as <-. unfold AddPlayer.
    destruct (models.IsGameOver (state g)) eqn:Hover; [unchanged|].
    case_decide; [unchanged|]. case_decide as Hdup; [unchanged|].
    cbn. split; [done|]. split; [done|]. right. left.
    exists player. repeat split; try done; try lia.
    apply Forall_forall. intros p Hp Hid. apply Hdup.
    apply Exists_exists. by exists p.
  - injection E as <-. unfold Start. case_decide; [unchanged|].
    destruct (models.IsGameOver (state g)) eqn:Hover; unchanged.
  - destruct (Roll g playerID now) as [[r g1]|] eqn:ER; [|done].
    injection E as <-. revert ER. unfold Roll.
    destruct (models.IsGameOver (state g)) eqn:Hover;
      [intros [= _ <-]; unchanged|].
    case_decide; [intros [= _ <-]; unchanged|].
    destruct (index _ _) as [p|]; [cbn [mbind option_bind]|done].
    case_decide; [intros [= _ <-]; unchanged|].
    destruct (IsActive p); cbn [negb]; [|intros [= _ <-]; unchanged].
    destruct (rand.Intn _ _) as [d rg]. case_decide.
    + destruct (nextTurn _) as [s1|] eqn:EN; [|done]. cbn.
      intros [= _ <-]. cbn.
      apply nextTurn_frame in EN as (HP & _ & _ & HW & _ & HO). cbn in *.
      rewrite HP, HW. unchanged.
    + cbn. intros [= _ <-]. unchanged.
  - destruct (Hold g playerID now) as [[r g1]|] eqn:EH; [|done].
    injection E as <-. revert EH. unfold Hold.
    destruct (models.IsGameOver (state g)) eqn:Hover;
      [intros [= _ <-]; unchanged|].
    case_decide; [intros [= _ <-]; unchanged|].
    destruct (index _ _) as [p|] eqn:Hp; [cbn [mbind option_bind]|done].
    case_decide as Hid; [intros [= _ <-]; unchanged|].
    destruct (IsActive p) eqn:Hact; cbn [negb]; [|intros [= _ <-]; unchanged].
    cbv zeta. case_decide.
    + intros [= _ <-]. cbn. split; [done|]. split; [done|].
      right. right. left. exists playerID, p.
      split; [done|]. split; [done|]. split; [first [done | by apply dec_stable]|done].
    + destruct (nextTurn _) as [s1|] eqn:EN; [|done]. cbn.
      intros [= _ <-]. cbn.
      apply nextTurn_frame in EN as (HP & _ & _ & HW & _ & HO). cbn in *.
      rewrite HP, HW. split; [done|]. split; [done|].
      right. right. left. exists playerID, p.
      split; [done|]. split; [done|]. split; [first [done | by apply dec_stable]|done].
  - destruct (RemovePlayer g playerID now) as [[r g1]|] eqn:ER; [|done].
    injection E as <-. revert ER. rewrite RemovePlayer_unfold.
    destruct (list_find _ _) as [[i p]|] eqn:Hfind;
      [|intros [= _ <-]; unchanged].
    apply list_find_Some in Hfind as (Hi & Hid & _).
    pose proof (departed_Players (state g) i p) as HP.
    assert (WinningScore (departed (state g) i p) = WinningScore (state g))
      as HW.
    { unfold departed. cbv zeta. case_decide; [|done].
      by destruct (firstActive _). }
    pose proof (departed_over (state g) i p) as HO.
    cbv zeta. case_decide.
    + destruct (nextTurn _) as [s1|] eqn:EN; [|done]. cbn.
      intros [= _ <-]. cbn.
      apply nextTurn_frame in EN as (HP1 & _ & _ & HW1 & _ & HO1).
      rewrite HP1, HW1, HP, HW. split; [intros; by apply HO1, HO|].
      split; [done|].
      right. right. right. by exists playerID, i, p.
    + cbn. intros [= _ <-]. cbn. rewrite HP, HW. split; [done|].
      split; [done|]. right. right. right. by exists playerID, i, p.
Qed.

Lemma same_person_refl p : same_person p p.
Proof. by repeat split. Qed.

Lemma grown_same ps : grown ps ps.
Proof.
  exists []. rewrite firstn_all, app_nil_r. repeat split; [cbn; lia|].
  apply Forall2_same_length_lookup. split; [done|].
  intros i p p' Hp Hp'. rewrite Hp in Hp'. injection Hp' as <-.
  apply same_person_refl.
Qed.

Lemma grown_app ps player : grown ps (ps ++ [player]).
Proof.
  exists [player]. rewrite take_app_length. repeat split; [cbn; lia|].
  destruct (grown_same ps) as (new & _ & _ & H).
  by rewrite firstn_all in H.
Qed.

Lemma grown_insert ps i p p' :
  ps !! i = Some p → same_person p p' → grown ps (<[i := p']> ps).
Proof.
  intros Hi Hsame. exists [].
  assert (take (length ps) (<[i := p']> ps) = <[i := p']> ps) as ->.
  { rewrite <- (length_insert ps i p'). apply firstn_all. }
  rewrite app_nil_r. repeat split; [cbn; lia|].
  apply Forall2_same_length_lookup. split; [by rewrite length_insert|].
  intros j q q' Hq Hq'. destruct (decide (i = j)) as [->|Hne].
  - rewrite list_lookup_insert_eq in Hq' by (by eapply lookup_lt_Some).
    rewrite Hi in Hq. by injection Hq as <-; injection Hq' as <-.
  - rewrite list_lookup_insert_ne in Hq' by done.
    rewrite Hq in Hq'. injection Hq' as <-. apply same_person_refl.
Qed.

(** X1. Whatever operation returns, the participants afterwards are the
    participants before, each the same person at the same place (same
    identifier and name, and not active again once departed), followed by
    at most one newcomer; the over flag is not cleared and the target score
    is not changed. *)
Theorem participants_grown (g g' : PigGame) (o : op) (now : time) :
  apply_op g o now = Some g' →
  grown (Players (state g)) (Players (state g')) ∧
  (models.IsGameOver (state g) = true →
   models.IsGameOver (state g') = true) ∧
  WinningScore (state g') = WinningScore (state g).
Proof.
  intros (Hover & Htarget & Hps)%apply_op_effect. cbv zeta in *.
  split; [|done].
  destruct Hps as [->|[(player & _ & -> & _)|
                  [(playerID & p & _ & Hp & _ & _ & ->)|
                   (playerID & i & p & _ & Hp & _ & ->)]]].
  - apply grown_same.
  - apply grown_app.
  - apply index_Some in Hp as [_ Hp].
    by apply (grown_insert _ _ p).
  - apply (grown_insert _ _ p); [done|]. by repeat split.
Qed.

Lemma participants_grown_witness :
  ∃ g',
    apply_op two_players (OpRemovePlayer "a") 3 = Some g' ∧
    grown (Players (state two_players)) (Players (state g')) ∧
    (models.IsGameOver (state two_players) = true →
     models.IsGameOver (state g') = true) ∧
    WinningScore (state g') = WinningScore (state two_players).
Proof.
  destruct (evaluates (apply_op two_players (OpRemovePlayer "a") 3) I)
    as [g' E].
  exists g'. split; [exact E|].
  exact (participants_grown two_players g' (OpRemovePlayer "a") 3 E).
Defined.

(** X2. A total changes only by [Hold], and only that of the participant
    who holds the turn, whose identifier is the one given: it becomes the
    total plus the turn accumulator.  Every other operation, and [Hold] for
    every other participant, leaves the totals as they are. *)
Theorem only_Hold_changes_totals
    (g g' : PigGame) (o : op) (now : time) (i : nat) (p p' : Player) :
  apply_op g o now = Some g' →
  Players (state g) !! i = Some p →
  Players (state g') !! i = Some p' →
  Score p' ≠ Score p →
  o = OpHold (ID p) ∧
  Z.of_nat i = CurrentPlayer (state g) ∧
  Score p' = int_add (Score p) (TurnScore (state g)).
Proof.
  intros (_ & _ & Hps)%apply_op_effect Hp Hp' Hne. cbv zeta in *.
  destruct Hps as [Hps|[(player & _ & Hps & _)|
                  [(playerID & q & -> & Hq & <- & _ & Hps)|
                   (playerID & j & q & _ & Hq & _ & Hps)]]];
    rewrite Hps in Hp'.
  - congruence.
  - rewrite lookup_app_l in Hp' by (by eapply lookup_lt_Some). congruence.
  - apply index_Some in Hq as [Hcur Hq].
    destruct (decide (Z.to_nat (CurrentPlayer (state g)) = i)) as [<-|Hi].
    + rewrite list_lookup_insert_eq in Hp' by (by eapply lookup_lt_Some).
      rewrite Hq in Hp. injection Hp as <-. injection Hp' as <-.
      split; [done|]. split; [lia|done].
    + rewrite list_lookup_insert_ne in Hp' by done. congruence.
  - destruct (decide (j = i)) as [->|Hi].
    + rewrite list_lookup_insert_eq in Hp' by (by eapply lookup_lt_Some).
      rewrite Hq in Hp. injection Hp as <-. injection Hp' as <-. done.
    + rewrite list_lookup_insert_ne in Hp' by done. congruence.
Qed.

Lemma only_Hold_changes_totals_witness :
  apply_op about_to_win (OpHold "a") 3 = Some alice_won ∧
  OpHold "a" = OpHold (ID alice) ∧
  0 = CurrentPlayer (state about_to_win) ∧
  Score (set_Score 20 alice)
  = int_add (Score alice) (TurnScore (state about_to_win)).
Proof.
  assert (apply_op about_to_win (OpHold "a") 3 = Some alice_won) as E.
  { apply evaluates_default. exact I. }
  split; [exact E|].
  apply (only_Hold_changes_totals about_to_win alice_won (OpHold "a") 3
           0%nat alice (set_Score 20 alice) E).
  - reflexivity.
  - reflexivity.
  - discriminate.
Defined.

(** ** Points pending at a departure *)

Lemma departed_TurnScore s i player :
  TurnScore (departed s i player) = TurnScore s.
Proof.
  unfold departed. cbv zeta. case_decide; [|done].
  by destruct (firstActive _).
Qed.

(** X3. [RemovePlayer] never touches the turn accumulator.  When the
    participant who leaves held the turn with points pending and the
    session is not over afterwards, the turn is with another participant,
    who is active, and the points are still pending, for him to hold. *)
Theorem RemovePlayer_keeps_pending
    (g g' : PigGame) (playerID : string) (now : time) (r : option error) :
  RemovePlayer g playerID now = Some (r, g') →
  TurnScore (state g') = TurnScore (state g) ∧
  (len (Players (state g)) ≤ int_max →
   models.IsGameOver (state g') = false →
   ∀ (i : nat) p,
     list_find (λ p, ID p = playerID) (Players (state g)) = Some (i, p) →
     Z.of_nat i = CurrentPlayer (state g) →
     CurrentPlayer (state g') ≠ CurrentPlayer (state g) ∧
     active (Players (state g')) (CurrentPlayer (state g'))).
Proof.
  intros E. split.
  - revert E. rewrite RemovePlayer_unfold.
    destruct (list_find _ _) as [[i p]|]; [|by intros [= _ <-]].
    cbv zeta. pose proof (departed_TurnScore (state g) i p) as HT.
    case_decide.
    + destruct (nextTurn _) as [s1|] eqn:EN; [|done]. cbn.
      intros [= _ <-]. cbn.
      apply nextTurn_frame in EN as (_ & _ & -> & _). done.
    + cbn. by intros [= _ <-].
  - intros Hmax Hover i p Hfind Hi.
    pose proof (departed_Players (state g) i p) as HP.
    destruct (RemovePlayer_found g playerID now i p Hmax Hfind)
      as [[Hne _]|[[_ [c [N E']]]|[_ [_ E']]]]; [done| |].
    + rewrite E' in E. injection E as _ <-. cbn in *.
      destruct N as (k & Hk & -> & Hact & _). split; [|done].
      intros Hback. rewrite Hback, <- Hi in Hact.
      apply active_nat in Hact as (q & Hq & Hq'). rewrite HP in Hq.
      apply list_find_Some in Hfind as (Hlt%lookup_lt_Some & _).
      rewrite list_lookup_insert_eq in Hq by done. by injection Hq as <-.
    + rewrite E' in E. injection E as _ <-. cbn in Hover. done.
Qed.

Lemma RemovePlayer_keeps_pending_witness :
  TurnScore (state bob_left) = 5 ∧
  CurrentPlayer (state bob_left) = 2 ∧
  active (Players (state bob_left)) (CurrentPlayer (state bob_left)).
Proof.
  assert (RemovePlayer bob_rolled "b" 6 = Some (bob_leaves.1, bob_left)) as E.
  { unfold bob_left. rewrite <- surjective_pairing.
    apply (evaluates_default (RemovePlayer bob_rolled "b" 6)). exact I. }
  destruct (RemovePlayer_keeps_pending bob_rolled bob_left "b" 6 _ E)
    as [Hkeep Hturn].
  split; [by rewrite Hkeep|].
  destruct (Hturn ltac:(by lazy) ltac:(reflexivity) 1%nat bob) as [Hne Hact].
  - reflexivity.
  - reflexivity.
  - split; [reflexivity|exact Hact].
Defined.

(** ** Roll and Hold check the turn alike *)

(** X4. [Roll] and [Hold] make the same checks in the same order: on any
    session and for any identifier, one fails with an error if and only if
    the other fails with that error, and neither changes the session
    then. *)
Theorem Roll_Hold_same_checks
    (g : PigGame) (playerID : string) (now now' : time) (e : error) :
  Roll g playerID now = Some ((0, Some e), g) ↔
  Hold g playerID now' = Some (Some e, g).
Proof.
  unfold Roll, Hold.
  destruct (models.IsGameOver (state g)); [split; by intros [= ->]|].
  case_decide; [split; by intros [= ->]|].
  destruct (index _ _) as [p|]; [cbn [mbind option_bind]|done].
  case_decide; [split; by intros [= ->]|].
  destruct (IsActive p); cbn [negb]; [|split; by intros [= ->]].
  destruct (rand.Intn _ _) as [d rg]. cbv zeta. split.
  - case_decide.
    + destruct (nextTurn _); cbn; [|done]. intros [= ? ?].
    + cbn. intros [= ? ?].
  - case_decide; [done|]. by destruct (nextTurn _).
Qed.

(** ** No operation panics in play *)

Lemma next_active_range ps cur c :
  0 < len ps → next_active ps cur c → 0 ≤ c < len ps.
Proof. intros Hlen (k & _ & -> & _). by apply Z.mod_pos_bound. Qed.

Lemma turn_valid_fields s s' :
  Players s' = Players s → CurrentPlayer s' = CurrentPlayer s →
  turn_valid s → turn_valid s'.
Proof. unfold turn_valid. by intros -> ->. Qed.

Lemma len_insert {A} (l : list A) i x : len (<[i := x]> l) = len l.
Proof. unfold len. by rewrite length_insert. Qed.

(** From a valid turn index every operation returns, and leaves the turn
    index valid. *)
Lemma apply_op_turn g o now :
  len (Players (state g)) ≤ int_max → turn_valid (state g) →
  ∃ g', apply_op g o now = Some g' ∧ turn_valid (state g').
Proof.
  intros Hmax Hturn.
  destruct o as [player| |playerID|playerID|playerID]; cbn.
  - eexists. split; [done|]. unfold AddPlayer.
    destruct (models.IsGameOver (state g)); [done|].
    case_decide; [done|]. case_decide; [done|].
    cbn. unfold turn_valid, len in *. cbn. rewrite length_app. cbn. lia.
  - eexists. split; [done|]. unfold Start. case_decide; [done|].
    by destruct (models.IsGameOver (state g)).
  - unfold Roll.
    destruct (models.IsGameOver (state g)); [by eexists|].
    case_decide as H2; [by eexists|].
    assert (0 ≤ CurrentPlayer (state g) < len (Players (state g))) as Hcur
      by (unfold turn_valid in Hturn; lia).
    destruct (index_is_Some _ _ Hcur) as [p Hp]. rewrite Hp.
    cbn [mbind option_bind]. case_decide; [by eexists|].
    destruct (IsActive p) eqn:Hact; cbn [negb]; [|by eexists].
    destruct (rand.Intn _ _) as [d rg]. case_decide.
    + set (s1 := set_TurnScore 0 _).
      destruct (nextTurn_active s1 (CurrentPlayer (state g))) as [c [-> N]];
        [done | done | by eapply active_here |].
      cbn. eexists. split; [done|]. cbn -[len].
      apply next_active_range in N; [|cbn -[len]; lia]. cbn -[len] in N.
      unfold turn_valid. cbn -[len]. lia.
    + cbn. eexists. split; [done|]. by apply (turn_valid_fields (state g)).
  - unfold Hold.
    destruct (models.IsGameOver (state g)); [by eexists|].
    case_decide as H2; [by eexists|].
    assert (0 ≤ CurrentPlayer (state g) < len (Players (state g))) as Hcur
      by (unfold turn_valid in Hturn; lia).
    destruct (index_is_Some _ _ Hcur) as [p Hp]. rewrite Hp.
    cbn [mbind option_bind]. case_decide; [by eexists|].
    destruct (IsActive p) eqn:Hact; cbn [negb]; [|by eexists].
    cbv zeta. case_decide.
    + eexists. split; [done|]. unfold turn_valid. cbn -[len].
      rewrite len_insert. lia.
    + set (s1 := set_TurnScore 0 _).
      destruct (nextTurn_active s1 (CurrentPlayer (state g))) as [c [-> N]].
      { cbn -[len]. by rewrite len_insert. }
      { cbn -[len]. by rewrite len_insert. }
      { eapply active_here.
        - cbn. apply index_Some. split; [lia|].
          apply list_lookup_insert_eq. unfold len in Hcur. lia.
        - done. }
      cbn. eexists. split; [done|]. cbn -[len].
      apply next_active_range in N; [|cbn -[len]; rewrite len_insert; lia].
      cbn -[len] in N. unfold turn_valid. cbn -[len]. lia.
  - destruct (list_find (λ p, ID p = playerID) (Players (state g)))
      as [[i p]|] eqn:Hfind.
    + pose proof (departed_Players (state g) i p) as HP.
      pose proof (departed_CurrentPlayer (state g) i p) as HC.
      pose proof (departed_len (state g) i p) as HL.
      pose proof Hfind as (Hlt%lookup_lt_Some & _)%list_find_Some.
      destruct (RemovePlayer_found g playerID now i p Hmax Hfind)
        as [[_ ->]|[[_ [c [N ->]]]|[_ [_ ->]]]];
        cbn; (eexists; split; [done|]); unfold turn_valid in *; cbn -[len];
        rewrite ?HC, ?HL; try done.
      apply next_active_range in N; [lia|]. rewrite HL. unfold len. lia.
    + rewrite RemovePlayer_unfold, Hfind. by exists g.
Qed.

Lemma ids_insert (ps : list Player) (i : nat) (p p' : Player) :
  ps !! i = Some p → ID p' = ID p → ID <$> <[i := p']> ps = ID <$> ps.
Proof.
  intros Hi Hid. rewrite list_fmap_insert, Hid.
  apply list_insert_id. by rewrite list_lookup_fmap, Hi.
Qed.

Lemma apply_op_safe g o now :
  safe (state g) → ∃ g', apply_op g o now = Some g' ∧ safe (state g').
Proof.
  intros (Hnodup & H4 & Hturn).
  destruct (apply_op_turn g o now) as (g' & E & Hturn');
    [unfold int_max; lia | done |].
  exists g'. split; [done|].
  apply apply_op_effect in E as (_ & _ & Hps). cbv zeta in Hps.
  split; [|split; [|done]].
  - destruct Hps as [->|[(player & _ & -> & _ & _ & Hfresh)|
                    [(playerID & p & _ & Hp & _ & _ & ->)|
                     (playerID & i & p & _ & Hp & _ & ->)]]]; [done| | |].
    + rewrite fmap_app. apply NoDup_app. split; [done|].
      split; [|apply NoDup_singleton].
      intros id (q & -> & Hq)%list_elem_of_fmap Hin.
      apply list_elem_of_singleton in Hin.
      by apply (proj1 (Forall_forall _ _) Hfresh q).
    + apply index_Some in Hp as [_ Hp]. by rewrite (ids_insert _ _ p).
    + by rewrite (ids_insert _ _ p).
  - destruct Hps as [->|[(player & _ & -> & _ & Hlt & _)|
                    [(playerID & p & _ & _ & _ & _ & ->)|
                     (playerID & i & p & _ & _ & _ & ->)]]];
      rewrite ?len_insert; [done| |done|done].
    unfold len in *. rewrite length_app. cbn. lia.
Qed.

Lemma reachable_is_safe g : reachable g → safe (state g).
Proof.
  induction 1 as [winningScore w|g o now g' _ IH Hstep].
  - split; [apply NoDup_nil_2|]. split; [by lazy|]. split; by lazy.
  - destruct (apply_op_safe g o now IH) as (g1 & E & Hsafe). congruence.
Qed.

(** X5. In every session reachable from a fresh one the identifiers of
    the participants are pairwise distinct, there are at most four
    participants, the turn index addresses a participant (or is zero
    without any), and every operation returns: none panics. *)
Theorem reachable_safe (g : PigGame) :
  reachable g →
  NoDup (ID <$> Players (state g)) ∧
  GetPlayerCount g ≤ 4 ∧
  turn_valid (state g) ∧
  ∀ o now, ∃ g', apply_op g o now = Some g'.
Proof.
  intros Hsafe%reachable_is_safe.
  destruct Hsafe as (Hnodup & H4 & Hturn). repeat split; try done.
  - by destruct Hturn.
  - by destruct Hturn.
  - intros o now.
    destruct (apply_op_safe g o now) as (g' & E & _); [done|by exists g'].
Qed.

Lemma reachable_safe_witness :
  NoDup (ID <$> Players (state bob_won)) ∧
  GetPlayerCount bob_won ≤ 4 ∧
  turn_valid (state bob_won) ∧
  ∀ o now, ∃ g', apply_op bob_won o now = Some g'.
Proof. exact (reachable_safe bob_won bob_won_reachable). Defined.

(** ** The turn is with an active participant *)

Lemma in_play_reachable g : in_play g → reachable g.
Proof.
  induction 1 as [winningScore w|g o now g' _ IH _ Hstep].
  - apply reachable_new.
  - by eapply reachable_step.
Qed.

Lemma active_insert_other ps i j (p' : Player) :
  Z.of_nat i ≠ j → active ps j → active (<[i := p']> ps) j.
Proof.
  intros Hne (q & Hq & Hact). exists q. split; [|done].
  apply index_Some in Hq as [Hj Hq]. apply index_Some. split; [done|].
  rewrite list_lookup_insert_ne by lia. done.
Qed.

Lemma holder_active_fields s s' :
  Players s' = Players s → CurrentPlayer s' = CurrentPlayer s →
  models.IsGameOver s' = models.IsGameOver s →
  holder_active s → holder_active s'.
Proof. unfold holder_active. by intros -> -> ->. Qed.

Lemma apply_op_holder g o now g' :
  safe (state g) → joins_active o → holder_active (state g) →
  apply_op g o now = Some g' → holder_active (state g').
Proof.
  intros (_ & H4 & Hturn) Hjoin Hholder.
  assert (len (Players (state g)) ≤ int_max) as Hmax by (unfold int_max; lia).
  destruct o as [player| |playerID|playerID|playerID]; cbn.
  - intros [= <-]. unfold AddPlayer.
    destruct (models.IsGameOver (state g)) eqn:Hover; [done|].
    case_decide; [done|]. case_decide; [done|].
    intros _ _. cbn.
    destruct (Players (state g)) as [|q ps] eqn:Hps.
    + assert (CurrentPlayer (state g) = 0) as ->.
      { unfold turn_valid, len in Hturn. rewrite ?Hps in Hturn.
        cbn [length] in Hturn. lia. }
      by exists player.
    + destruct (Hholder Hover) as (h & Hh & Hact); [by rewrite Hps|].
      exists h. split; [|done]. rewrite Hps in Hh.
      apply index_Some in Hh as [? Hh]. apply index_Some. split; [done|].
      apply lookup_app_l_Some. done.
  - intros [= <-]. unfold Start. case_decide; [done|].
    destruct (models.IsGameOver (state g)) eqn:Hover; [done|].
    cbn. by apply (holder_active_fields (state g)).
  - destruct (Roll g playerID now) as [[r g1]|] eqn:E; [|done].
    cbn. intros [= <-]. revert E. unfold Roll.
    destruct (models.IsGameOver (state g)) eqn:Hover; [by intros [= _ <-]|].
    case_decide; [by intros [= _ <-]|].
    destruct (index _ _) as [p|] eqn:Hp; [cbn [mbind option_bind]|done].
    pose proof (index_lt _ _ _ Hp) as Hcur.
    case_decide; [by intros [= _ <-]|].
    destruct (IsActive p) eqn:Hact; cbn [negb]; [|by intros [= _ <-]].
    destruct (rand.Intn _ _) as [d rg]. case_decide.
    + set (s1 := set_TurnScore 0 _).
      destruct (nextTurn_active s1 (CurrentPlayer (state g))) as [c [-> N]];
        [done | done | by eapply active_here |].
      cbn. intros [= _ <-]. intros _ _. cbn.
      by destruct N as (k & _ & _ & Hc & _).
    + cbn. intros [= _ <-]. cbn. by apply (holder_active_fields (state g)).
  - destruct (Hold g playerID now) as [[r g1]|] eqn:E; [|done].
    cbn. intros [= <-]. revert E. unfold Hold.
    destruct (models.IsGameOver (state g)) eqn:Hover; [by intros [= _ <-]|].
    case_decide; [by intros [= _ <-]|].
    destruct (index _ _) as [p|] eqn:Hp; [cbn [mbind option_bind]|done].
    pose proof (index_lt _ _ _ Hp) as Hcur.
    case_decide; [by intros [= _ <-]|].
    destruct (IsActive p) eqn:Hact; cbn [negb]; [|by intros [= _ <-]].
    cbv zeta. case_decide.
    + intros [= _ <-]. by intros [=].
    + set (s1 := set_TurnScore 0 _).
      destruct (nextTurn_active s1 (CurrentPlayer (state g))) as [c [-> N]].
      { cbn -[len]. by rewrite len_insert. }
      { cbn -[len]. by rewrite len_insert. }
      { eapply active_here.
        - cbn. apply index_Some. split; [lia|].
          apply list_lookup_insert_eq. unfold len in Hcur. lia.
        - done. }
      cbn. intros [= _ <-]. intros _ _. cbn.
      by destruct N as (k & _ & _ & Hc & _).
  - destruct (RemovePlayer g playerID now) as [[r g1]|] eqn:E; [|done].
    cbn. intros [= <-].
    destruct (list_find (λ p, ID p = playerID) (Players (state g)))
      as [[i p]|] eqn:Hfind.
    + pose proof (departed_Players (state g) i p) as HP.
      pose proof (departed_CurrentPlayer (state g) i p) as HC.
      pose proof (departed_over (state g) i p) as HO.
      destruct (RemovePlayer_found g playerID now i p Hmax Hfind)
        as [[Hne E']|[[_ [c [N E']]]|[_ [_ E']]]];
        rewrite E' in E; injection E as _ <-; unfold holder_active; cbn.
      * rewrite HP, HC. intros Hover Hps.
        apply active_insert_other; [done|]. apply Hholder.
        -- destruct (models.IsGameOver (state g)); [|done].
           rewrite HO in Hover; done.
        -- intros Hnil. rewrite Hnil in Hps. done.
      * intros _ _. by destruct N as (k & _ & _ & Hc & _).
      * done.
    + rewrite RemovePlayer_unfold, Hfind in E. by injection E as _ <-.
Qed.

Lemma in_play_holder g : in_play g → holder_active (state g).
Proof.
  induction 1 as [winningScore w|g o now g' Hplay IH Hjoin Hstep].
  - intros _ Hps. done.
  - eapply apply_op_holder; [|done|done|done].
    by apply reachable_is_safe, in_play_reachable.
Qed.

(** X6. In every session reachable from a fresh one by operations that
    let only active participants in, as long as the session is not over
    and has participants, the turn index addresses a participant who is
    active. *)
Theorem in_play_turn_active (g : PigGame) :
  in_play g →
  models.IsGameOver (state g) = false →
  Players (state g) ≠ [] →
  ∃ p, index (Players (state g)) (CurrentPlayer (state g)) = Some p ∧
       IsActive p = true.
Proof. intros Hplay Hover Hps. by apply (in_play_holder g Hplay). Qed.

Lemma run_in_play ops : ∀ g g',
  in_play g → Forall (λ x, joins_active x.1) ops →
  run ops g = Some g' → in_play g'.
Proof.
  induction ops as [|[o now] ops IH]; intros g g' Hg Hops; cbn.
  - by intros [= <-].
  - destruct (apply_op g o now) as [g1|] eqn:E; [|done]. cbn.
    apply Forall_cons in Hops as [Ho Hops].
    apply IH; [|done]. by eapply in_play_step.
Qed.

Lemma bob_rolled_in_play : in_play bob_rolled.
Proof.
  apply (run_in_play bob_rolls (fresh 20)); [apply in_play_new| |].
  - repeat constructor.
  - apply run_default. exact I.
Qed.

Lemma in_play_turn_active_witness :
  ∃ p, index (Players (state bob_rolled)) (CurrentPlayer (state bob_rolled))
       = Some p ∧ IsActive p = true.
Proof.
  apply (in_play_turn_active bob_rolled bob_rolled_in_play).
  - reflexivity.
  - discriminate.
Defined.

(** The active participant who holds the turn is not refused. *)
Lemma holder_accepted g p now :
  models.IsGameOver (state g) = false →
  2 ≤ len (Players (state g)) ≤ int_max →
  index (Players (state g)) (CurrentPlayer (state g)) = Some p →
  IsActive p = true →
  (∃ v g', Roll g (ID p) now = Some ((v, None), g')) ∧
  (∃ g', Hold g (ID p) now = Some (None, g')).
Proof.
  intros Hover [H2 Hmax] Hp Hact.
  pose proof (index_lt _ _ _ Hp) as Hcur. split.
  - unfold Roll. rewrite Hover, decide_False by lia.
    rewrite Hp. cbn [mbind option_bind].
    rewrite decide_False by (intros H; by apply H).
    rewrite Hact. cbn [negb].
    destruct (rand.Intn _ _) as [d rg]. case_decide.
    + set (s1 := set_TurnScore 0 _).
      destruct (nextTurn_active s1 (CurrentPlayer (state g))) as [c [-> N]];
        [done | done | by eapply active_here |].
      cbn. by eexists _, _.
    + cbn. by eexists _, _.
  - unfold Hold. rewrite Hover, decide_False by lia.
    rewrite Hp. cbn [mbind option_bind].
    rewrite decide_False by (intros H; by apply H).
    rewrite Hact. cbn [negb]. cbv zeta. case_decide; [by eexists|].
    set (s1 := set_TurnScore 0 _).
    destruct (nextTurn_active s1 (CurrentPlayer (state g))) as [c [-> N]].
    { cbn -[len]. by rewrite len_insert. }
    { cbn -[len]. by rewrite len_insert. }
    { eapply active_here.
      - cbn. apply index_Some. split; [lia|].
        apply list_lookup_insert_eq. unfold len in Hcur. lia.
      - done. }
    cbn. by eexists.
Qed.

(** X7. In such a session, not over and with two participants or more,
    exactly the participant who holds the turn can act: [Roll] and [Hold]
    succeed for his identifier, and for every other identifier both fail
    with [ErrNotPlayerTurn] and change nothing. *)
Theorem only_turn_holder_acts (g : PigGame) :
  in_play g →
  models.IsGameOver (state g) = false →
  2 ≤ len (Players (state g)) →
  ∃ p,
    index (Players (state g)) (CurrentPlayer (state g)) = Some p ∧
    ∀ playerID now,
      (playerID = ID p →
         (∃ v g', Roll g playerID now = Some ((v, None), g')) ∧
         (∃ g', Hold g playerID now = Some (None, g'))) ∧
      (playerID ≠ ID p →
         Roll g playerID now = Some ((0, Some ErrNotPlayerTurn), g) ∧
         Hold g playerID now = Some (Some ErrNotPlayerTurn, g)).
Proof.
  intros Hplay Hover H2.
  destruct (in_play_holder g Hplay Hover) as (p & Hp & Hact).
  { intros Hnil. rewrite Hnil in H2. by lazy in H2. }
  pose proof (reachable_is_safe g (in_play_reachable g Hplay))
    as (_ & H4 & _).
  assert (len (Players (state g)) ≤ int_max) as Hmax by (unfold int_max; lia).
  pose proof (index_lt _ _ _ Hp) as Hcur.
  exists p. split; [done|]. intros playerID now.
  split; [intros ->; by apply holder_accepted|intros Hne; split].
  - unfold Roll. rewrite Hover, decide_False by lia.
    rewrite Hp. cbn [mbind option_bind].
    by rewrite decide_True by (intros Heq; by apply Hne).
  - unfold Hold. rewrite Hover, decide_False by lia.
    rewrite Hp. cbn [mbind option_bind].
    by rewrite decide_True by (intros Heq; by apply Hne).
Qed.

Lemma only_turn_holder_acts_witness :
  ∃ p,
    index (Players (state bob_rolled)) (CurrentPlayer (state bob_rolled))
    = Some p ∧
    ∀ playerID now,
      (playerID = ID p →
         (∃ v g', Roll bob_rolled playerID now = Some ((v, None), g')) ∧
         (∃ g', Hold bob_rolled playerID now = Some (None, g'))) ∧
      (playerID ≠ ID p →
         Roll bob_rolled playerID now
         = Some ((0, Some ErrNotPlayerTurn), bob_rolled) ∧
         Hold bob_rolled playerID now
         = Some (Some ErrNotPlayerTurn, bob_rolled)).
Proof.
  apply (only_turn_holder_acts bob_rolled bob_rolled_in_play).
  - reflexivity.
  - by lazy.
Defined.

(** ** Departures and the counts *)

Lemma RemovePlayer_Players g playerID now r g' i p :
  RemovePlayer g playerID now = Some (r, g') →
  list_find (λ p, ID p = playerID) (Players (state g)) = Some (i, p) →
  r = None ∧
  Players (state g') = <[i := set_IsActive false p]> (Players (state g)).
Proof.
  rewrite RemovePlayer_unfold. intros E Hfind. rewrite Hfind in E.
  cbv zeta in E. pose proof (departed_Players (state g) i p) as HP.
  case_decide.
  - destruct (nextTurn _) as [s1|] eqn:EN; [|done]. cbn in E.
    injection E as <- <-. cbn.
    apply nextTurn_frame in EN as (-> & _). done.
  - cbn in E. by injection E as <- <-.
Qed.

Lemma active_count_insert (ps : list Player) : ∀ (i : nat) p,
  ps !! i = Some p →
  (active_count (<[i := set_IsActive false p]> ps)
   + (if IsActive p then 1 else 0) = active_count ps)%nat.
Proof.
  induction ps as [|q ps IH]; intros [|i] p Hi; try done; cbn in Hi.
  - injection Hi as ->. change (<[0%nat := ?x]> (p :: ps)) with (x :: ps).
    rewrite !active_count_cons. cbn [IsActive set_IsActive].
    destruct (IsActive p); lia.
  - change (<[S i := ?x]> (q :: ps)) with (q :: <[i := x]> ps).
    rewrite !active_count_cons. specialize (IH i p Hi). lia.
Qed.

Lemma active_count_le ps : (active_count ps ≤ length ps)%nat.
Proof. unfold active_count. apply length_filter. Qed.

(** X8. A successful [RemovePlayer] keeps the number of participants and
    lowers the number of active participants by one when the participant
    was active, and not at all when he had left before; the number of
    active participants is never above the number of participants. *)
Theorem RemovePlayer_counts
    (g g' : PigGame) (playerID : string) (now : time) (i : nat) (p : Player) :
  list_find (λ p, ID p = playerID) (Players (state g)) = Some (i, p) →
  RemovePlayer g playerID now = Some (None, g') →
  GetPlayerCount g' = GetPlayerCount g ∧
  GetActivePlayerCount g'
  = GetActivePlayerCount g - (if IsActive p then 1 else 0) ∧
  0 ≤ GetActivePlayerCount g' ≤ GetPlayerCount g'.
Proof.
  intros Hfind E.
  destruct (RemovePlayer_Players _ _ _ _ _ _ _ E Hfind) as [_ HP].
  apply list_find_Some in Hfind as (Hi & _).
  unfold GetPlayerCount, GetActivePlayerCount.
  rewrite !activeCount_count, HP, len_insert.
  pose proof (active_count_insert _ _ _ Hi) as Hc.
  pose proof (active_count_le (<[i:=set_IsActive false p]> (Players (state g))))
    as Hle.
  rewrite length_insert in Hle. unfold len.
  destruct (IsActive p); lia.
Qed.

Lemma RemovePlayer_counts_witness :
  GetPlayerCount bob_left = GetPlayerCount bob_rolled ∧
  GetActivePlayerCount bob_left
  = GetActivePlayerCount bob_rolled - (if IsActive bob then 1 else 0) ∧
  0 ≤ GetActivePlayerCount bob_left ≤ GetPlayerCount bob_left.
Proof.
  apply (RemovePlayer_counts bob_rolled bob_left "b" 6 1%nat bob).
  - reflexivity.
  - unfold bob_left.
    assert (bob_leaves.1 = None) as <- by reflexivity.
    rewrite <- surjective_pairing.
    apply (evaluates_default (RemovePlayer bob_rolled "b" 6)). exact I.
Defined.

(** ** Leaving twice *)

Lemma set_IsActive_false_again p :
  IsActive p = false → set_IsActive false p = p.
Proof. destruct p. cbn. by intros ->. Qed.

(** A state in which the departure of the participant at [i] has been
    recorded, and the end of the game too if it is due, is left as it is by
    recording them again. *)
Lemma departed_fixed s i p0 :
  Players s !! i = Some p0 → IsActive p0 = false →
  (activeCount (Players s) ≤ 1 ∧ 1 < len (Players s) →
   models.IsGameOver s = true ∧
   ∀ w, firstActive (Players s) = Some w → Winner s = Some w) →
  departed s i p0 = s.
Proof.
  intros Hi Hoff Hfire. unfold departed. cbv zeta.
  rewrite set_IsActive_false_again by done.
  cbn [Players set_Players]. rewrite list_insert_id by done.
  assert (set_Players (Players s) s = s) as -> by (by destruct s).
  case_decide as Hc; [|done].
  destruct (Hfire Hc) as [Hover Hwin].
  assert (set_IsGameOver true s = s) as ->.
  { destruct s. cbn in *. by subst. }
  destruct (firstActive (Players s)) as [w|] eqn:Hw; [|done].
  specialize (Hwin w eq_refl). destruct s. cbn in *. by subst.
Qed.

Lemma departed_fires s i p :
  let d := departed s i p in
  activeCount (Players d) ≤ 1 ∧ 1 < len (Players d) →
  models.IsGameOver d = true ∧
  ∀ w, firstActive (Players d) = Some w → Winner d = Some w.
Proof.
  intros d [Hc Hl].
  destruct (departed_ends s i p) as (Hover & Hwin & _).
  { fold d. rewrite activeCount_count in Hc. lia. }
  { fold d. lia. }
  split; [done|]. intros w Hw. apply Hwin. by apply firstActive_Some.
Qed.

(** X9. Leaving twice is leaving once: after a successful [RemovePlayer],
    a second [RemovePlayer] for the same identifier succeeds and changes
    nothing but the last-activity timestamp. *)
Theorem RemovePlayer_twice
    (g g1 : PigGame) (playerID : string) (now now' : time) :
  len (Players (state g)) ≤ int_max →
  RemovePlayer g playerID now = Some (None, g1) →
  RemovePlayer g1 playerID now' = Some (None, touch now' g1).
Proof.
  intros Hmax E.
  destruct (list_find (λ p, ID p = playerID) (Players (state g)))
    as [[i p]|] eqn:Hfind;
    [|by rewrite RemovePlayer_unfold, Hfind in E].
  set (d := departed (state g) i p).
  set (p0 := set_IsActive false p).
  pose proof (departed_Players (state g) i p) as HP. fold d p0 in HP.
  pose proof (departed_CurrentPlayer (state g) i p) as HC. fold d in HC.
  pose proof (departed_fires (state g) i p) as HF. cbv zeta in HF. fold d in HF.
  pose proof Hfind as (Hi & Hid & Hfirst)%list_find_Some.
  pose proof (lookup_lt_Some _ _ _ Hi) as Hlt.
  assert (Players d !! i = Some p0) as Hi0.
  { rewrite HP. by apply list_lookup_insert_eq. }
  assert (list_find (λ p, ID p = playerID) (Players d) = Some (i, p0)) as Hfind'.
  { apply list_find_Some. split; [done|]. split; [done|].
    intros j q Hq Hj. rewrite HP, list_lookup_insert_ne in Hq by lia.
    by eapply Hfirst. }
  assert (∀ s1, Players s1 = Players d → CurrentPlayer s1 ≠ Z.of_nat i →
            (activeCount (Players d) ≤ 1 ∧ 1 < len (Players d) →
             models.IsGameOver s1 = true ∧
             ∀ w, firstActive (Players d) = Some w → Winner s1 = Some w) →
            RemovePlayer {| state := s1; rng := rng g |} playerID now'
            = Some (None, touch now' {| state := s1; rng := rng g |}))
    as Hoff.
  { intros s1 Hps Hcur Hfire. rewrite RemovePlayer_unfold. cbn [state].
    rewrite Hps, Hfind'. cbv zeta.
    rewrite departed_fixed; [|by rewrite Hps|done|by rewrite Hps].
    by rewrite decide_False by done. }
  destruct (RemovePlayer_found g playerID now i p Hmax Hfind)
    as [[Hne E']|[[Hcur [c [N E']]]|[Hcur [Hnone E']]]];
    rewrite E' in E; injection E as <-; fold d.
  - apply (Hoff (set_LastActivityAt now d)); [done| |done].
    cbn. rewrite HC. done.
  - apply (Hoff (set_LastActivityAt now (set_LastRoll 0 (set_CurrentPlayer c d))));
      [done| |done].
    cbn. intros ->. destruct N as (k & _ & _ & Hact & _).
    apply active_nat in Hact as (q & Hq & Hq'). fold d in Hq.
    rewrite Hi0 in Hq. by injection Hq as <-.
  - rewrite RemovePlayer_unfold. cbn [state set_state].
    change (Players (set_LastActivityAt now (set_IsGameOver true d)))
      with (Players d).
    rewrite Hfind'. cbv zeta.
    rewrite departed_fixed; [|done|done|].
    2:{ intros Hc. split; [done|]. by apply HF. }
    rewrite decide_True by (cbn; by rewrite HC).
    destruct (nextTurn_spec (set_LastActivityAt now (set_IsGameOver true d)))
      as [[c [_ N]]|[-> _]].
    + cbn -[len]. rewrite HC, <- Hcur, HP, len_insert. unfold len. lia.
    + cbn -[len]. by rewrite HP, len_insert.
    + destruct N as (k & _ & _ & Hact & _). by destruct (Hnone _ Hact).
    + done.
Qed.

Lemma RemovePlayer_twice_witness :
  RemovePlayer bob_left "b" 7 = Some (None, touch 7 bob_left).
Proof.
  apply (RemovePlayer_twice bob_rolled bob_left "b" 6 7).
  - by lazy.
  - unfold bob_left.
    assert (bob_leaves.1 = None) as <- by reflexivity.
    rewrite <- surjective_pairing.
    apply (evaluates_default (RemovePlayer bob_rolled "b" 6)). exact I.
Defined.

(** ** The participant whose turn it is *)

(** X10. [GetCurrentPlayer] never reads out of range.  In a session in
    play it returns: nil exactly when there is no participant, and
    otherwise the participant at the turn index, who is active as long as
    the session is not over. *)
Theorem GetCurrentPlayer_in_play (g : PigGame) :
  in_play g →
  ∃ r, GetCurrentPlayer g = Some r ∧
       (r = None ↔ Players (state g) = []) ∧
       ∀ i : nat, r = Some i →
         Z.of_nat i = CurrentPlayer (state g) ∧
         ∃ p, Players (state g) !! i = Some p ∧
              (models.IsGameOver (state g) = false → IsActive p = true).
Proof.
  intros Hplay.
  pose proof (reachable_is_safe g (in_play_reachable g Hplay))
    as (_ & _ & Hturn).
  pose proof (in_play_holder g Hplay) as Hholder.
  unfold GetCurrentPlayer, turn_valid, holder_active, len in *.
  destruct (Players (state g)) as [|p0 ps] eqn:Hps.
  - exists None. cbn. split; [done|]. split; done.
  - rewrite decide_False by (cbn [length]; lia).
    destruct (index_is_Some (p0 :: ps) (CurrentPlayer (state g)))
      as [p Hp]; [unfold len; cbn [length] in *; lia|].
    rewrite Hp. cbn [mbind option_bind]. eexists. split; [done|].
    split; [done|]. intros i [= <-]. split; [lia|].
    apply index_Some in Hp as [_ Hp]. exists p. split; [done|].
    intros Hover. destruct (Hholder Hover) as (q & Hq & Hact); [done|].
    apply index_Some in Hq as [_ Hq]. congruence.
Qed.

Lemma GetCurrentPlayer_in_play_witness :
  ∃ r, GetCurrentPlayer bob_rolled = Some r ∧
       (r = None ↔ Players (state bob_rolled) = []) ∧
       ∀ i : nat, r = Some i →
         Z.of_nat i = CurrentPlayer (state bob_rolled) ∧
         ∃ p, Players (state bob_rolled) !! i = Some p ∧
              (models.IsGameOver (state bob_rolled) = false →
               IsActive p = true).
Proof. exact (GetCurrentPlayer_in_play bob_rolled bob_rolled_in_play). Defined.

(** ** Totals and the target *)

Lemma below_target_new winningScore w :
  below_target (state (NewPigGame winningScore w).1).
Proof.
  unfold NewPigGame, NewGameState. cbn. split; [|by constructor].
  cbn. case_decide; lia.
Qed.

(** An operation that lets only participants without points in keeps the
    totals below the target while the session is not over. *)
Lemma apply_op_below g o now g' :
  below_target (state g) →
  (∀ player, o = OpAddPlayer player → Score player = 0) →
  apply_op g o now = Some g' → below_target (state g').
Proof.
  intros [Hpos Hbelow] Hjoin Hop.
  assert ((∃ id, o = OpHold id) ∨ ¬ ∃ id, o = OpHold id)
    as [[id ->]|Hother].
  { destruct o; first [by left; eexists|by right; intros [? ?]]. }
  { cbn in Hop. unfold Hold in Hop.
    destruct (models.IsGameOver (state g)) eqn:Hnot.
    { cbn in Hop. injection Hop as <-. split; [done|]. congruence. }
    specialize (Hbelow eq_refl).
    assert (below_target (state g)) as Hsame by (by split).
    case_decide; [cbn in Hop; by injection Hop as <-|].
    destruct (index _ _) as [q|] eqn:Hq; [|done].
    cbn [mbind option_bind] in Hop.
    case_decide; [cbn in Hop; by injection Hop as <-|].
    destruct (IsActive q); [|cbn in Hop; by injection Hop as <-].
    cbn [negb] in Hop. cbv zeta in Hop.
    case_decide as Hwin; [cbn in Hop; by injection Hop as <-|].
    destruct (nextTurn _) as [s2|] eqn:Hnext; [|done].
    cbn in Hop. injection Hop as <-.
    apply nextTurn_frame in Hnext as (HP & _ & _ & HW & _).
    cbn in HP, HW, Hwin. cbn. unfold below_target. rewrite HP, HW.
    split; [done|]. intros _.
    apply Forall_insert; [done|]. cbn. lia. }
  destruct (apply_op_effect _ _ _ _ Hop) as (Hover & Hws & Hps).
  cbn zeta in Hover, Hws, Hps. split; [by rewrite Hws|].
  intros Hover'. rewrite Hws.
  assert (models.IsGameOver (state g) = false) as Hnot.
  { destruct (models.IsGameOver (state g)); [|done].
    rewrite Hover in Hover' by done. done. }
  specialize (Hbelow Hnot).
  destruct Hps as [->|[(q & -> & -> & _)
    |[(id & q & -> & _)|(id & i & q & -> & Hi & Hidq & ->)]]].
  - done.
  - apply Forall_app. split; [done|]. apply Forall_singleton.
    rewrite (Hjoin q) by done. done.
  - destruct Hother. by eexists.
  - apply Forall_insert; [done|]. cbn.
    by apply (Forall_lookup_1 _ _ _ _ Hbelow Hi).
Qed.

End game_more.

(** * Further properties of the match actor and of the match manager *)
Module server_more.

Import server server_spec server_props.

(** ** A join the game accepts *)

Lemma AddPlayer_accepted g player now :
  models.IsGameOver (game.state g) = false →
  len (models.Players (game.state g)) < 4 →
  ¬ Exists (λ p, models.ID p = models.ID player)
      (models.Players (game.state g)) →
  game.AddPlayer g player now
  = (None,
     game.set_state
       (models.set_LastActivityAt now
          (models.set_Players (models.Players (game.state g) ++ [player])
             (game.state g))) g).
Proof.
  intros Hover Hlen Hdup. unfold game.AddPlayer.
  rewrite Hover, decide_False by lia. by rewrite decide_False.
Qed.

(** The messages sent in a list of effects, read off the list. *)
Ltac sends :=
  let H := fresh in
  intros ? ?; rewrite !elem_of_cons, elem_of_nil; split;
  [ intros H; repeat (destruct H as [H|H]; try done); by injection H as -> ->
  | intros [-> ->]; right; by left ].

Ltac no_start_error :=
  let H := fresh in
  let err := fresh in
  intros err; rewrite !elem_of_cons, elem_of_nil; intros H;
  repeat (destruct H as [H|H]; try done); injection H as H; by destruct err.

(** X11. When the game accepts the participant of the connection (it is
    not over, has fewer than four participants and none of that
    identifier), the join handler registers the connection under its
    identifier, appends to the game an active participant with the
    identifier and the name of the connection and no points, sends the
    connection, and nobody else, one message of type joined with the
    snapshot that lists the newcomer, and queues one update for broadcast.
    The match is started afterwards exactly when it was before or the game
    has two participants now; a start message is queued exactly when the
    match starts with this join; and starting never fails. *)
Theorem handleRegister_accepted (m : Match) (conn : PlayerConnection) (w : World) :
  ¬ refused m conn →
  let newcomer :=
    {| models.ID := PlayerID conn; models.Name := PlayerName conn;
       models.Score := 0; models.IsActive := true |} in
  let participants := models.Players (game.state (Game m)) ++ [newcomer] in
  let starts := negb (IsStarted m) && bool_decide (2 ≤ len participants) in
  let '(m', effs, w') := handleRegister m conn w in
  ∃ joined update started,
    Players m' = <[PlayerID conn := conn]> (Players m) ∧
    models.Players (game.state (Game m')) = participants ∧
    (∀ c msg, SendTo c msg ∈ effs ↔ c = conn ∧ msg = joined) ∧
    models.MsgType joined = models.TypeJoined ∧
    models.MsgPlayerID joined = PlayerID conn ∧
    models.Players <$> models.MsgGameState joined = Some participants ∧
    IsStarted m' = IsStarted m || bool_decide (2 ≤ len participants) ∧
    Broadcast m'
    = Broadcast m ++ update :: (if starts then [started] else []) ∧
    models.MsgType update = models.TypeGameUpdate ∧
    (starts = true → models.MsgType started = models.TypeGameStart) ∧
    ∀ err, Log ("Error starting game: " +:+ game.Error err) ∉ effs.
Proof.
  intros Href. unfold refused in Href. cbv zeta in Href.
  assert (models.IsGameOver (game.state (Game m)) = false) as Hover.
  { destruct (models.IsGameOver _); [|done]. destruct Href. by left. }
  assert (len (models.Players (game.state (Game m))) < 4) as Hlen.
  { destruct (decide (len (models.Players (game.state (Game m))) < 4));
      [done|]. destruct Href. right. left. lia. }
  assert (¬ Exists (λ p, models.ID p = PlayerID conn)
              (models.Players (game.state (Game m)))) as Hdup.
  { intros H. destruct Href. by right; right. }
  intros newcomer participants starts. unfold handleRegister. cbn.
  change (models.set_ID _ _) with newcomer.
  rewrite (AddPlayer_accepted _ newcomer _ Hover Hlen Hdup).
  cbn. fold participants.
  unfold game.CanStart. cbn. fold participants.
  subst starts. rewrite (andb_comm (negb _)).
  destruct (bool_decide (2 ≤ len participants)) eqn:H2; cbn [andb];
    [destruct (IsStarted m) eqn:Hst; cbn [negb]|]; cbn.
  - eexists _, _, (models.NewMessage "" w).1. rewrite ?orb_true_r.
    split; [done|]. split; [done|]. split; [sends|].
    repeat split; try done. no_start_error.
  - unfold game.Start. cbn. fold participants.
    apply bool_decide_eq_true in H2.
    rewrite decide_False by lia. rewrite Hover. cbn. fold participants.
    eexists _, _, _. rewrite ?orb_true_r.
    split; [done|]. split; [done|]. split; [sends|].
    rewrite <- app_assoc. repeat split; try done. no_start_error.
  - eexists _, _, (models.NewMessage "" w).1. rewrite ?orb_false_r.
    split; [done|]. split; [done|]. split; [sends|].
    repeat split; try done. no_start_error.
Qed.

Lemma empty_lobby_accepts : ¬ refused empty_lobby.1 conn_a.
Proof.
  intros [H|[H|H]]; [done| by lazy in H |].
  by apply Exists_nil in H.
Qed.

Lemma handleRegister_accepted_witness :
  let newcomer :=
    {| models.ID := "a"; models.Name := "Alice";
       models.Score := 0; models.IsActive := true |} in
  let '(m', effs, w') := handleRegister empty_lobby.1 conn_a empty_lobby.2 in
  ∃ joined update started,
    Players m' = <["a" := conn_a]> (Players empty_lobby.1) ∧
    models.Players (game.state (Game m')) = [newcomer] ∧
    (∀ c msg, SendTo c msg ∈ effs ↔ c = conn_a ∧ msg = joined) ∧
    models.MsgType joined = models.TypeJoined ∧
    models.MsgPlayerID joined = "a" ∧
    models.Players <$> models.MsgGameState joined = Some [newcomer] ∧
    IsStarted m' = false ∧
    Broadcast m' = Broadcast empty_lobby.1 ++ update :: [] ∧
    models.MsgType update = models.TypeGameUpdate ∧
    (false = true → models.MsgType started = models.TypeGameStart) ∧
    ∀ err, Log ("Error starting game: " +:+ game.Error err) ∉ effs.
Proof.
  exact (handleRegister_accepted empty_lobby.1 conn_a empty_lobby.2
           empty_lobby_accepts).
Defined.

(** ** The invariant of the matches *)

Lemma refused_dec m conn : refused m conn ∨ ¬ refused m conn.
Proof.
  unfold refused.
  destruct (models.IsGameOver (game.state (Game m))); [by left; left|].
  destruct (decide (4 ≤ len (models.Players (game.state (Game m)))));
    [by left; right; left|].
  destruct (decide (Exists (λ p, models.ID p = PlayerID conn)
                      (models.Players (game.state (Game m)))));
    [by left; right; right|].
  right. intros [?|[?|?]]; done.
Qed.

(** The match a join leaves, in terms of the one it finds. *)
Lemma handleRegister_state m conn w :
  let m' := (handleRegister m conn w).1.1 in
  ID m' = ID m ∧ MaxPlayers m' = MaxPlayers m ∧
  ((refused m conn ∧ Game m' = Game m ∧
    Players m' = delete (PlayerID conn) (Players m) ∧
    IsStarted m' = IsStarted m) ∨
   (¬ refused m conn ∧
    Players m' = <[PlayerID conn := conn]> (Players m) ∧
    participants m' = participants m ++ [player_of conn] ∧
    IsStarted m'
    = IsStarted m || bool_decide (2 ≤ len (participants m')) ∧
    ∃ now g1,
      game_spec.apply_op (Game m) (game_spec.OpAddPlayer (player_of conn)) now
      = Some g1 ∧
      (Game m' = g1 ∨
       ∃ now', game_spec.apply_op g1 game_spec.OpStart now' = Some (Game m')))).
Proof.
  destruct (refused_dec m conn) as [Href|Hacc].
  - unfold handleRegister. cbn.
    match goal with |- context [game.AddPlayer ?g ?p ?t] =>
      destruct (AddPlayer_refused g p t Href) as [err ->] end.
    cbn. split; [done|]. split; [done|]. left.
    split; [done|]. split; [done|]. split; [|done].
    by rewrite delete_insert_eq.
  - assert (models.IsGameOver (game.state (Game m)) = false) as Hover.
    { destruct (models.IsGameOver (game.state (Game m))) eqn:E; [|done].
      destruct Hacc. by left. }
    assert (len (models.Players (game.state (Game m))) < 4) as Hlen.
    { destruct (decide (4 ≤ len (models.Players (game.state (Game m)))));
        [|lia]. destruct Hacc. by right; left. }
    assert (¬ Exists (λ p, models.ID p = PlayerID conn)
              (models.Players (game.state (Game m)))) as Hdup.
    { intros ?. destruct Hacc. by right; right. }
    unfold handleRegister. cbn.
    change (models.set_ID _ _) with (player_of conn).
    rewrite (AddPlayer_accepted _ (player_of conn) _ Hover Hlen Hdup). cbn.
    unfold game.CanStart, game.Start. cbn. rewrite Hover.
    split; [by repeat case_match|]. split; [by repeat case_match|]. right.
    split; [done|].
    destruct (decide (2 ≤ len (models.Players (game.state (Game m))
                               ++ [player_of conn]))) as [H2|H2].
    + rewrite (bool_decide_eq_true_2 _ H2). cbn.
      rewrite decide_False by lia.
      destruct (IsStarted m) eqn:Hst; cbn.
      * repeat split; try done.
        eexists _, _. split; [unfold game_spec.apply_op; by rewrite (AddPlayer_accepted _ (player_of conn) _ Hover Hlen Hdup)|].
        by left.
      * repeat split; try done.
        { unfold participants. cbn. by rewrite bool_decide_eq_true_2. }
        eexists _, _. split; [unfold game_spec.apply_op; by rewrite (AddPlayer_accepted _ (player_of conn) _ Hover Hlen Hdup)|].
        right. eexists. cbn. unfold game.Start. cbn.
        rewrite decide_False by lia. by rewrite Hover.
    + rewrite (bool_decide_eq_false_2 _ H2). cbn.
      repeat split; try done.
      { by rewrite bool_decide_eq_false_2, orb_false_r. }
      eexists _, _. split; [unfold game_spec.apply_op; by rewrite (AddPlayer_accepted _ (player_of conn) _ Hover Hlen Hdup)|].
      by left.
Qed.

(** The match a departure leaves. *)
Lemma handleUnregister_state m conn w m' effs cl w' :
  handleUnregister m conn w = Some (m', effs, cl, w') →
  ID m' = ID m ∧ MaxPlayers m' = MaxPlayers m ∧ IsStarted m' = IsStarted m ∧
  ((Players m !! PlayerID conn = None ∧ m' = m) ∨
   (is_Some (Players m !! PlayerID conn) ∧
    Players m' = delete (PlayerID conn) (Players m) ∧
    ∃ now,
      game_spec.apply_op (Game m) (game_spec.OpRemovePlayer (PlayerID conn)) now
      = Some (Game m'))).
Proof.
  unfold handleUnregister.
  destruct (Players m !! PlayerID conn) as [c|] eqn:Hc.
  2:{ intros [= <- <- <- <-]. repeat split; try done. by left. }
  cbn. rewrite game_props.RemovePlayer_unfold.
  destruct (list_find _ _) as [[i p]|] eqn:Hfind; cbn.
  - match goal with |- ((?o ≫= _) ≫= _) = _ → _ =>
      destruct o as [s|] eqn:Hs end; cbn; [|done].
    intros H.
    assert (∃ b, m' = set_Broadcast b
             (set_Game (game.set_state
                (models.set_LastActivityAt (clock w (S (clock_next w))) s)
                (Game m))
                (set_LastActivityAt (clock w (clock_next w))
                   (set_Players (delete (PlayerID conn) (Players m)) m))))
      as (b & ->).
    { repeat case_match; injection H as <- _ _ _; by eexists. }
    cbn. repeat split; try done. right. split; [done|]. split; [done|].
    exists (clock w (S (clock_next w))).
    rewrite game_props.RemovePlayer_unfold, Hfind. cbn. by rewrite Hs.
  - intros H.
    assert (∃ b, m' = set_Broadcast b
             (set_LastActivityAt (clock w (clock_next w))
                (set_Players (delete (PlayerID conn) (Players m)) m)))
      as (b & ->).
    { repeat case_match; injection H as <- _ _ _; by eexists. }
    cbn. repeat split; try done. right. split; [done|]. split; [done|].
    exists 0. by rewrite game_props.RemovePlayer_unfold, Hfind.
Qed.

(** The match an action leaves. *)
Lemma handlePlayerAction_state m action w m' effs w' :
  handlePlayerAction m action w = Some (m', effs, w') →
  ID m' = ID m ∧ MaxPlayers m' = MaxPlayers m ∧ IsStarted m' = IsStarted m ∧
  Players m' = Players m ∧
  (Game m' = Game m ∨
   ∃ o now,
     (o = game_spec.OpRoll (models.PlayerID action) ∨
      o = game_spec.OpHold (models.PlayerID action)) ∧
     game_spec.apply_op (Game m) o now = Some (Game m')).
Proof.
  unfold handlePlayerAction. cbn.
  destruct (decide (models.Action action = models.ActionRoll)) as [Hr|Hr].
  - destruct (game.Roll _ _ _) as [[[v [e|]] g]|] eqn:E; cbn; [| |done].
    + by case_match; intros [= <- _ _]; repeat split; left.
    + case_match; intros [= <- _ _]; cbn; repeat split; try done;
        right; eexists _, _; (split; [by left|]); cbn; by rewrite E.
  - destruct (decide (models.Action action = models.ActionHold)) as [Hh|Hh].
    + destruct (game.Hold _ _ _) as [[[e|] g]|] eqn:E; cbn; [| |done].
      * by case_match; intros [= <- _ _]; repeat split; left.
      * case_match; intros [= <- _ _]; cbn; repeat split; try done;
          right; eexists _, _; (split; [by right|]); cbn; by rewrite E.
    + cbn. intros [= <- _ _]. repeat split; by left.
Qed.

(** An operation other than the departure of a participant leaves that
    participant in place and as active as it was. *)
Lemma apply_op_keeps g o now g' playerID (j : nat) p :
  game_spec.apply_op g o now = Some g' →
  o ≠ game_spec.OpRemovePlayer playerID →
  models.Players (game.state g) !! j = Some p →
  models.ID p = playerID → models.IsActive p = true →
  ∃ p', models.Players (game.state g') !! j = Some p' ∧
        models.ID p' = playerID ∧ models.IsActive p' = true.
Proof.
  intros Hop Ho Hj Hid Hact.
  destruct (game_more.apply_op_effect _ _ _ _ Hop) as (_ & _ & Hps).
  cbn in Hps.
  destruct Hps as [->|[(q & -> & -> & _)
    |[(id & q & -> & Hq & Hidq & Hactq & ->)
     |(id & i & q & -> & Hi & Hidq & ->)]]].
  - eauto.
  - exists p. rewrite lookup_app_l by (by eapply lookup_lt_Some). done.
  - apply game_props.index_Some in Hq as [_ Hq].
    destruct (decide (j = Z.to_nat (models.CurrentPlayer (game.state g))))
      as [->|Hne].
    + rewrite Hq in Hj. injection Hj as ->. eexists.
      rewrite list_lookup_insert_eq by (by eapply lookup_lt_Some). done.
    + exists p. by rewrite list_lookup_insert_ne.
  - destruct (decide (j = i)) as [->|Hne].
    + rewrite Hi in Hj. injection Hj as ->. congruence.
    + exists p. by rewrite list_lookup_insert_ne.
Qed.

(** Only a join changes the number of participants. *)
Lemma apply_op_len g o now g' :
  game_spec.apply_op g o now = Some g' →
  (∀ player, o ≠ game_spec.OpAddPlayer player) →
  len (models.Players (game.state g')) = len (models.Players (game.state g)).
Proof.
  intros Hop Ho.
  destruct (game_more.apply_op_effect _ _ _ _ Hop) as (_ & _ & Hps).
  cbn in Hps.
  destruct Hps as [->|[(q & -> & _)
    |[(id & q & -> & _ & _ & _ & ->)|(id & i & q & -> & _ & _ & ->)]]];
    [done|by destruct (Ho q)|by rewrite game_more.len_insert..].
Qed.

Lemma match_inv_new gameID winningScore w :
  match_inv (NewMatch gameID winningScore w).1.
Proof.
  split; [done|]. split; [apply game_spec.in_play_new|]. split; [|done].
  intros id c H. done.
Qed.

Lemma match_inv_step m ev w m' w' :
  match_inv m → handle m ev w = Some (m', w') → match_inv m'.
Proof.
  intros (Hmax & Hplay & Hconn & Hst) Hev. destruct ev as [conn|conn|action|].
  - unfold handle in Hev.
    pose proof (handleRegister_state m conn w) as Hreg.
    destruct (handleRegister m conn w) as [[m1 effs] w1].
    cbn in Hev. injection Hev as -> ->. cbn in Hreg.
    destruct Hreg as (_ & Hmax' & [(_ & Hg & Hps & Hst')
      |(_ & Hps & Hpart & Hst' & now & g1 & Hadd & Hg)]).
    + split; [congruence|]. split; [congruence|]. split.
      * intros id c Hc. rewrite Hps in Hc.
        apply lookup_delete_Some in Hc as [_ Hc].
        unfold participants. rewrite Hg. by apply Hconn.
      * unfold participants. by rewrite Hst', Hg.
    + split; [congruence|]. split; [|split].
      * assert (game_spec.in_play g1) as Hg1.
        { eapply (game_spec.in_play_step _
                    (game_spec.OpAddPlayer (player_of conn)));
            [done|done|exact Hadd]. }
        destruct Hg as [->|[now' Hstart]]; [done|].
        eapply (game_spec.in_play_step g1 game_spec.OpStart);
          [done|done|exact Hstart].
      * intros id c Hc. rewrite Hps in Hc. rewrite Hpart.
        apply lookup_insert_Some in Hc as [[<- <-]|[Hne Hc]].
        { split; [done|].
          exists (length (participants m)), (player_of conn).
          rewrite lookup_app_r by done. by rewrite Nat.sub_diag. }
        destruct (Hconn _ _ Hc) as (Hid & j & p & Hj & Hp & Hact).
        split; [done|]. exists j, p.
        rewrite lookup_app_l by (by eapply lookup_lt_Some). done.
      * rewrite Hst', Hst, Hpart. unfold len. rewrite length_app. cbn.
        repeat case_bool_decide; try done; lia.
  - unfold handle in Hev.
    destruct (handleUnregister m conn w) as [[[[m1 effs] cl] w1]|] eqn:E;
      [|done].
    cbn in Hev. injection Hev as -> ->.
    destruct (handleUnregister_state _ _ _ _ _ _ _ E)
      as (_ & Hmax' & Hst' & [[_ ->]|(_ & Hps & now & Hop)]); [done|].
    split; [congruence|]. split.
    { eapply (game_spec.in_play_step _
                (game_spec.OpRemovePlayer (PlayerID conn)));
        [done|done|exact Hop]. }
    split.
    + intros id c Hc. rewrite Hps in Hc.
      apply lookup_delete_Some in Hc as [Hne Hc].
      destruct (Hconn _ _ Hc) as (Hid & j & p & Hj & Hp & Hact).
      split; [done|].
      destruct (apply_op_keeps _ _ _ _ id j p Hop) as (p' & ? & ? & ?);
        try done; [congruence|]. by exists j, p'.
    + unfold participants. rewrite Hst', Hst.
      by rewrite (apply_op_len _ _ _ _ Hop).
  - unfold handle in Hev.
    destruct (handlePlayerAction m action w) as [[[m1 effs] w1]|] eqn:E;
      [|done].
    cbn in Hev. injection Hev as -> ->.
    destruct (handlePlayerAction_state _ _ _ _ _ _ E)
      as (_ & Hmax' & Hst' & Hps & [Hg|(o & now & Ho & Hop)]).
    + split; [congruence|]. split; [congruence|]. split.
      * intros id c Hc. rewrite Hps in Hc. unfold participants.
        rewrite Hg. by apply Hconn.
      * unfold participants. by rewrite Hst', Hg.
    + split; [congruence|]. split.
      { eapply game_spec.in_play_step; [done| |done]. by destruct Ho as [->| ->]. }
      split.
      * intros id c Hc. rewrite Hps in Hc.
        destruct (Hconn _ _ Hc) as (Hid & j & p & Hj & Hp & Hact).
        split; [done|].
        destruct (apply_op_keeps _ _ _ _ id j p Hop) as (p' & ? & ? & ?);
          try done; [by destruct Ho as [->| ->]|]. by exists j, p'.
      * unfold participants. rewrite Hst', Hst.
        rewrite (apply_op_len _ _ _ _ Hop); [done|].
        by destruct Ho as [->| ->].
  - injection Hev as <- <-. done.
Qed.

Lemma match_reachable_inv m : match_reachable m → match_inv m.
Proof.
  induction 1 as [|m ev w m' w' _ IH Hev]; [apply match_inv_new|].
  by eapply match_inv_step.
Qed.

(** No more connections than participants. *)
Lemma connections_count m :
  match_inv m → (size (Players m) ≤ length (participants m))%nat.
Proof.
  intros (_ & Hplay & Hconn & _).
  pose proof (game_more.reachable_is_safe _
                (game_more.in_play_reachable _ Hplay)) as (Hnodup & _).
  rewrite <- (length_fmap models.ID), <- size_dom.
  rewrite <- (size_list_to_set (C := gset string)) by done.
  apply subseteq_size. intros id Hid.
  apply elem_of_dom in Hid as [c Hc].
  destruct (Hconn _ _ Hc) as (_ & j & p & Hj & <- & _).
  apply elem_of_list_to_set, list_elem_of_fmap. exists p. split; [done|].
  by eapply list_elem_of_lookup_2.
Qed.

Lemma joins_reachable conns : ∀ m w,
  match_reachable m → match_reachable (joins conns m w).1.
Proof.
  induction conns as [|conn conns IH]; intros m w Hm; [done|].
  unfold joins. cbn [foldl].
  destruct (handleRegister m conn w) as [[m1 effs] w1] eqn:E.
  apply IH. eapply (match_reachable_step m (Join conn) w m1 w1); [done|].
  unfold handle. by rewrite E.
Qed.

Lemma lobby_reachable : match_reachable lobby.1.
Proof.
  exact (joins_reachable [conn_a; conn_b] _ _
           (match_reachable_new "m" 20 game_spec.w0)).
Qed.

(** X12. Whatever joins, departures and actions the actor of a match has
    handled: every connection it has registered is registered under its
    own identifier and belongs to a participant of the game who is still
    active; there are no more connections than participants, and no more
    participants than the capacity of four, so that the match is full
    exactly with four connections; and the match is marked as started
    exactly when its game has the two participants it needs. *)
Theorem match_reachable_invariant (m : Match) :
  match_reachable m →
  connections_play m ∧
  GetPlayerCount m ≤ game.GetPlayerCount (Game m) ∧
  game.GetPlayerCount (Game m) ≤ MaxPlayers m ∧
  MaxPlayers m = 4 ∧
  IsFull m = bool_decide (GetPlayerCount m = 4) ∧
  IsStarted m = game.CanStart (Game m).
Proof.
  intros Hm. pose proof (match_reachable_inv _ Hm) as Hinv.
  pose proof (connections_count _ Hinv) as Hcount.
  destruct Hinv as (Hmax & Hplay & Hconn & Hst).
  pose proof (game_more.reachable_is_safe _
                (game_more.in_play_reachable _ Hplay)) as (_ & Hlen & _).
  split; [done|].
  unfold GetPlayerCount, IsFull, game.GetPlayerCount, game.CanStart.
  unfold participants, len in *. rewrite Hmax, Hst.
  split; [lia|]. split; [done|]. split; [done|].
  split; apply bool_decide_ext; lia.
Qed.

Lemma match_reachable_invariant_witness :
  connections_play lobby.1 ∧
  GetPlayerCount lobby.1 ≤ game.GetPlayerCount (Game lobby.1) ∧
  game.GetPlayerCount (Game lobby.1) ≤ MaxPlayers lobby.1 ∧
  MaxPlayers lobby.1 = 4 ∧
  IsFull lobby.1 = bool_decide (GetPlayerCount lobby.1 = 4) ∧
  IsStarted lobby.1 = game.CanStart (Game lobby.1).
Proof. exact (match_reachable_invariant lobby.1 lobby_reachable). Defined.

(** X13. The lobby hands a match out only until two have joined it.
    Whatever its actor has handled, [FindOrCreateMatch] returns the
    waiting room, and changes nothing, exactly when the game of the
    waiting room has fewer than two participants; with two or more it
    creates a match. *)
Theorem waiting_room_open_below_two
    (h : list Match) (mm : MatchManager) (l : loc) (room : Match)
    (winningScore : Z) (w : World) :
  match_reachable room → waitingRoom mm = Some l → h !! l = Some room →
  FindOrCreateMatch h mm winningScore w = Some (l, h, mm, [], w)
  ↔ game.GetPlayerCount (Game room) < 2.
Proof.
  intros Hm Hl Hroom. pose proof (match_reachable_inv _ Hm) as Hinv.
  pose proof (connections_count _ Hinv) as Hcount.
  destruct Hinv as (Hmax & _ & _ & Hst).
  unfold game.GetPlayerCount. unfold participants, len in *. split.
  - unfold FindOrCreateMatch. rewrite Hl, Hroom. cbn.
    destruct (IsStarted room) eqn:Hs; cbn.
    + intros H. discriminate H.
    + intros _. symmetry in Hst. apply bool_decide_eq_false_1 in Hst. lia.
  - intros Hlt. apply (FindOrCreateMatch_open _ _ _ _ l room).
    split; [done|]. split; [done|]. split; [|lia].
    rewrite Hst. apply bool_decide_eq_false_2. lia.
Qed.

Lemma waiting_room_open_below_two_witness :
  FindOrCreateMatch [lobby.1] (opened NewMatchManager 0%nat lobby.1) 20
    game_spec.w0
  = Some (0%nat, [lobby.1], opened NewMatchManager 0%nat lobby.1, [],
          game_spec.w0)
  ↔ game.GetPlayerCount (Game lobby.1) < 2.
Proof.
  exact (waiting_room_open_below_two [lobby.1]
           (opened NewMatchManager 0%nat lobby.1) 0%nat lobby.1 20
           game_spec.w0 lobby_reachable eq_refl eq_refl).
Defined.

(** ** Actions *)

Lemma Roll_not_Hold : models.ActionHold ≠ models.ActionRoll.
Proof. done. Qed.

(** The action handler on a verb it knows, once the verb is decided. *)
Ltac verb H :=
  unfold handlePlayerAction; cbn;
  first [ rewrite decide_False by (rewrite H; apply Roll_not_Hold);
          rewrite (decide_True _ _ H)
        | rewrite (decide_True _ _ H) ].

(** X14. An action the game refuses is answered in private.  When the
    game refuses the roll or hold of a participant, the action handler
    changes nothing of the match but its last-activity timestamp (the game
    and the broadcast queue are as before), and sends exactly one message,
    to the connection registered under the identifier of the action: of
    type error, carrying the text of the game's error and the identifier,
    and no snapshot.  With no connection registered under the identifier
    it sends nothing. *)
Theorem action_refused_privately
    (m : Match) (action : models.PlayerAction) (w : World)
    (err : game.error) :
  known action → rejects (Game m) (models.PlayerID action) err →
  ∃ errorMsg w',
    handlePlayerAction m action w
    = Some (set_LastActivityAt (clock w (clock_next w)) m,
            match Players m !! models.PlayerID action with
            | Some conn => [SendTo conn errorMsg]
            | None => []
            end, w') ∧
    models.MsgType errorMsg = models.TypeError ∧
    models.MsgError errorMsg = game.Error err ∧
    models.MsgPlayerID errorMsg = models.PlayerID action ∧
    models.MsgGameState errorMsg = None.
Proof.
  intros [Hverb|Hverb] Hrej; verb Hverb.
  - rewrite (proj1 (Hrej _)). cbn.
    destruct (Players m !! models.PlayerID action); [by eexists _, _|].
    by exists (models.set_MsgPlayerID (models.PlayerID action)
                 (models.set_MsgError (game.Error err)
                    (models.NewMessage models.TypeError w).1)); eexists.
  - rewrite (proj2 (Hrej _)). cbn.
    destruct (Players m !! models.PlayerID action); [by eexists _, _|].
    by exists (models.set_MsgPlayerID (models.PlayerID action)
                 (models.set_MsgError (game.Error err)
                    (models.NewMessage models.TypeError w).1)); eexists.
Qed.

(** Who does not hold the turn is refused, with that error. *)
Lemma not_holder_rejected g p playerID :
  models.IsGameOver (game.state g) = false →
  2 ≤ len (models.Players (game.state g)) →
  index (models.Players (game.state g)) (models.CurrentPlayer (game.state g))
  = Some p →
  models.ID p ≠ playerID →
  rejects g playerID game.ErrNotPlayerTurn.
Proof.
  intros Hover H2 Hp Hne now.
  split; [unfold game.Roll|unfold game.Hold];
    rewrite Hover, decide_False by lia; rewrite Hp; cbn [mbind option_bind];
    by rewrite decide_True by done.
Qed.

Lemma lobby_rejects_b : rejects (Game lobby.1) "b" game.ErrNotPlayerTurn.
Proof. by apply (not_holder_rejected _ game_spec.alice). Qed.

Lemma action_refused_privately_witness :
  ∃ errorMsg w',
    handlePlayerAction lobby.1 roll_b lobby.2
    = Some (set_LastActivityAt (clock lobby.2 (clock_next lobby.2)) lobby.1,
            match Players lobby.1 !! "b" with
            | Some conn => [SendTo conn errorMsg]
            | None => []
            end, w') ∧
    models.MsgType errorMsg = models.TypeError ∧
    models.MsgError errorMsg = "it is not this player's turn" ∧
    models.MsgPlayerID errorMsg = "b" ∧
    models.MsgGameState errorMsg = None.
Proof.
  exact (action_refused_privately lobby.1 roll_b lobby.2
           game.ErrNotPlayerTurn (or_introl eq_refl) lobby_rejects_b).
Defined.

(** No message is sent in a list of effects, read off the list. *)
Ltac no_sends :=
  let H := fresh in
  intros ? ? H;
  repeat (apply elem_of_cons in H as [H|H]; [discriminate H|]);
  by apply elem_of_nil in H.

(** X15. An action the game accepts is told to everybody.  When the game
    accepts the roll or hold, the action handler keeps the game as the
    operation left it, sends nothing to any single connection, and queues
    exactly one message for broadcast: it names the participant and the
    verb, carries the snapshot of the game after the operation and, for a
    roll, the number rolled; its type is game over when the operation has
    ended the game, and game update otherwise. *)
Theorem action_accepted_broadcast
    (m : Match) (action : models.PlayerAction) (w : World)
    (g' : game.PigGame) (data : gmap string string) :
  accepts (Game m) action (clock w (S (S (clock_next w)))) g' data →
  ∃ msg effs w',
    handlePlayerAction m action w
    = Some (set_Broadcast (Broadcast m ++ [msg])
              (set_Game g' (set_LastActivityAt (clock w (clock_next w)) m)),
            effs, w') ∧
    (∀ c x, SendTo c x ∉ effs) ∧
    models.MsgType msg
    = (if game.IsGameOver g' then models.TypeGameOver
       else models.TypeGameUpdate) ∧
    models.MsgPlayerID msg = models.PlayerID action ∧
    models.MsgAction msg = models.Action action ∧
    models.MsgData msg = data ∧
    models.MsgGameState msg = Some (game.GetState g').
Proof.
  intros [(Hverb & roll & Hop & ->)|(Hverb & Hop & ->)];
    verb Hverb; rewrite Hop; cbn; unfold game.IsGameOver;
    destruct (models.IsGameOver (game.state g')); eexists _, _, _;
    (split; [done|]); (split; [no_sends|done]).
Qed.

Lemma lobby_accepts_hold :
  accepts (Game lobby.1) hold_a (clock lobby.2 (S (S (clock_next lobby.2))))
    alice_holds.2 (<["action" := "hold"]> ∅).
Proof.
  right. split; [done|]. split; [|done].
  assert (alice_holds.1 = None) as <- by reflexivity.
  rewrite <- surjective_pairing.
  apply (game_more.evaluates_default (game.Hold (Game lobby.1) "a" _)).
  exact I.
Qed.

Lemma action_accepted_broadcast_witness :
  ∃ msg effs w',
    handlePlayerAction lobby.1 hold_a lobby.2
    = Some (set_Broadcast (Broadcast lobby.1 ++ [msg])
              (set_Game alice_holds.2
                 (set_LastActivityAt (clock lobby.2 (clock_next lobby.2))
                    lobby.1)),
            effs, w') ∧
    (∀ c x, SendTo c x ∉ effs) ∧
    models.MsgType msg
    = (if game.IsGameOver alice_holds.2 then models.TypeGameOver
       else models.TypeGameUpdate) ∧
    models.MsgPlayerID msg = "a" ∧
    models.MsgAction msg = "hold" ∧
    models.MsgData msg = <["action" := "hold"]> ∅ ∧
    models.MsgGameState msg = Some (game.GetState alice_holds.2).
Proof.
  exact (action_accepted_broadcast lobby.1 hold_a lobby.2 alice_holds.2 _
           lobby_accepts_hold).
Defined.

(** X16. A started match enforces the turns.  In a match its actor has
    brought about, started and whose game is not over, a roll or hold from
    a registered connection is never dropped: the participant who holds the
    turn exists, and when the action carries his identifier the handler
    queues one message for broadcast, with the snapshot of the game after
    the operation, and sends nothing in private; for any other identifier
    the game and the broadcast queue stay as they are, and the registered
    connection alone is sent one error message, which says that it is not
    this player's turn. *)
Theorem started_match_enforces_turns
    (m : Match) (action : models.PlayerAction) (w : World)
    (conn : PlayerConnection) :
  match_reachable m → IsStarted m = true →
  game.IsGameOver (Game m) = false →
  known action → Players m !! models.PlayerID action = Some conn →
  ∃ holder m' effs w',
    index (participants m) (models.CurrentPlayer (game.state (Game m)))
    = Some holder ∧
    handlePlayerAction m action w = Some (m', effs, w') ∧
    (models.PlayerID action = models.ID holder →
     (∃ msg, Broadcast m' = Broadcast m ++ [msg] ∧
             models.MsgPlayerID msg = models.PlayerID action ∧
             models.MsgGameState msg = Some (game.GetState (Game m'))) ∧
     ∀ c x, SendTo c x ∉ effs) ∧
    (models.PlayerID action ≠ models.ID holder →
     Game m' = Game m ∧ Broadcast m' = Broadcast m ∧
     ∃ msg, effs = [SendTo conn msg] ∧
            models.MsgType msg = models.TypeError ∧
            models.MsgError msg = "it is not this player's turn").
Proof.
  intros Hm Hstarted Hover Hknown Hconn.
  destruct (match_reachable_inv _ Hm) as (_ & Hplay & _ & Hst).
  rewrite Hstarted in Hst. symmetry in Hst.
  apply bool_decide_eq_true_1 in Hst. unfold participants in *.
  pose proof (game_more.reachable_is_safe _
                (game_more.in_play_reachable _ Hplay)) as (_ & H4 & _).
  destruct (game_more.in_play_holder _ Hplay Hover) as (p & Hp & Hact).
  { intros Hnil. rewrite Hnil in Hst. by lazy in Hst. }
  exists p.
  destruct (decide (models.ID p = models.PlayerID action)) as [Hid|Hne].
  - destruct (game_more.holder_accepted (Game m) p
                (clock w (S (S (clock_next w)))) Hover)
      as ((v & g1 & Hroll) & (g2 & Hhold)); [unfold int_max; lia|done|done|].
    rewrite Hid in Hroll, Hhold.
    destruct Hknown as [Hverb|Hverb]; verb Hverb;
      [rewrite Hroll|rewrite Hhold]; cbn;
      case_match; eexists _, _, _; (split; [done|]); (split; [done|]);
      (split; [intros _; split; [by eexists|no_sends] | by intros []]).
  - pose proof (not_holder_rejected _ _ _ Hover Hst Hp Hne) as Hrej.
    destruct Hknown as [Hverb|Hverb]; verb Hverb;
      [rewrite (proj1 (Hrej _))|rewrite (proj2 (Hrej _))]; cbn;
      rewrite Hconn; eexists _, _, _; (split; [done|]); (split; [done|]);
      (split; [by intros ? | intros _; repeat split; by eexists]).
Qed.

Lemma started_match_enforces_turns_witness :
  ∃ holder m' effs w',
    index (participants lobby.1)
      (models.CurrentPlayer (game.state (Game lobby.1)))
    = Some holder ∧
    handlePlayerAction lobby.1 roll_b lobby.2 = Some (m', effs, w') ∧
    ("b" = models.ID holder →
     (∃ msg, Broadcast m' = Broadcast lobby.1 ++ [msg] ∧
             models.MsgPlayerID msg = "b" ∧
             models.MsgGameState msg = Some (game.GetState (Game m'))) ∧
     ∀ c x, SendTo c x ∉ effs) ∧
    ("b" ≠ models.ID holder →
     Game m' = Game lobby.1 ∧ Broadcast m' = Broadcast lobby.1 ∧
     ∃ msg, effs = [SendTo conn_b msg] ∧
            models.MsgType msg = models.TypeError ∧
            models.MsgError msg = "it is not this player's turn").
Proof.
  exact (started_match_enforces_turns lobby.1 roll_b lobby.2 conn_b
           lobby_reachable eq_refl eq_refl (or_introl eq_refl) eq_refl).
Defined.

(** ** Departures *)

(** The leave handler once the connection is found and [RemovePlayer] has
    answered. *)
Ltac leaves Hc Hrem :=
  unfold handleUnregister; rewrite Hc; cbn; rewrite Hrem; cbn.

(** X17. The departure of a registered connection.  When a connection is
    registered under the identifier of the connection passed, the leave
    handler deletes that entry, closes the channel of the connection
    passed (whichever connection was registered), applies [RemovePlayer]
    to the game, sends nothing to any single connection, and queues a
    message of type player left with the identifier and the snapshot of
    the game after the departure, followed, exactly when that game is
    over, by a message of type game over with the same snapshot. *)
Theorem departure_handled
    (m : Match) (conn c : PlayerConnection) (w : World)
    (r : option game.error) (g' : game.PigGame) :
  Players m !! PlayerID conn = Some c →
  game.RemovePlayer (Game m) (PlayerID conn) (clock w (S (clock_next w)))
  = Some (r, g') →
  ∃ m' effs w' leftMsg gameOverMsg,
    handleUnregister m conn w = Some (m', effs, [Send conn], w') ∧
    Players m' = delete (PlayerID conn) (Players m) ∧
    Game m' = g' ∧
    (∀ c x, SendTo c x ∉ effs) ∧
    Broadcast m'
    = Broadcast m
      ++ leftMsg :: (if game.IsGameOver g' then [gameOverMsg] else []) ∧
    models.MsgType leftMsg = models.TypePlayerLeft ∧
    models.MsgPlayerID leftMsg = PlayerID conn ∧
    models.MsgGameState leftMsg = Some (game.GetState g') ∧
    models.MsgType gameOverMsg = models.TypeGameOver ∧
    models.MsgGameState gameOverMsg = Some (game.GetState g').
Proof.
  intros Hc Hrem.
  assert (r ≠ None → g' = Game m) as Hsame.
  { rewrite game_props.RemovePlayer_unfold in Hrem.
    destruct (list_find _ _) as [[i p]|]; [|by injection Hrem as <- <-].
    cbn in Hrem. destruct (if decide _ then _ else _); [|done].
    by injection Hrem as <- <-. }
  leaves Hc Hrem. unfold game.IsGameOver.
  destruct r as [err|].
  - rewrite Hsame by done. cbn.
    destruct (models.IsGameOver (game.state (Game m))) eqn:Hover.
    + eexists _, _, _, _, _. split; [done|]. cbn.
      rewrite <- app_assoc. repeat split; try done. no_sends.
    + eexists _, _, _, _,
        (models.set_MsgGameState (Some (game.GetState (Game m)))
           (models.NewMessage models.TypeGameOver w).1).
      split; [done|]. cbn. repeat split; try done. no_sends.
  - cbn. destruct (models.IsGameOver (game.state g')) eqn:Hover.
    + eexists _, _, _, _, _. split; [done|]. cbn.
      rewrite <- app_assoc. repeat split; try done. no_sends.
    + eexists _, _, _, _,
        (models.set_MsgGameState (Some (game.GetState g'))
           (models.NewMessage models.TypeGameOver w).1).
      split; [done|]. cbn. repeat split; try done. no_sends.
Qed.

Lemma bob_quits_eq :
  game.RemovePlayer (Game lobby.1) "b" (clock lobby.2 (S (clock_next lobby.2)))
  = Some (bob_quits.1, bob_quits.2).
Proof.
  rewrite <- surjective_pairing.
  apply (game_more.evaluates_default (game.RemovePlayer (Game lobby.1) "b" _)).
  exact I.
Qed.

Lemma departure_handled_witness :
  ∃ m' effs w' leftMsg gameOverMsg,
    handleUnregister lobby.1 conn_b lobby.2
    = Some (m', effs, [Send conn_b], w') ∧
    Players m' = delete "b" (Players lobby.1) ∧
    Game m' = bob_quits.2 ∧
    (∀ c x, SendTo c x ∉ effs) ∧
    Broadcast m'
    = Broadcast lobby.1
      ++ leftMsg
         :: (if game.IsGameOver bob_quits.2 then [gameOverMsg] else []) ∧
    models.MsgType leftMsg = models.TypePlayerLeft ∧
    models.MsgPlayerID leftMsg = "b" ∧
    models.MsgGameState leftMsg = Some (game.GetState bob_quits.2) ∧
    models.MsgType gameOverMsg = models.TypeGameOver ∧
    models.MsgGameState gameOverMsg = Some (game.GetState bob_quits.2).
Proof.
  exact (departure_handled lobby.1 conn_b conn_b lobby.2 bob_quits.1
           bob_quits.2 eq_refl bob_quits_eq).
Defined.

(** Somebody is active where the count of the active is not zero. *)
Lemma active_count_ex ps :
  (1 ≤ game_spec.active_count ps)%nat →
  ∃ j : nat, game_spec.active ps (Z.of_nat j).
Proof.
  induction ps as [|p ps IH]; [unfold game_spec.active_count; cbn; lia|].
  rewrite game_props.active_count_cons.
  destruct (models.IsActive p) eqn:Hp.
  - intros _. exists 0%nat. exists p. by rewrite game_props.index_of_nat.
  - intros H. destruct IH as [j Hj]; [lia|]. exists (S j).
    by apply game_props.active_S.
Qed.

(** Participants of one identifier are one participant, identifiers being
    pairwise distinct. *)
Lemma same_ID_same_place (ps : list models.Player) (i j : nat) p q :
  NoDup (models.ID <$> ps) → ps !! i = Some p → ps !! j = Some q →
  models.ID p = models.ID q → i = j.
Proof.
  intros Hnodup Hi Hj Hid.
  apply (NoDup_lookup _ i j (models.ID p) Hnodup);
    rewrite list_lookup_fmap; [by rewrite Hi|by rewrite Hj, Hid].
Qed.

(** X18. The departure that leaves one.  In a match its actor has brought
    about, when a registered connection leaves a game of two participants
    or more of whom just two are still active, the game is over
    afterwards, its winner is the one participant still active, who is not
    the one who left, and two messages are queued for broadcast: a player
    left and a game over, both with the snapshot that names the winner. *)
Theorem departure_leaves_winner
    (m : Match) (conn c : PlayerConnection) (w : World) :
  match_reachable m →
  Players m !! PlayerID conn = Some c →
  2 ≤ game.GetPlayerCount (Game m) →
  game.GetActivePlayerCount (Game m) = 2 →
  ∃ m' effs w' (j : nat) q leftMsg gameOverMsg,
    handleUnregister m conn w = Some (m', effs, [Send conn], w') ∧
    game.IsGameOver (Game m') = true ∧
    game.GetWinner (Game m') = Some j ∧
    participants m' !! j = Some q ∧
    models.IsActive q = true ∧ models.ID q ≠ PlayerID conn ∧
    (∀ (k : nat) q', participants m' !! k = Some q' →
                     models.IsActive q' = true → k = j) ∧
    Broadcast m' = Broadcast m ++ [leftMsg; gameOverMsg] ∧
    models.MsgType leftMsg = models.TypePlayerLeft ∧
    models.MsgType gameOverMsg = models.TypeGameOver ∧
    models.MsgGameState gameOverMsg = Some (game.GetState (Game m')).
Proof.
  intros Hm Hc H2 Hactive.
  destruct (match_reachable_inv _ Hm) as (_ & Hplay & Hconn & _).
  pose proof (game_more.reachable_is_safe _
                (game_more.in_play_reachable _ Hplay)) as (Hnodup & H4 & _).
  destruct (Hconn _ _ Hc) as (_ & i & p & Hi & Hid & Hact).
  unfold participants, game.GetPlayerCount, game.GetActivePlayerCount in *.
  rewrite game_props.activeCount_count in Hactive.
  destruct (game_props.RemovePlayer_present (Game m) (PlayerID conn)
              (clock w (S (clock_next w))) i p)
    as (g' & Hrem & Hps & _ & _ & Hend); [unfold int_max; lia|done|done| |].
  { intros j q Hj Hlt Hq.
    assert (j = i) by (eapply same_ID_same_place; eauto; congruence). lia. }
  cbn zeta in Hps, Hend.
  pose proof (game_more.active_count_insert _ _ _ Hi) as Hcount.
  rewrite Hact, <- Hps in Hcount.
  destruct Hend as (Hover & Hwin & _);
    [lia|by rewrite Hps, game_more.len_insert|].
  destruct (active_count_ex (models.Players (game.state g'))) as [j Hj];
    [lia|].
  pose proof (Hwin _ Hj) as Hwinner.
  pose proof Hj as Hj'. apply game_props.active_nat in Hj' as (q & Hq & Hqact).
  leaves Hc Hrem. unfold game.IsGameOver. rewrite Hover.
  eexists _, _, _, j, q, _, _. split; [done|]. cbn.
  rewrite <- app_assoc. repeat split; try done.
  - intros Hqid. rewrite Hps in Hq.
    destruct (decide (j = i)) as [->|Hne].
    + rewrite list_lookup_insert_eq in Hq by (by eapply lookup_lt_Some).
      injection Hq as <-. done.
    + rewrite list_lookup_insert_ne in Hq by done.
      destruct Hne. eapply same_ID_same_place; eauto. congruence.
  - intros k q' Hk Hk'.
    apply (game_props.active_count_unique (models.Players (game.state g')));
      [lia| |done].
    apply game_props.active_nat. eauto.
Qed.

Lemma departure_leaves_winner_witness :
  ∃ m' effs w' (j : nat) q leftMsg gameOverMsg,
    handleUnregister lobby.1 conn_b lobby.2
    = Some (m', effs, [Send conn_b], w') ∧
    game.IsGameOver (Game m') = true ∧
    game.GetWinner (Game m') = Some j ∧
    participants m' !! j = Some q ∧
    models.IsActive q = true ∧ models.ID q ≠ "b" ∧
    (∀ (k : nat) q', participants m' !! k = Some q' →
                     models.IsActive q' = true → k = j) ∧
    Broadcast m' = Broadcast lobby.1 ++ [leftMsg; gameOverMsg] ∧
    models.MsgType leftMsg = models.TypePlayerLeft ∧
    models.MsgType gameOverMsg = models.TypeGameOver ∧
    models.MsgGameState gameOverMsg = Some (game.GetState (Game m')).
Proof.
  apply (departure_leaves_winner lobby.1 conn_b conn_b lobby.2 lobby_reachable).
  - reflexivity.
  - by lazy.
  - reflexivity.
Defined.

(** X19. A connection leaves once.  After the leave handler has handled a
    connection, whether it was registered or not, handling the same
    connection again changes nothing and closes no channel: a channel is
    not closed a second time. *)
Theorem departure_once
    (m : Match) (conn : PlayerConnection) (w w2 : World)
    (r : Match * list effect * list nat * World) :
  handleUnregister m conn w = Some r →
  handleUnregister r.1.1.1 conn w2 = Some (r.1.1.1, [], [], w2).
Proof.
  destruct r as [[[m' effs] cl] w']. intros Hleave. cbn.
  destruct (handleUnregister_state _ _ _ _ _ _ _ Hleave)
    as (_ & _ & _ & [[Hnone ->]|(_ & Hps & _)]).
  - unfold handleUnregister. by rewrite Hnone.
  - unfold handleUnregister. by rewrite Hps, lookup_delete_eq.
Qed.

Lemma departure_once_witness :
  handleUnregister bob_gone.1.1.1 conn_b lobby.2
  = Some (bob_gone.1.1.1, [], [], lobby.2).
Proof.
  apply (departure_once lobby.1 conn_b lobby.2 lobby.2 bob_gone).
  apply (game_more.evaluates_default (handleUnregister lobby.1 conn_b lobby.2)).
  exact I.
Defined.

(** ** The manager *)





(** *** The cleanup *)

Lemma stale_nil h now timeout id : ¬ stale h now timeout [] id.
Proof. intros (l & room & Hin & _). by apply elem_of_nil in Hin. Qed.

Lemma stale_cons h now timeout id0 l0 room0 entries id :
  h !! l0 = Some room0 →
  stale h now timeout ((id0, l0) :: entries) id ↔
  (id = id0 ∧ inactive now timeout room0 = true) ∨
  stale h now timeout entries id.
Proof.
  intros Hroom0. split.
  - intros (l & room & Hin & Hroom & Hold).
    apply elem_of_cons in Hin as [[= -> ->]|Hin].
    + left. rewrite Hroom0 in Hroom. by injection Hroom as ->.
    + right. by exists l, room.
  - intros [[-> Hold]|(l & room & Hin & Hroom & Hold)].
    + exists l0, room0. split; [by left|done].
    + exists l, room. split; [by right|done].
Qed.

(** What is left of the manager once the entry of [gameID] is dropped. *)
Lemma dropMatch_spec h mm gameID :
  (∀ l, waitingRoom mm = Some l → is_Some (h !! l)) →
  ∃ mm',
    dropMatch h mm gameID = Some mm' ∧
    matches mm' = delete gameID (matches mm) ∧
    ∀ l, waitingRoom mm' = Some l ↔
         waitingRoom mm = Some l ∧
         ∀ room, h !! l = Some room → ID room ≠ gameID.
Proof.
  intros Hwr. unfold dropMatch, isWaitingRoom.
  destruct (waitingRoom mm) as [lw|] eqn:Hw.
  - destruct (Hwr lw eq_refl) as [roomw Hroomw]. rewrite Hroomw. cbn.
    eexists. split; [done|]. cbn. split; [done|]. intros l.
    case_bool_decide as Hid.
    + split; [done|]. intros [[= ->] Hne]. by destruct (Hne _ Hroomw).
    + split; [|by intros [? _]]. intros [= ->].
      split; [done|]. intros room Hroom. rewrite Hroomw in Hroom.
      by injection Hroom as <-.
  - cbn. eexists. split; [done|]. cbn. split; [done|]. intros l.
    split; [done|by intros [? _]].
Qed.

(** The loop of the cleanup over a list of entries. *)
Lemma cleanup_loop h now timeout entries : ∀ mm0 effs0,
  (∀ id l, (id, l) ∈ entries → is_Some (h !! l)) →
  (∀ l, waitingRoom mm0 = Some l → is_Some (h !! l)) →
  ∃ mm' effs',
    foldl (cleanupEntry h now timeout) (Some (mm0, effs0)) entries
    = Some (mm', effs') ∧
    (∀ id l, matches mm' !! id = Some l ↔
             matches mm0 !! id = Some l ∧ ¬ stale h now timeout entries id) ∧
    (∀ l, waitingRoom mm' = Some l ↔
          waitingRoom mm0 = Some l ∧
          ∀ room, h !! l = Some room →
                  ¬ stale h now timeout entries (ID room)) ∧
    (∀ e, e ∈ effs' ↔
          e ∈ effs0 ∨
          ∃ id, stale h now timeout entries id ∧
                e = Log ("Cleaned up inactive match: " +:+ id)).
Proof.
  induction entries as [|[id0 l0] entries IH]; intros mm0 effs0 Hheap Hwr.
  { exists mm0, effs0. split; [done|]. split; [|split].
    - intros id l. split; [|by intros [? _]]. intros ?.
      split; [done|apply stale_nil].
    - intros l. split; [|by intros [? _]]. intros ?.
      split; [done|]. intros ? _. apply stale_nil.
    - intros e. split; [by left|]. intros [?|(id & Hst & _)]; [done|].
      by destruct (stale_nil _ _ _ _ Hst). }
  destruct (Hheap id0 l0) as [room0 Hroom0]; [by left|].
  assert (∀ id l, (id, l) ∈ entries → is_Some (h !! l)) as Hheap'.
  { intros id l Hin. apply (Hheap id). by right. }
  cbn [foldl]. unfold cleanupEntry at 2. cbn. rewrite Hroom0. cbn.
  destruct (inactive now timeout room0) eqn:Hold.
  - destruct (dropMatch_spec h mm0 id0 Hwr) as (mm1 & -> & Hm1 & Hw1). cbn.
    destruct (IH mm1
                (effs0 ++ [Log ("Cleaned up inactive match: " +:+ id0)])
                Hheap')
      as (mm' & effs' & -> & Hm & Hw & He).
    { intros l Hl. apply Hw1 in Hl as [Hl _]. by apply Hwr. }
    exists mm', effs'. split; [done|]. split; [|split].
    + intros id l. rewrite Hm, Hm1, lookup_delete_Some.
      rewrite (stale_cons _ _ _ _ _ _ _ _ Hroom0). split.
      * intros [[Hne Hl] Hst]. split; [done|].
        intros [[-> _]|?]; done.
      * intros [Hl Hst]. split; [split; [|done]|].
        -- intros <-. apply Hst. by left.
        -- intros ?. apply Hst. by right.
    + intros l. rewrite Hw, Hw1. split.
      * intros [[Hl Hne] Hst]. split; [done|]. intros room Hroom.
        rewrite (stale_cons _ _ _ _ _ _ _ _ Hroom0).
        intros [[Hid _]|?]; [by destruct (Hne _ Hroom)|].
        by destruct (Hst _ Hroom).
      * intros [Hl Hst]. split; [split; [done|]|].
        -- intros room Hroom Hid. apply (Hst _ Hroom).
           apply (stale_cons _ _ _ _ _ _ _ _ Hroom0). by left.
        -- intros room Hroom ?. apply (Hst _ Hroom).
           apply (stale_cons _ _ _ _ _ _ _ _ Hroom0). by right.
    + intros e. rewrite He, elem_of_app, list_elem_of_singleton. split.
      * intros [[? | ->] | (id & Hst & ->)].
        -- by left.
        -- right. exists id0. split; [|done].
           apply (stale_cons _ _ _ _ _ _ _ _ Hroom0). by left.
        -- right. exists id. split; [|done].
           apply (stale_cons _ _ _ _ _ _ _ _ Hroom0). by right.
      * intros [?|(id & Hst & ->)]; [by left; left|].
        apply (stale_cons _ _ _ _ _ _ _ _ Hroom0) in Hst
          as [[-> _]|Hst]; [by left; right|].
        right. by exists id.
  - destruct (IH mm0 effs0 Hheap' Hwr) as (mm' & effs' & -> & Hm & Hw & He).
    assert (∀ id, stale h now timeout ((id0, l0) :: entries) id
                  ↔ stale h now timeout entries id) as Hsame.
    { intros id. rewrite (stale_cons _ _ _ _ _ _ _ _ Hroom0).
      split; [|by right]. intros [[_ ?]|?]; [congruence|done]. }
    exists mm', effs'. split; [done|]. split; [|split].
    + intros id l. by rewrite Hm, Hsame.
    + intros l. rewrite Hw. split; intros [Hl Hst]; (split; [done|]);
        intros room Hroom ?; apply (Hst _ Hroom); by apply Hsame.
    + intros e. rewrite He. split; (intros [?|(id & Hst & ->)]; [by left|]);
        right; exists id; (split; [|done]); by apply Hsame.
Qed.

(** X22. [CleanupInactiveMatches] drops exactly the matches it finds
    inactive.  With every registered match on the heap the cleanup
    returns; afterwards [GetMatch] finds a match exactly when it found it
    before and the match, at the one reading of the clock, is neither idle
    for longer than the timeout nor over without connections; the waiting
    room is kept exactly when no match dropped was registered under its
    identifier; and one line is logged for every match dropped, and
    nothing else is done. *)
Theorem CleanupInactiveMatches_spec
    (h : list Match) (mm : MatchManager) (timeout : Z) (w : World) :
  on_heap h mm →
  ∃ mm' effs w',
    CleanupInactiveMatches h mm timeout w = Some (mm', effs, w') ∧
    clock_next w' = S (clock_next w) ∧
    (∀ id l, GetMatch mm' id = Some l ↔
             GetMatch mm id = Some l ∧
             ¬ expired h mm (clock w (clock_next w)) timeout id) ∧
    (∀ l, waitingRoom mm' = Some l ↔
          waitingRoom mm = Some l ∧
          ∀ room, h !! l = Some room →
                  ¬ expired h mm (clock w (clock_next w)) timeout (ID room)) ∧
    (∀ e, e ∈ effs ↔
          ∃ id, expired h mm (clock w (clock_next w)) timeout id ∧
                e = Log ("Cleaned up inactive match: " +:+ id)).
Proof.
  intros [Hheap Hwr]. unfold CleanupInactiveMatches. cbn.
  destruct (cleanup_loop h (clock w (clock_next w)) timeout
              (map_to_list (matches mm)) mm [])
    as (mm' & effs' & -> & Hm & Hw & He); [|done|].
  { intros id l Hin. apply elem_of_map_to_list in Hin. by eapply Hheap. }
  assert (∀ id, stale h (clock w (clock_next w)) timeout
                  (map_to_list (matches mm)) id
                ↔ expired h mm (clock w (clock_next w)) timeout id) as Hsame.
  { intros id. unfold stale, expired.
    split; intros (l & room & Hin & Hrest); exists l, room;
      (split; [|done]); by apply elem_of_map_to_list. }
  cbn. eexists _, _, _. split; [done|]. cbn. split; [done|].
  unfold GetMatch. split; [|split].
  - intros id l. by rewrite Hm, Hsame.
  - intros l. rewrite Hw. split; intros [Hl Hst]; (split; [done|]);
      intros room Hroom ?; apply (Hst _ Hroom); by apply Hsame.
  - intros e. rewrite He. split.
    + intros [Hnil|(id & Hst & ->)]; [by apply elem_of_nil in Hnil|].
      exists id. split; [by apply Hsame|done].
    + intros (id & Hst & ->). right. exists id. split; [by apply Hsame|done].
Qed.

Lemma sample_on_heap :
  on_heap [empty_lobby.1] (opened NewMatchManager 0%nat empty_lobby.1).
Proof.
  split.
  - intros id l Hl. cbn in Hl.
    apply lookup_insert_Some in Hl as [[_ <-]|[_ Hl]]; [by eexists|done].
  - intros l [= <-]. by eexists.
Qed.

Lemma CleanupInactiveMatches_spec_witness :
  ∃ mm' effs w',
    CleanupInactiveMatches [empty_lobby.1]
      (opened NewMatchManager 0%nat empty_lobby.1) 300 game_spec.w0
    = Some (mm', effs, w') ∧
    clock_next w' = 1%nat ∧
    (∀ id l, GetMatch mm' id = Some l ↔
             GetMatch (opened NewMatchManager 0%nat empty_lobby.1) id = Some l ∧
             ¬ expired [empty_lobby.1]
                 (opened NewMatchManager 0%nat empty_lobby.1) 0 300 id) ∧
    (∀ l, waitingRoom mm' = Some l ↔
          Some 0%nat = Some l ∧
          ∀ room, [empty_lobby.1] !! l = Some room →
                  ¬ expired [empty_lobby.1]
                      (opened NewMatchManager 0%nat empty_lobby.1) 0 300
                      (ID room)) ∧
    (∀ e, e ∈ effs ↔
          ∃ id, expired [empty_lobby.1]
                  (opened NewMatchManager 0%nat empty_lobby.1) 0 300 id ∧
                e = Log ("Cleaned up inactive match: " +:+ id)).
Proof.
  exact (CleanupInactiveMatches_spec [empty_lobby.1]
           (opened NewMatchManager 0%nat empty_lobby.1) 300 game_spec.w0
           sample_on_heap).
Defined.

(** *** The invariant of the server *)

Lemma handle_ID m ev w m' w' : handle m ev w = Some (m', w') → ID m' = ID m.
Proof.
  destruct ev as [conn|conn|action|]; unfold handle.
  - pose proof (handleRegister_state m conn w) as (Hid & _).
    destruct (handleRegister m conn w) as [[m1 effs] w1]. cbn in *.
    by intros [= <- _].
  - destruct (handleUnregister m conn w) as [[[[m1 effs] cl] w1]|] eqn:E;
      [|done].
    cbn. intros [= <- _].
    by destruct (handleUnregister_state _ _ _ _ _ _ _ E) as (? & _).
  - destruct (handlePlayerAction m action w) as [[[m1 effs] w1]|] eqn:E;
      [|done].
    cbn. intros [= <- _].
    by destruct (handlePlayerAction_state _ _ _ _ _ _ E) as (? & _).
  - by intros [= <- _].
Qed.

(** A match appended to the heap and registered under its identifier. *)
Lemma well_registered_grow h mm room wr :
  well_registered h mm → match_reachable room →
  (wr = waitingRoom mm ∨ wr = Some (length h)) →
  well_registered (h ++ [room])
    {| matches := <[ID room := length h]> (matches mm); waitingRoom := wr |}.
Proof.
  intros (Hall & Hkeys & Hwr) Hroom Hcase. split; [|split].
  - apply Forall_app. split; [done|]. by apply Forall_singleton.
  - intros id l Hl. cbn in Hl.
    apply lookup_insert_Some in Hl as [[<- <-]|[_ Hl]].
    + exists room. split; [|done]. by rewrite list_lookup_middle.
    + destruct (Hkeys _ _ Hl) as (room' & ? & ?). exists room'.
      split; [|done]. by apply lookup_app_l_Some.
  - intros l Hl. cbn in Hl. destruct Hcase as [->| ->].
    + destruct (Hwr _ Hl) as [room' ?]. exists room'.
      by apply lookup_app_l_Some.
    + injection Hl as <-. exists room. by rewrite list_lookup_middle.
Qed.

(** The manager with some registrations and maybe the waiting room
    dropped. *)
Lemma well_registered_shrink h mm mm' :
  well_registered h mm →
  (∀ id l, matches mm' !! id = Some l → matches mm !! id = Some l) →
  (∀ l, waitingRoom mm' = Some l → waitingRoom mm = Some l) →
  well_registered h mm'.
Proof.
  intros (Hall & Hkeys & Hwr) Hm Hw. split; [done|]. split.
  - intros id l Hl. by apply Hkeys, Hm.
  - intros l Hl. by apply Hwr, Hw.
Qed.

Lemma well_registered_step h mm h' mm' :
  well_registered h mm → server_step h mm h' mm' → well_registered h' mm'.
Proof.
  intros Hwell Hstep. pose proof Hwell as (Hall & Hkeys & Hwr).
  destruct Hstep as [ws w l h' mm' effs w' Hfind|ws w l h' mm' effs w' Hcreate
                    |gameID mm' effs Hremove|timeout w mm' effs w' Hclean
                    |l m ev w m' w' Hl Hev].
  - assert ((h' = h ∧ mm' = mm) ∨
            ∃ room, match_reachable room ∧ h' = h ++ [room] ∧
                    mm' = opened mm (length h) room) as [[-> ->]|Hnew].
    { unfold FindOrCreateMatch in Hfind. cbv zeta in Hfind.
      destruct (models.NewGameState ws w) as [st w1].
      destruct (NewMatch (models.GameID st) ws w1) as [room w2] eqn:E.
      assert (match_reachable room) as Hroom.
      { replace room with (NewMatch (models.GameID st) ws w1).1
          by (by rewrite E). constructor. }
      destruct (waitingRoom mm) as [lw|].
      - destruct (h !! lw) as [roomw|]; [|done]. cbn in Hfind.
        destruct (negb _ && _).
        + left. by injection Hfind as _ <- <- _ _.
        + right. exists room. injection Hfind as _ <- <- _ _. done.
      - right. exists room. injection Hfind as _ <- <- _ _. done. }
    + done.
    + destruct Hnew as (room & Hroom & -> & ->).
      apply well_registered_grow; [done|done|by right].
  - unfold CreateMatch in Hcreate.
    destruct (models.NewGameState ws w) as [st w1].
    destruct (NewMatch (models.GameID st) ws w1) as [room w2] eqn:E.
    assert (match_reachable room) as Hroom.
    { replace room with (NewMatch (models.GameID st) ws w1).1
        by (by rewrite E). constructor. }
    injection Hcreate as _ <- <- _ _.
    apply well_registered_grow; [done|done|by left].
  - unfold RemoveMatch in Hremove.
    destruct (dropMatch_spec h mm gameID Hwr) as (mm1 & Hdrop & Hm & Hw).
    rewrite Hdrop in Hremove. cbn in Hremove. injection Hremove as <- _.
    apply (well_registered_shrink h mm); [done| |].
    + intros id l Hl. rewrite Hm in Hl.
      by apply lookup_delete_Some in Hl as [_ ?].
    + intros l Hl. by apply Hw in Hl as [? _].
  - unfold CleanupInactiveMatches in Hclean. cbn in Hclean.
    destruct (cleanup_loop h (clock w (clock_next w)) timeout
                (map_to_list (matches mm)) mm [])
      as (mm1 & effs1 & Hloop & Hm & Hw & _); [|done|].
    { intros id l0 Hin. apply elem_of_map_to_list in Hin.
      destruct (Hkeys _ _ Hin) as (room & ? & _). by exists room. }
    rewrite Hloop in Hclean. cbn in Hclean. injection Hclean as <- _ _.
    apply (well_registered_shrink h mm); [done| |].
    + intros id l0 Hl. by apply Hm in Hl as [? _].
    + intros l0 Hl. by apply Hw in Hl as [? _].
  - assert (l < length h)%nat as Hlt by (by eapply lookup_lt_Some).
    split; [|split].
    + apply Forall_insert; [done|].
      eapply match_reachable_step; [|done].
      by eapply (Forall_lookup_1 _ _ _ _ Hall).
    + intros id l0 Hl0. destruct (Hkeys _ _ Hl0) as (room & Hroom & Hid).
      destruct (decide (l0 = l)) as [->|Hne].
      * exists m'. rewrite list_lookup_insert_eq by done. split; [done|].
        rewrite (handle_ID _ _ _ _ _ Hev).
        by pose proof (eq_trans (eq_sym Hl) Hroom) as [= ->].
      * exists room. by rewrite list_lookup_insert_ne.
    + intros l0 Hl0. destruct (Hwr _ Hl0) as [room Hroom].
      apply lookup_lt_is_Some. rewrite length_insert.
      by eapply lookup_lt_Some.
Qed.

Lemma server_reachable_well h mm :
  server_reachable h mm → well_registered h mm.
Proof.
  induction 1 as [|h mm h' mm' _ IH Hstep].
  - split; [done|]. split; [|done]. intros id l Hl. done.
  - by eapply well_registered_step.
Qed.

(** X23. What the manager points to is there.  Whatever calls of its
    four methods the manager has served, and whatever events the actors of
    the matches have handled in between: every match [GetMatch] finds is
    registered under its own identifier and is a match an actor can have
    brought about, the waiting room is such a match too, and
    [FindOrCreateMatch], [RemoveMatch] and [CleanupInactiveMatches]
    return. *)
Theorem server_reachable_registered (h : list Match) (mm : MatchManager) :
  server_reachable h mm →
  (∀ id l, GetMatch mm id = Some l →
           ∃ room, h !! l = Some room ∧ ID room = id ∧
                   match_reachable room) ∧
  (∀ l, waitingRoom mm = Some l →
        ∃ room, h !! l = Some room ∧ match_reachable room) ∧
  (∀ winningScore w, is_Some (FindOrCreateMatch h mm winningScore w)) ∧
  (∀ gameID, is_Some (RemoveMatch h mm gameID)) ∧
  (∀ timeout w, is_Some (CleanupInactiveMatches h mm timeout w)).
Proof.
  intros Hreach.
  destruct (server_reachable_well _ _ Hreach) as (Hall & Hkeys & Hwr).
  split; [|split; [|split; [|split]]].
  - intros id l Hl. destruct (Hkeys _ _ Hl) as (room & Hroom & Hid).
    exists room. split; [done|]. split; [done|].
    by eapply (Forall_lookup_1 _ _ _ _ Hall).
  - intros l Hl. destruct (Hwr _ Hl) as [room Hroom]. exists room.
    split; [done|]. by eapply (Forall_lookup_1 _ _ _ _ Hall).
  - intros ws w. unfold FindOrCreateMatch. cbv zeta.
    destruct (models.NewGameState ws w) as [st w1].
    destruct (NewMatch (models.GameID st) ws w1) as [room w2].
    destruct (waitingRoom mm) as [lw|] eqn:Hw; [|done].
    destruct (Hwr lw eq_refl) as [roomw ->]. cbn.
    by destruct (negb _ && _).
  - intros gameID. unfold RemoveMatch.
    destruct (dropMatch_spec h mm gameID Hwr) as (mm1 & -> & _). done.
  - intros timeout w. unfold CleanupInactiveMatches. cbn.
    destruct (cleanup_loop h (clock w (clock_next w)) timeout
                (map_to_list (matches mm)) mm [])
      as (mm1 & effs1 & -> & _); [|done|done].
    intros id l0 Hin. apply elem_of_map_to_list in Hin.
    destruct (Hkeys _ _ Hin) as (room & ? & _). by exists room.
Qed.

Lemma tuple_eta {A B C D E} (x : A * B * C * D * E) :
  x = (x.1.1.1.1, x.1.1.1.2, x.1.1.2, x.1.2, x.2).
Proof. by destruct x as [[[[??]?]?]?]. Qed.

Lemma created_reachable : server_reachable created.1.1.1.2 created.1.1.2.
Proof.
  apply (server_next [] NewMatchManager); [constructor|].
  apply (step_CreateMatch [] NewMatchManager 20 game_spec.w0
           created.1.1.1.1 created.1.1.1.2 created.1.1.2 created.1.2
           created.2).
  fold created. apply tuple_eta.
Qed.

Lemma server_reachable_registered_witness :
  (∀ id l, GetMatch created.1.1.2 id = Some l →
           ∃ room, created.1.1.1.2 !! l = Some room ∧ ID room = id ∧
                   match_reachable room) ∧
  (∀ l, waitingRoom created.1.1.2 = Some l →
        ∃ room, created.1.1.1.2 !! l = Some room ∧ match_reachable room) ∧
  (∀ winningScore w,
     is_Some (FindOrCreateMatch created.1.1.1.2 created.1.1.2 winningScore w)) ∧
  (∀ gameID, is_Some (RemoveMatch created.1.1.1.2 created.1.1.2 gameID)) ∧
  (∀ timeout w,
     is_Some (CleanupInactiveMatches created.1.1.1.2 created.1.1.2 timeout w)).
Proof.
  exact (server_reachable_registered created.1.1.1.2 created.1.1.2
           created_reachable).
Defined.

(** ** The game of a match *)

(** What an event does to the game: operations of the game, whose joins
    are those of participants who are active and have no points. *)
Lemma handle_game m ev w m' w' :
  handle m ev w = Some (m', w') →
  ∃ ops, Forall (λ x, game_spec.joins_fresh x.1) ops ∧
         game_spec.run ops (Game m) = Some (Game m').
Proof.
  destruct ev as [conn|conn|action|]; unfold handle.
  - pose proof (handleRegister_state m conn w) as Hreg.
    destruct (handleRegister m conn w) as [[m1 effs] w1]. cbn in Hreg.
    cbn. intros [= <- _].
    destruct Hreg as (_ & _ & [(_ & -> & _)
      |(_ & _ & _ & _ & now & g1 & Hadd & [->|[now' Hstart]])]).
    + by exists [].
    + exists [(game_spec.OpAddPlayer (player_of conn), now)].
      split; [by repeat constructor|].
      cbn [game_spec.run game_spec.apply_op]. cbn in Hadd.
      by rewrite Hadd.
    + exists [(game_spec.OpAddPlayer (player_of conn), now);
              (game_spec.OpStart, now')].
      split; [by repeat constructor|].
      cbn [game_spec.run game_spec.apply_op]. cbn in Hadd, Hstart.
      rewrite Hadd. cbn [mbind option_bind]. by rewrite Hstart.
  - destruct (handleUnregister m conn w) as [[[[m1 effs] cl] w1]|] eqn:E;
      [|done].
    cbn. intros [= <- _].
    destruct (handleUnregister_state _ _ _ _ _ _ _ E)
      as (_ & _ & _ & [[_ ->]|(_ & _ & now & Hop)]); [by exists []|].
    exists [(game_spec.OpRemovePlayer (PlayerID conn), now)].
    split; [by repeat constructor|]. cbn [game_spec.run]. by rewrite Hop.
  - destruct (handlePlayerAction m action w) as [[[m1 effs] w1]|] eqn:E;
      [|done].
    cbn. intros [= <- _].
    destruct (handlePlayerAction_state _ _ _ _ _ _ E)
      as (_ & _ & _ & _ & [->|(o & now & Ho & Hop)]); [by exists []|].
    exists [(o, now)]. split.
    { repeat constructor. by destruct Ho as [->| ->]. }
    cbn [game_spec.run]. by rewrite Hop.
  - intros [= <- _]. by exists [].
Qed.

Lemma run_below ops : ∀ g g',
  Forall (λ x, game_spec.joins_fresh x.1) ops →
  game_spec.below_target (game.state g) →
  game_spec.run ops g = Some g' →
  game_spec.below_target (game.state g').
Proof.
  induction ops as [|[o now] ops IH]; intros g g' Hops Hg Hrun.
  { by injection Hrun as <-. }
  apply Forall_cons in Hops as [Ho Hops]. cbn [game_spec.run] in Hrun.
  destruct (game_spec.apply_op g o now) as [g1|] eqn:Hop; [|done].
  apply (IH g1 g' Hops); [|done].
  apply (game_more.apply_op_below g o now g1); [done| |done].
  intros player ->. by destruct Ho.
Qed.

Lemma match_reachable_below m :
  match_reachable m → game_spec.below_target (game.state (Game m)).
Proof.
  induction 1 as [gameID ws w|m ev w m' w' _ IH Hev].
  - unfold NewMatch.
    destruct (game.NewPigGame ws w) as [g w1] eqn:E. cbn.
    replace g with (game.NewPigGame ws w).1 by (by rewrite E).
    apply game_more.below_target_new.
  - destruct (handle_game _ _ _ _ _ Hev) as (ops & Hops & Hrun).
    by apply (run_below ops (Game m)).
Qed.

(** X24. Nobody sits on a winning total.  In a match its actor has
    brought about, the target of the game is positive (a target of zero
    or less given at creation is replaced by 100), and as long as the game
    is not over every participant has fewer points than the target: a
    hold that reaches the target ends the game at once. *)
Theorem totals_below_target (m : Match) :
  match_reachable m →
  0 < models.WinningScore (game.GetState (Game m)) ∧
  (game.IsGameOver (Game m) = false →
   ∀ p, p ∈ participants m →
        models.Score p < models.WinningScore (game.GetState (Game m))).
Proof.
  intros Hm. destruct (match_reachable_below m Hm) as [Hpos Hbelow].
  split; [done|]. intros Hover p Hp.
  by apply (proj1 (Forall_forall _ _) (Hbelow Hover)).
Qed.

Lemma totals_below_target_witness :
  0 < models.WinningScore (game.GetState (Game lobby.1)) ∧
  (game.IsGameOver (Game lobby.1) = false →
   ∀ p, p ∈ participants lobby.1 →
        models.Score p < models.WinningScore (game.GetState (Game lobby.1))).
Proof. exact (totals_below_target lobby.1 lobby_reachable). Defined.

(** ** No way back *)

(** Who has left stays a participant who has left. *)
Lemma apply_op_left g o now g' id :
  game_spec.apply_op g o now = Some g' →
  (∃ (j : nat) p, models.Players (game.state g) !! j = Some p ∧
                  models.ID p = id ∧ models.IsActive p = false) →
  ∃ (j : nat) p, models.Players (game.state g') !! j = Some p ∧
                 models.ID p = id ∧ models.IsActive p = false.
Proof.
  intros Hop (j & p & Hj & Hid & Hact).
  destruct (game_more.apply_op_effect _ _ _ _ Hop) as (_ & _ & Hps).
  cbn in Hps.
  destruct Hps as [->|[(q & -> & -> & _)
    |[(id' & q & -> & Hq & Hidq & Hactq & ->)
     |(id' & i & q & -> & Hi & Hidq & ->)]]].
  - by exists j, p.
  - exists j, p. by rewrite lookup_app_l by (by eapply lookup_lt_Some).
  - apply game_props.index_Some in Hq as [_ Hq].
    destruct (decide (j = Z.to_nat (models.CurrentPlayer (game.state g))))
      as [->|Hne].
    + pose proof (eq_trans (eq_sym Hq) Hj) as [= ->]. congruence.
    + exists j, p. by rewrite list_lookup_insert_ne.
  - destruct (decide (j = i)) as [->|Hne].
    + pose proof (eq_trans (eq_sym Hi) Hj) as [= ->].
      exists i, (models.set_IsActive false p).
      by rewrite list_lookup_insert_eq by (by eapply lookup_lt_Some).
    + exists j, p. by rewrite list_lookup_insert_ne.
Qed.

Lemma run_left ops id : ∀ g g',
  game_spec.run ops g = Some g' →
  (∃ (j : nat) p, models.Players (game.state g) !! j = Some p ∧
                  models.ID p = id ∧ models.IsActive p = false) →
  ∃ (j : nat) p, models.Players (game.state g') !! j = Some p ∧
                 models.ID p = id ∧ models.IsActive p = false.
Proof.
  induction ops as [|[o now] ops IH]; intros g g' Hrun Hleft.
  { by injection Hrun as <-. }
  cbn [game_spec.run] in Hrun.
  destruct (game_spec.apply_op g o now) as [g1|] eqn:Hop; [|done].
  apply (IH g1 g' Hrun). by eapply apply_op_left.
Qed.

(** Nothing gets registered under the identifier of who has left. *)
Lemma handle_left m ev w m' w' id :
  Players m !! id = None → has_left m id →
  handle m ev w = Some (m', w') →
  Players m' !! id = None ∧ has_left m' id.
Proof.
  intros Hnone Hleft Hev. split.
  - destruct ev as [conn|conn|action|]; unfold handle in Hev.
    + pose proof (handleRegister_state m conn w) as Hreg.
      destruct (handleRegister m conn w) as [[m1 effs] w1]. cbn in Hreg.
      cbn in Hev. injection Hev as <- _.
      destruct Hreg as (_ & _ & [(_ & _ & -> & _)|(Hacc & -> & _)]).
      * destruct (decide (id = PlayerID conn)) as [->|Hne];
          [by rewrite lookup_delete_eq|by rewrite lookup_delete_ne].
      * rewrite lookup_insert_ne; [done|]. intros <-. apply Hacc.
        right; right. destruct Hleft as (j & p & Hj & Hid & _).
        apply Exists_exists. exists p. split; [|done].
        by eapply list_elem_of_lookup_2.
    + destruct (handleUnregister m conn w) as [[[[m1 effs] cl] w1]|] eqn:E;
        [|done].
      cbn in Hev. injection Hev as <- _.
      destruct (handleUnregister_state _ _ _ _ _ _ _ E)
        as (_ & _ & _ & [[_ ->]|(_ & -> & _)]); [done|].
      destruct (decide (id = PlayerID conn)) as [->|Hne];
        [by rewrite lookup_delete_eq|by rewrite lookup_delete_ne].
    + destruct (handlePlayerAction m action w) as [[[m1 effs] w1]|] eqn:E;
        [|done].
      cbn in Hev. injection Hev as <- _.
      destruct (handlePlayerAction_state _ _ _ _ _ _ E)
        as (_ & _ & _ & -> & _). done.
    + by injection Hev as <- _.
  - destruct (handle_game _ _ _ _ _ Hev) as (ops & _ & Hrun).
    by apply (run_left ops id (Game m)).
Qed.

Lemma handle_Leave m conn w r :
  handleUnregister m conn w = Some r →
  handle m (Leave conn) w = Some (r.1.1.1, r.2).
Proof. unfold handle. intros ->. by destruct r as [[[??]?]?]. Qed.

(** X25. No way back into a match.  Once the actor of a match has handled
    the departure of a registered connection, whatever it handles later:
    nothing is registered under the identifier of that connection any
    more, the game keeps a participant of that identifier, who is not
    active, and the game refuses every connection that joins with that
    identifier. *)
Theorem no_way_back
    (m : Match) (conn c : PlayerConnection) (w : World)
    (m1 : Match) (w1 : World) (m2 : Match) :
  match_reachable m → Players m !! PlayerID conn = Some c →
  handle m (Leave conn) w = Some (m1, w1) → match_later m1 m2 →
  Players m2 !! PlayerID conn = None ∧
  has_left m2 (PlayerID conn) ∧
  ∀ conn', PlayerID conn' = PlayerID conn → refused m2 conn'.
Proof.
  intros Hm Hc Hleave Hlater.
  assert (Players m2 !! PlayerID conn = None ∧ has_left m2 (PlayerID conn))
    as [Hnone Hleft].
  { induction Hlater as [|m1' ev w' m2 w2 _ IH Hev].
    - destruct (match_reachable_inv _ Hm) as (_ & Hplay & Hconn & _).
      pose proof (game_more.reachable_is_safe _
                    (game_more.in_play_reachable _ Hplay))
        as (Hnodup & H4 & _).
      destruct (Hconn _ _ Hc) as (_ & i & p & Hi & Hid & Hact).
      unfold participants in *. unfold handle in Hleave.
      destruct (handleUnregister m conn w) as [[[[m' effs] cl] w']|] eqn:E;
        [|done].
      cbn in Hleave. injection Hleave as -> ->.
      destruct (handleUnregister_state _ _ _ _ _ _ _ E)
        as (_ & _ & _ & [[Hnone _]|(_ & Hps & now & Hop)]); [congruence|].
      split; [by rewrite Hps, lookup_delete_eq|].
      destruct (game_props.RemovePlayer_present (Game m) (PlayerID conn)
                  now i p)
        as (g' & Hrem & Hps' & _); [unfold int_max; lia|done|done| |].
      { intros j q Hj Hlt Hq.
        assert (j = i) by (eapply same_ID_same_place; eauto; congruence).
        lia. }
      cbn in Hop. rewrite Hrem in Hop. cbn in Hop. injection Hop as Hop.
      exists i, (models.set_IsActive false p). unfold participants.
      rewrite <- Hop. cbn zeta in Hps'. rewrite Hps'.
      by rewrite list_lookup_insert_eq by (by eapply lookup_lt_Some).
    - destruct IH as [Hnone Hleft]. by eapply handle_left. }
  split; [done|]. split; [done|]. intros conn' Hid. right; right.
  destruct Hleft as (j & p & Hj & Hp & _).
  apply Exists_exists. exists p. split; [by eapply list_elem_of_lookup_2|].
  congruence.
Qed.

Lemma bob_gone_eq :
  handle lobby.1 (Leave conn_b) lobby.2 = Some (bob_gone.1.1.1, bob_gone.2).
Proof.
  apply handle_Leave.
  apply (game_more.evaluates_default (handleUnregister lobby.1 conn_b lobby.2)).
  exact I.
Qed.

Lemma no_way_back_witness :
  Players bob_gone.1.1.1 !! "b" = None ∧
  has_left bob_gone.1.1.1 "b" ∧
  ∀ conn', PlayerID conn' = "b" → refused bob_gone.1.1.1 conn'.
Proof.
  exact (no_way_back lobby.1 conn_b conn_b lobby.2 bob_gone.1.1.1 bob_gone.2
           bob_gone.1.1.1 lobby_reachable eq_refl bob_gone_eq
           (match_later_now _)).
Defined.

End server_more.
